(** * Simulated I/O subsystem (Driver_USB.py): model and verified properties

    The development embeds the simulation engine of [Driver_USB.py]: the
    buffer pool, the interrupt table, the device drivers (block and
    character), the driver registry, the scheduler and the dispatch loop;
    and, of the interface [GUI.py], the methods that add and remove devices.

    Conventions of the embedding.
    - Python [int] is [Z]; Python [float] is an exact rational [Q]
      (rounding, infinities and NaN are not modelled).
    - Python dictionaries keyed by strings or integers are [gmap]s, except
      the driver registry, whose iteration order matters and which is kept
      as an insertion-ordered association list.
    - Mutable objects that are shared (drivers, reachable from the registry
      and from the bound methods stored in the interrupt table) live in a
      store indexed by object identity.  A request is threaded through the
      calls that mutate it and carries its object identity in [op_obj].
    - [time.time()] reads the [clock] of the world, [time.sleep(d)] advances
      it; [random.random()] and [random.randint] are inputs ([Rand]).
    - [queue.Queue] is a list; [queue.PriorityQueue] is the binary heap of
      the module [heapq] of the Python library, the sift loops included.
    - Calls to [logger] have no effect on the modelled state and are left out.
    - Exceptions are the instances of Python's [Exception] class, the ones an
      [except Exception] clause catches. *)

From Stdlib Require Import ZArith QArith Lia Ascii String Permutation Sorted.
From stdpp Require Import gmap strings list pretty.

Set Default Proof Using "Type".

(* ===================================================================== *)
(** * Part I. The model                                                   *)
(* ===================================================================== *)

(** ** Python primitives *)

(** [int(x)] on a float truncates towards zero. *)
Definition py_int (x : Q) : Z := Z.quot (Qnum x) (Zpos (Qden x)).

(** [a < b] on floats. *)
Definition Qltb (a b : Q) : bool := negb (Qle_bool b a).

(** [a == b] on floats. *)
Definition Qeqb (a b : Q) : bool := Qeq_bool a b.

(** [str.upper()], on the ASCII letters. *)
Definition upper_ascii (c : Ascii.ascii) : Ascii.ascii :=
  let n := Ascii.nat_of_ascii c in
  if (97 <=? n)%nat && (n <=? 122)%nat then Ascii.ascii_of_nat (n - 32) else c.

Fixpoint py_upper (s : string) : string :=
  match s with
  | EmptyString => EmptyString
  | String c s' => String (upper_ascii c) (py_upper s')
  end.

(** [str.replace(' ', '_')]. *)
Fixpoint py_replace_space (s : string) : string :=
  match s with
  | EmptyString => EmptyString
  | String c s' =>
      String (if Ascii.eqb c " "%char then "_"%char else c) (py_replace_space s')
  end.

(** The exceptions raised in the modelled code.  [ReferenceError] is raised
    by the model when a driver identity is not in the store, which a Python
    reference cannot be. *)
Inductive exn :=
  | IOError (msg : string)
  | ZeroDivisionError
  | ValueError
  | TypeError
  | RecursionError
  | ReferenceError
  | UserException (msg : string).

(** ** Enumerations *)

Inductive DeviceType := BLOQUE | CARACTER.

Inductive OperationType := LECTURA | ESCRITURA | CONTROL | BUSQUEDA.

Inductive DeviceStatus := DESCONECTADO | CONECTADO | OCUPADO | ERROR | EN_ESPERA.

Inductive SchedulingAlgorithm :=
  FIFO | PRIORIDAD | TRABAJO_MAS_CORTO_PRIMERO | ROUND_ROBIN.

#[global] Instance DeviceStatus_eq_dec : EqDecision DeviceStatus.
Proof. solve_decision. Defined.

#[global] Instance SchedulingAlgorithm_eq_dec : EqDecision SchedulingAlgorithm.
Proof. solve_decision. Defined.

(** ** Data structures *)

(** [DeviceControlBlock]. *)
Record DeviceControlBlock := mkDCB {
  device_id : Z;
  device_name : string;
  device_type : DeviceType;
  capacity_gb : Q;
  transfer_rate_mb_s : Q;
  status : DeviceStatus;
  current_position : Z;
  error_count : Z;
  operations_completed : Z;
  bytes_transferred : Q;
  last_operation_time : Q;
  dcb_creation_time : Q
}.

(** [DeviceControlBlock.__init__]. *)
Definition DeviceControlBlock_init (id : Z) (name : string) (ty : DeviceType)
    (capacity rate now : Q) : DeviceControlBlock :=
  mkDCB id name ty capacity rate DESCONECTADO 0 0 0 0 0 now.

Definition set_status (s : DeviceStatus) (d : DeviceControlBlock) :=
  mkDCB (device_id d) (device_name d) (device_type d) (capacity_gb d)
    (transfer_rate_mb_s d) s (current_position d) (error_count d)
    (operations_completed d) (bytes_transferred d) (last_operation_time d)
    (dcb_creation_time d).

Definition set_current_position (p : Z) (d : DeviceControlBlock) :=
  mkDCB (device_id d) (device_name d) (device_type d) (capacity_gb d)
    (transfer_rate_mb_s d) (status d) p (error_count d)
    (operations_completed d) (bytes_transferred d) (last_operation_time d)
    (dcb_creation_time d).

Definition incr_error_count (d : DeviceControlBlock) :=
  mkDCB (device_id d) (device_name d) (device_type d) (capacity_gb d)
    (transfer_rate_mb_s d) (status d) (current_position d) (error_count d + 1)
    (operations_completed d) (bytes_transferred d) (last_operation_time d)
    (dcb_creation_time d).

(** The three updates of the success branch of [complete_operation]. *)
Definition record_success (size_mb now : Q) (d : DeviceControlBlock) :=
  mkDCB (device_id d) (device_name d) (device_type d) (capacity_gb d)
    (transfer_rate_mb_s d) (status d) (current_position d) (error_count d)
    (operations_completed d + 1)
    (bytes_transferred d + size_mb * 1024 * 1024)%Q now
    (dcb_creation_time d).

(** [IOOperation].  [op_status] is the string the source stores;
    [op_obj] is the identity of the Python object. *)
Record IOOperation := mkOp {
  op_obj : nat;
  operation_id : string;
  operation_type : OperationType;
  data_size_mb : Q;
  process_name : string;
  priority : Z;
  block_address : option Z;
  creation_time : Q;
  start_time : option Q;
  completion_time : option Q;
  op_status : string
}.

(** [IOOperation.__init__]; the identity and the generated id are inputs. *)
Definition IOOperation_init (obj : nat) (id : string) (ty : OperationType)
    (size : Q) (process : string) (prio : Z) (addr : option Z) (now : Q) :=
  mkOp obj id ty size process prio addr now None None "PENDIENTE".

(** [IOOperation.__lt__]: a larger number is a higher priority. *)
Definition op_lt (self other : IOOperation) : bool :=
  (priority other <? priority self)%Z.

(** [a != b] on requests: the class defines no [__eq__], so identity. *)
Definition op_ne (a b : IOOperation) : bool := negb (op_obj a =? op_obj b)%nat.

Definition mark_started (now : Q) (op : IOOperation) :=
  mkOp (op_obj op) (operation_id op) (operation_type op) (data_size_mb op)
    (process_name op) (priority op) (block_address op) (creation_time op)
    (Some now) (completion_time op) "EN_PROGRESO".

Definition mark_completed (now : Q) (success : bool) (op : IOOperation) :=
  mkOp (op_obj op) (operation_id op) (operation_type op) (data_size_mb op)
    (process_name op) (priority op) (block_address op) (creation_time op)
    (start_time op) (Some now) (if success then "COMPLETADA" else "FALLIDA").

(** ** Buffer and BufferManager *)

Record Buffer := mkBuffer {
  size_kb : Z;
  used_kb : Z;
  data : gmap string (Z * string)
}.

Definition Buffer_init (size : Z) : Buffer := mkBuffer size 0 ∅.

(** [Buffer.allocate]. *)
Definition Buffer_allocate (size : Z) (id : string) (b : Buffer) : bool * Buffer :=
  if (used_kb b + size <=? size_kb b)%Z then
    (true,
     mkBuffer (size_kb b) (used_kb b + size)
       (<[id := (size, "Datos simulados para la operación " +:+ id)]> (data b)))
  else (false, b).

(** [Buffer.release]. *)
Definition Buffer_release (id : string) (b : Buffer) : bool * Buffer :=
  match data b !! id with
  | Some entry =>
      (true, mkBuffer (size_kb b) (used_kb b - fst entry) (delete id (data b)))
  | None => (false, b)
  end.

(** [Buffer.get_usage_percentage]. *)
Definition Buffer_get_usage_percentage (b : Buffer) : Q :=
  if (0 <? size_kb b)%Z then (inject_Z (used_kb b) / inject_Z (size_kb b) * 100)%Q
  else 0%Q.

Record BufferManager := mkBufferManager {
  total_buffer_size_kb : Z;
  buffers : gmap string Buffer;
  used_buffer_kb : Z
}.

Definition BufferManager_init (total : Z) : BufferManager :=
  mkBufferManager total ∅ 0.

(** [BufferManager.allocate_buffer]. *)
Definition allocate_buffer (size_mb : Q) (id : string) (bm : BufferManager)
    : bool * BufferManager :=
  let size := py_int (size_mb * 1024) in
  if (total_buffer_size_kb bm <? used_buffer_kb bm + size)%Z then (false, bm)
  else
    let buffer := snd (Buffer_allocate size id (Buffer_init size)) in
    (true,
     mkBufferManager (total_buffer_size_kb bm)
       (<[id := buffer]> (buffers bm)) (used_buffer_kb bm + size)).

(** [BufferManager.release_buffer]. *)
Definition release_buffer (id : string) (bm : BufferManager)
    : bool * BufferManager :=
  match buffers bm !! id with
  | Some buffer =>
      (true,
       mkBufferManager (total_buffer_size_kb bm) (delete id (buffers bm))
         (used_buffer_kb bm - size_kb buffer))
  | None => (false, bm)
  end.

(** [BufferManager.get_buffer_usage]. *)
Definition get_buffer_usage (bm : BufferManager) : Q :=
  if (0 <? total_buffer_size_kb bm)%Z then
    (inject_Z (used_buffer_kb bm) / inject_Z (total_buffer_size_kb bm) * 100)%Q
  else 0%Q.

(** A call on the pool, for sequences of calls. *)
Inductive PoolCall :=
  | Allocate (size_mb : Q) (id : string)
  | Release (id : string).

Definition pool_step (bm : BufferManager) (c : PoolCall) : BufferManager :=
  match c with
  | Allocate size_mb id => snd (allocate_buffer size_mb id bm)
  | Release id => snd (release_buffer id bm)
  end.

Definition pool_run (calls : list PoolCall) (bm : BufferManager) : BufferManager :=
  foldl pool_step bm calls.

(** No call of the sequence allocates under an id that holds a buffer when
    the call is made. *)
Fixpoint fresh_allocations (calls : list PoolCall) (bm : BufferManager) : bool :=
  match calls with
  | [] => true
  | c :: calls' =>
      match c with
      | Allocate _ id => bool_decide (buffers bm !! id = None)
      | Release _ => true
      end && fresh_allocations calls' (pool_step bm c)
  end.

(** ** InterruptTable *)

(** The values passed to interrupt handlers. *)
Inductive PyVal :=
  | VInt (z : Z)
  | VFloat (q : Q)
  | VBool (b : bool)
  | VStr (s : string)
  | VOperation (op : IOOperation).

(** One entry of [interrupt_history]. *)
Record InterruptInfo := mkInterruptInfo {
  info_type : string;
  info_time : Q;
  info_args : list PyVal;
  info_kwargs : gmap string PyVal
}.

(** One entry of [interrupt_stats]. *)
Record InterruptStat := mkInterruptStat {
  count : Z;
  last_triggered : option Q
}.

(** The callables stored in the table: the bound methods the drivers
    register ([self] is the identity of the driver object) and callables
    from outside the engine, which see the arguments only and either return
    or raise. *)
Inductive Handler :=
  | Block_on_connect (self : nat)
  | Block_on_disconnect (self : nat)
  | Block_on_error (self : nat)
  | Char_on_connect (self : nat)
  | Char_on_disconnect (self : nat)
  | Char_on_data_available (self : nat)
  | External (f : list PyVal → gmap string PyVal → option exn).

Record InterruptTable := mkInterruptTable {
  interrupt_handlers : gmap string Handler;
  interrupt_history : list InterruptInfo;
  interrupt_stats : gmap string InterruptStat
}.

Definition InterruptTable_init : InterruptTable := mkInterruptTable ∅ [] ∅.

(** [InterruptTable.register_interrupt_handler]. *)
Definition register_interrupt_handler (interrupt_type : string) (handler : Handler)
    (t : InterruptTable) : InterruptTable :=
  mkInterruptTable
    (<[interrupt_type := handler]> (interrupt_handlers t))
    (interrupt_history t)
    (<[interrupt_type := mkInterruptStat 0 None]> (interrupt_stats t)).

(** The bookkeeping of [trigger_interrupt] that precedes the handler call:
    the history entry and the counters. *)
Definition record_interrupt (interrupt_type : string) (args : list PyVal)
    (kwargs : gmap string PyVal) (now : Q) (t : InterruptTable) : InterruptTable :=
  let history :=
    interrupt_history t ++ [mkInterruptInfo interrupt_type now args kwargs] in
  match interrupt_stats t !! interrupt_type with
  | Some st =>
      mkInterruptTable (interrupt_handlers t) history
        (<[interrupt_type := mkInterruptStat (count st + 1) (Some now)]>
           (interrupt_stats t))
  | None => mkInterruptTable (interrupt_handlers t) history (interrupt_stats t)
  end.

(** ** Drivers and the shared world *)

Inductive DriverClass := DeviceDriver | BlockDeviceDriver | CharacterDeviceDriver.

(** A driver object.  Its [interrupt_table] and [buffer_manager] attributes
    are the shared ones of the world; [operation_history] keeps the
    identities of the requests appended to it. *)
Record Driver := mkDriver {
  driver_class : DriverClass;
  dcb : DeviceControlBlock;
  operation_history : list nat
}.

Record World := mkWorld {
  store : gmap nat Driver;
  interrupt_table : InterruptTable;
  buffer_manager : BufferManager;
  clock : Q
}.

Definition set_store (h : gmap nat Driver) (w : World) : World :=
  mkWorld h (interrupt_table w) (buffer_manager w) (clock w).

Definition set_interrupt_table (t : InterruptTable) (w : World) : World :=
  mkWorld (store w) t (buffer_manager w) (clock w).

Definition set_buffer_manager (bm : BufferManager) (w : World) : World :=
  mkWorld (store w) (interrupt_table w) bm (clock w).

(** [self.dcb.<field> = ...] on the driver [self]. *)
Definition update_dcb (self : nat) (f : DeviceControlBlock → DeviceControlBlock)
    (w : World) : World :=
  set_store
    (alter (λ d, mkDriver (driver_class d) (f (dcb d)) (operation_history d))
       self (store w)) w.

(** [self.operation_history.append(op)]. *)
Definition append_history (self : nat) (op : IOOperation) (w : World) : World :=
  set_store
    (alter (λ d, mkDriver (driver_class d) (dcb d) (operation_history d ++ [op_obj op]))
       self (store w)) w.


(** The interrupt name [f"{name.upper().replace(' ', '_')}_<EVENT>"]. *)
Definition interrupt_name (name event : string) : string :=
  py_replace_space (py_upper name) +:+ "_" +:+ event.

(** The outcome of a computation that may raise: it returns, or it raises
    an exception, in either case with the world as it has left it. *)
Inductive Outcome :=
  | Returned (w : World)
  | Raised (e : exn) (w : World).

Definition outcome_world (r : Outcome) : World :=
  match r with Returned w => w | Raised _ w => w end.

(** Sequencing inside a [try] block. *)
Definition and_then (r : Outcome) (k : World → Outcome) : Outcome :=
  match r with Returned w => k w | Raised e w => Raised e w end.

(** [time.sleep(d)]: a negative length raises [ValueError]. *)
Definition py_sleep (d : Q) (w : World) : Outcome :=
  if Qle_bool 0 d then
    Returned (mkWorld (store w) (interrupt_table w) (buffer_manager w) (clock w + d)%Q)
  else Raised ValueError w.

(** [InterruptTable.trigger_interrupt], over the semantics [call] of a
    handler call.  Whatever the handler raises is caught. *)
Definition trigger_interrupt_with
    (call : Handler → list PyVal → gmap string PyVal → World → Outcome)
    (interrupt_type : string) (args : list PyVal) (kwargs : gmap string PyVal)
    (w : World) : World :=
  let w1 :=
    set_interrupt_table
      (record_interrupt interrupt_type args kwargs (clock w) (interrupt_table w)) w in
  match interrupt_handlers (interrupt_table w1) !! interrupt_type with
  | Some handler =>
      match call handler args kwargs w1 with
      | Returned w2 => w2
      | Raised _ w2 => w2
      end
  | None => w1
  end.

(** Python's binding of [*args, **kwargs] to the parameters that follow
    [self]: no more positional arguments than parameters, and every keyword
    names a parameter that no positional argument has filled.  All the
    parameters of the handlers have defaults (or there are none). *)
Definition binds (params : list string) (args : list PyVal)
    (kwargs : gmap string PyVal) : bool :=
  (length args <=? length params)%nat
  && bool_decide (dom kwargs ⊆ (list_to_set (drop (length args) params) : gset string)).

(** The call of a handler.  [depth] is the number of nested handler calls
    the interpreter's stack still admits; when it is used up the call raises
    [RecursionError]. *)
Fixpoint call_handler (depth : nat) (handler : Handler) (args : list PyVal)
    (kwargs : gmap string PyVal) (w : World) : Outcome :=
  match depth with
  | O => Raised RecursionError w
  | S depth' =>
      match handler with
      | Block_on_connect self | Char_on_connect self =>
          if binds [] args kwargs then
            match store w !! self with
            | Some _ => Returned (update_dcb self (set_status CONECTADO) w)
            | None => Raised ReferenceError w
            end
          else Raised TypeError w
      | Block_on_disconnect self =>
          if binds [] args kwargs then
            match store w !! self with
            | Some _ => Returned (update_dcb self (set_status DESCONECTADO) w)
            | None => Raised ReferenceError w
            end
          else Raised TypeError w
      | Block_on_error self =>
          if binds ["error_code"; "error_message"] args kwargs then
            match store w !! self with
            | Some _ =>
                Returned
                  (update_dcb self incr_error_count
                     (update_dcb self (set_status ERROR) w))
            | None => Raised ReferenceError w
            end
          else Raised TypeError w
      | Char_on_disconnect self =>
          if binds [] args kwargs then
            match store w !! self with
            | Some d =>
                let w1 := update_dcb self (set_status DESCONECTADO) w in
                Returned
                  (trigger_interrupt_with (call_handler depth')
                     (interrupt_name (device_name (dcb d)) "DISCONNECT") [] ∅ w1)
            | None => Raised ReferenceError w
            end
          else Raised TypeError w
      | Char_on_data_available self =>
          if binds ["data_size"] args kwargs then Returned w else Raised TypeError w
      | External f =>
          match f args kwargs with
          | None => Returned w
          | Some e => Raised e w
          end
      end
  end.

(** [InterruptTable.trigger_interrupt]. *)
Definition trigger_interrupt (depth : nat) (interrupt_type : string)
    (args : list PyVal) (kwargs : gmap string PyVal) (w : World) : World :=
  trigger_interrupt_with (call_handler depth) interrupt_type args kwargs w.

(** ** DeviceDriver, BlockDeviceDriver, CharacterDeviceDriver *)

(** The draws of the random generator made while one request is served. *)
Record Rand := mkRand {
  random_random : Q;
  random_randint : Z
}.

(** [DeviceDriver.__init__]: a new driver object with identity [self]. *)
Definition DeviceDriver_init (cls : DriverClass) (self : nat)
    (d : DeviceControlBlock) (w : World) : World :=
  set_store (<[self := mkDriver cls d []]> (store w)) w.

Definition register (interrupt_type : string) (handler : Handler) (w : World) : World :=
  set_interrupt_table
    (register_interrupt_handler interrupt_type handler (interrupt_table w)) w.

(** [BlockDeviceDriver.__init__]. *)
Definition BlockDeviceDriver_init (self : nat) (d : DeviceControlBlock)
    (w : World) : World :=
  let w := DeviceDriver_init BlockDeviceDriver self d w in
  let w := register (interrupt_name (device_name d) "CONNECT") (Block_on_connect self) w in
  let w := register (interrupt_name (device_name d) "DISCONNECT") (Block_on_disconnect self) w in
  register (interrupt_name (device_name d) "ERROR") (Block_on_error self) w.

(** [CharacterDeviceDriver.__init__]. *)
Definition CharacterDeviceDriver_init (self : nat) (d : DeviceControlBlock)
    (w : World) : World :=
  let w := DeviceDriver_init CharacterDeviceDriver self d w in
  let w := register (interrupt_name (device_name d) "CONNECT") (Char_on_connect self) w in
  let w := register (interrupt_name (device_name d) "DISCONNECT") (Char_on_disconnect self) w in
  register (interrupt_name (device_name d) "DATA_AVAILABLE") (Char_on_data_available self) w.

(** [DeviceDriver.perform_operation].  The result is [None] only when
    [self] is not a driver of the store. *)
Definition DeviceDriver_perform_operation (self : nat) (op : IOOperation)
    (w : World) : option (bool * IOOperation * World) :=
  d ← store w !! self;
  if decide (status (dcb d) ≠ CONECTADO) then Some (false, op, w)
  else
    let op1 := mark_started (clock w) op in
    Some (true, op1, append_history self op1 w).

(** [DeviceDriver.complete_operation]. *)
Definition complete_operation (depth : nat) (self : nat) (op : IOOperation)
    (success : bool) (w : World) : option (IOOperation * World) :=
  d ← store w !! self;
  let op1 := mark_completed (clock w) success op in
  let w1 :=
    if success then update_dcb self (record_success (data_size_mb op1) (clock w)) w
    else update_dcb self incr_error_count w in
  let w2 :=
    set_buffer_manager
      (snd (release_buffer (operation_id op1) (buffer_manager w1))) w1 in
  Some (op1,
        trigger_interrupt depth
          (interrupt_name (device_name (dcb d)) "OPERATION_COMPLETED")
          [VOperation op1; VBool success] ∅ w2).

(** The seek of [BlockDeviceDriver.perform_operation]. *)
Definition Block_seek (self : nat) (op : IOOperation) (w : World) : Outcome :=
  match block_address op with
  | Some addr =>
      match store w !! self with
      | Some d =>
          let seek_distance := Z.abs (current_position (dcb d) - addr) in
          let seek_time := (inject_Z seek_distance * 0.001)%Q in
          py_sleep seek_time (update_dcb self (set_current_position addr) w)
      | None => Raised ReferenceError w
      end
  | None => Returned w
  end.

(** The transfer of [BlockDeviceDriver.perform_operation]: the division, the
    simulated fault (probability 0.05) and the waits. *)
Definition Block_transfer (rnd : Rand) (self : nat) (op : IOOperation)
    (w : World) : Outcome :=
  match store w !! self with
  | Some d =>
      if Qeqb (transfer_rate_mb_s (dcb d)) 0 then Raised ZeroDivisionError w
      else
        let transfer_time := (data_size_mb op / transfer_rate_mb_s (dcb d))%Q in
        if Qltb (random_random rnd) 0.05 then
          and_then (py_sleep (transfer_time / 3) w)
            (λ w', Raised (IOError "Error de E/S simulado") w')
        else py_sleep transfer_time w
  | None => Raised ReferenceError w
  end.

(** [BlockDeviceDriver.perform_operation]. *)
Definition Block_perform_operation (depth : nat) (rnd : Rand) (self : nat)
    (op : IOOperation) (w : World) : option (bool * IOOperation * World) :=
  '(ok, op1, w1) ← DeviceDriver_perform_operation self op w;
  if negb ok then Some (false, op1, w1)
  else
    let w2 := update_dcb self (set_status OCUPADO) w1 in
    let alloc :=
      allocate_buffer (data_size_mb op1) (operation_id op1) (buffer_manager w2) in
    let w3 := set_buffer_manager (snd alloc) w2 in
    if negb (fst alloc) then
      '(op2, w4) ← complete_operation depth self op1 false w3;
      Some (false, op2, w4)
    else
      match and_then (Block_seek self op1 w3) (Block_transfer rnd self op1) with
      | Returned w4 =>
          '(op2, w5) ← complete_operation depth self op1 true w4;
          Some (true, op2, update_dcb self (set_status CONECTADO) w5)
      | Raised _ w4 =>
          '(op2, w5) ← complete_operation depth self op1 false w4;
          Some (false, op2, update_dcb self (set_status ERROR) w5)
      end.

(** The transfer of [CharacterDeviceDriver.perform_operation]: the division,
    the simulated fault (probability 0.03) and the waits. *)
Definition Char_transfer (rnd : Rand) (self : nat) (op : IOOperation)
    (w : World) : Outcome :=
  match store w !! self with
  | Some d =>
      if Qeqb (transfer_rate_mb_s (dcb d)) 0 then Raised ZeroDivisionError w
      else
        let transfer_time := (data_size_mb op / transfer_rate_mb_s (dcb d))%Q in
        if Qltb (random_random rnd) 0.03 then
          and_then (py_sleep (transfer_time / 2) w)
            (λ w', Raised (IOError "Error de E/S simulado") w')
        else py_sleep transfer_time w
  | None => Raised ReferenceError w
  end.

(** [CharacterDeviceDriver.perform_operation]. *)
Definition Char_perform_operation (depth : nat) (rnd : Rand) (self : nat)
    (op : IOOperation) (w : World) : option (bool * IOOperation * World) :=
  '(ok, op1, w1) ← DeviceDriver_perform_operation self op w;
  if negb ok then Some (false, op1, w1)
  else
    d ← store w1 !! self;
    let w2 := update_dcb self (set_status OCUPADO) w1 in
    match Char_transfer rnd self op1 w2 with
    | Returned w3 =>
        '(op2, w4) ← complete_operation depth self op1 true w3;
        Some (true, op2, update_dcb self (set_status CONECTADO) w4)
    | Raised _ w3 =>
        '(op2, w4) ← complete_operation depth self op1 false w3;
        let w5 := update_dcb self (set_status ERROR) w4 in
        Some (false, op2,
              trigger_interrupt depth (interrupt_name (device_name (dcb d)) "ERROR") []
                (<["error_code" := VInt (random_randint rnd)]>
                   (<["error_message" := VStr "Error simulado"]> ∅)) w5)
    end.

(** [driver.perform_operation(op)], dispatched on the class of [self]. *)
Definition perform_operation (depth : nat) (rnd : Rand) (self : nat)
    (op : IOOperation) (w : World) : option (bool * IOOperation * World) :=
  d ← store w !! self;
  match driver_class d with
  | DeviceDriver => DeviceDriver_perform_operation self op w
  | BlockDeviceDriver => Block_perform_operation depth rnd self op w
  | CharacterDeviceDriver => Char_perform_operation depth rnd self op w
  end.

(** ** DeviceDriverTable *)

(** [drivers] is a dictionary from device ids to driver objects; the
    dispatch loop iterates over its keys, so it is kept in insertion order. *)
Record DeviceDriverTable := mkDriverTable {
  drivers : list (Z * nat)
}.

Fixpoint dict_set (k : Z) (v : nat) (l : list (Z * nat)) : list (Z * nat) :=
  match l with
  | [] => [(k, v)]
  | (k', v') :: l' =>
      if decide (k = k') then (k, v) :: l' else (k', v') :: dict_set k v l'
  end.

Fixpoint dict_get (k : Z) (l : list (Z * nat)) : option nat :=
  match l with
  | [] => None
  | (k', v') :: l' => if decide (k = k') then Some v' else dict_get k l'
  end.

Fixpoint dict_del (k : Z) (l : list (Z * nat)) : list (Z * nat) :=
  match l with
  | [] => []
  | (k', v') :: l' => if decide (k = k') then l' else (k', v') :: dict_del k l'
  end.

Definition register_driver (id : Z) (driver : nat) (t : DeviceDriverTable) :=
  mkDriverTable (dict_set id driver (drivers t)).

Definition get_driver (id : Z) (t : DeviceDriverTable) : option nat :=
  dict_get id (drivers t).

Definition unregister_driver (id : Z) (t : DeviceDriverTable)
    : bool * DeviceDriverTable :=
  match dict_get id (drivers t) with
  | Some _ => (true, mkDriverTable (dict_del id (drivers t)))
  | None => (false, t)
  end.

(** [DeviceDriverTable.get_all_drivers]. *)
Definition get_all_drivers (t : DeviceDriverTable) : list (Z * nat) := drivers t.

(** ** The queues of the scheduler *)

(** [queue.PriorityQueue] keeps its items in a list ordered as a binary heap
    by the module [heapq] of the Python library: [put] is [heappush] and
    [get] is [heappop], and the items are compared with [<], here
    [IOOperation.__lt__].  The arrays are lists, read with [!!] and stored
    into with [<[i := x]>]; the loops take a bound on their iterations. *)

(** [(pos - 1) >> 1]. *)
Definition parent (pos : nat) : nat := (pos - 1) / 2.
Arguments parent : simpl never.

(** The loop of [heapq._siftdown] followed by [heap[pos] = newitem]. *)
Fixpoint siftdown_loop (fuel : nat) (heap : list IOOperation) (startpos pos : nat)
    (newitem : IOOperation) : list IOOperation :=
  match fuel with
  | O => <[pos := newitem]> heap
  | S fuel' =>
      if decide (startpos < pos) then
        let parentpos := parent pos in
        match heap !! parentpos with
        | Some parent =>
            if op_lt newitem parent then
              siftdown_loop fuel' (<[pos := parent]> heap) startpos parentpos newitem
            else <[pos := newitem]> heap
        | None => <[pos := newitem]> heap
        end
      else <[pos := newitem]> heap
  end.

(** [heapq._siftdown(heap, startpos, pos)]. *)
Definition siftdown (heap : list IOOperation) (startpos pos : nat) : list IOOperation :=
  match heap !! pos with
  | Some newitem => siftdown_loop pos heap startpos pos newitem
  | None => heap
  end.

(** The loop of [heapq._siftup]: the smaller child moves up until the
    position is a leaf.  Returns the array and the final position. *)
Fixpoint siftup_loop (fuel : nat) (heap : list IOOperation) (pos : nat)
    : list IOOperation * nat :=
  match fuel with
  | O => (heap, pos)
  | S fuel' =>
      let endpos := length heap in
      let childpos := 2 * pos + 1 in
      if decide (childpos < endpos) then
        let rightpos := childpos + 1 in
        let childpos :=
          match heap !! childpos, heap !! rightpos with
          | Some child, Some rchild =>
              if negb (op_lt child rchild) then rightpos else childpos
          | _, _ => childpos
          end in
        match heap !! childpos with
        | Some child => siftup_loop fuel' (<[pos := child]> heap) childpos
        | None => (heap, pos)
        end
      else (heap, pos)
  end.

(** [heapq._siftup(heap, pos)]. *)
Definition siftup (heap : list IOOperation) (pos : nat) : list IOOperation :=
  match heap !! pos with
  | Some newitem =>
      let '(heap', pos') := siftup_loop (length heap) heap pos in
      siftdown (<[pos' := newitem]> heap') pos pos'
  | None => heap
  end.

(** [heapq.heappush(heap, item)]. *)
Definition heappush (heap : list IOOperation) (item : IOOperation) : list IOOperation :=
  siftdown (heap ++ [item]) 0 (length (heap ++ [item]) - 1).

(** [heapq.heappop(heap)]; [None] on the empty list ([IndexError]). *)
Definition heappop (heap : list IOOperation) : option (IOOperation * list IOOperation) :=
  match last heap with
  | None => None
  | Some lastelt =>
      match take (length heap - 1) heap with
      | [] => Some (lastelt, [])
      | returnitem :: rest => Some (returnitem, siftup (lastelt :: rest) 0)
      end
  end.

(** A [queue.Queue] or a [queue.PriorityQueue], with its items. *)
Inductive PyQueue :=
  | Queue (items : list IOOperation)
  | PriorityQueue (items : list IOOperation).

Definition queue_items (q : PyQueue) : list IOOperation :=
  match q with Queue l | PriorityQueue l => l end.

Definition queue_empty (q : PyQueue) : bool :=
  match queue_items q with [] => true | _ => false end.

Definition queue_qsize (q : PyQueue) : nat := length (queue_items q).

Definition queue_put (item : IOOperation) (q : PyQueue) : PyQueue :=
  match q with
  | Queue l => Queue (l ++ [item])
  | PriorityQueue h => PriorityQueue (heappush h item)
  end.

(** [q.get()]; [None] when the queue is empty (the call would block). *)
Definition queue_get (q : PyQueue) : option (IOOperation * PyQueue) :=
  match q with
  | Queue [] | PriorityQueue [] => None
  | Queue (x :: l) => Some (x, Queue l)
  | PriorityQueue h => '(x, h') ← heappop h; Some (x, PriorityQueue h')
  end.

(** [while not q.empty(): operations.append(q.get())], at most [fuel]
    times. *)
Fixpoint drain (fuel : nat) (q : PyQueue) (operations : list IOOperation)
    : list IOOperation * PyQueue :=
  match fuel with
  | O => (operations, q)
  | S fuel' =>
      if queue_empty q then (operations, q)
      else
        match queue_get q with
        | Some (item, q') => drain fuel' q' (operations ++ [item])
        | None => (operations, q)
        end
  end.

(** ** IOScheduler *)

Record IOScheduler := mkScheduler {
  algorithm : SchedulingAlgorithm;
  operation_queues : gmap Z PyQueue
}.

Definition IOScheduler_init (alg : SchedulingAlgorithm) : IOScheduler :=
  mkScheduler alg ∅.

(** The queue created for an algorithm. *)
Definition new_queue (alg : SchedulingAlgorithm) : PyQueue :=
  match alg with
  | FIFO => Queue []
  | PRIORIDAD => PriorityQueue []
  | _ => Queue []
  end.

(** The loop of [IOScheduler.set_algorithm] that moves the items of the old
    queue to the new one: [while not old_queue.empty(): new_queue.put(old_queue.get())],
    at most [fuel] times. *)
Fixpoint transfer (fuel : nat) (old_queue new_queue : PyQueue) : PyQueue :=
  match fuel with
  | O => new_queue
  | S fuel' =>
      if queue_empty old_queue then new_queue
      else
        match queue_get old_queue with
        | Some (item, old_queue') => transfer fuel' old_queue' (queue_put item new_queue)
        | None => new_queue
        end
  end.

(** [IOScheduler.set_algorithm]: every queue is replaced by a new queue of
    the new algorithm that receives its items. *)
Definition rebuild_queue (alg : SchedulingAlgorithm) (old_queue : PyQueue) : PyQueue :=
  transfer (queue_qsize old_queue) old_queue (new_queue alg).

Definition set_algorithm (alg : SchedulingAlgorithm) (s : IOScheduler) : IOScheduler :=
  mkScheduler alg (rebuild_queue alg <$> operation_queues s).

(** [IOScheduler.add_operation]. *)
Definition add_operation (id : Z) (op : IOOperation) (s : IOScheduler) : IOScheduler :=
  let queues :=
    match operation_queues s !! id with
    | Some _ => operation_queues s
    | None => <[id := new_queue (algorithm s)]> (operation_queues s)
    end in
  mkScheduler (algorithm s) (alter (queue_put op) id queues).

(** [min(operations, key=lambda op: op.data_size_mb)]: the first of the
    smallest. *)
Definition min_by_size (first : IOOperation) (rest : list IOOperation) : IOOperation :=
  foldl (λ best op, if Qltb (data_size_mb op) (data_size_mb best) then op else best)
    first rest.

(** [for op in operations: if op != shortest_op: queue.put(op)]. *)
Definition put_back (shortest_op : IOOperation) (operations : list IOOperation)
    (q : PyQueue) : PyQueue :=
  foldl (λ q op, if op_ne op shortest_op then queue_put op q else q) q operations.

(** [return self.operation_queues[device_id].get()]. *)
Definition get_from_queue (id : Z) (q : PyQueue) (s : IOScheduler)
    : option IOOperation * IOScheduler :=
  match queue_get q with
  | Some (op, q') =>
      (Some op, mkScheduler (algorithm s) (<[id := q']> (operation_queues s)))
  | None => (None, s)
  end.

(** [IOScheduler.get_next_operation]. *)
Definition get_next_operation (id : Z) (s : IOScheduler)
    : option IOOperation * IOScheduler :=
  match operation_queues s !! id with
  | None => (None, s)
  | Some q =>
      if queue_empty q then (None, s)
      else
        match algorithm s with
        | FIFO => get_from_queue id q s
        | PRIORIDAD => get_from_queue id q s
        | TRABAJO_MAS_CORTO_PRIMERO =>
            let '(operations, q') := drain (queue_qsize q) q [] in
            match operations with
            | [] => (None, mkScheduler (algorithm s) (<[id := q']> (operation_queues s)))
            | first :: rest =>
                let shortest_op := min_by_size first rest in
                (Some shortest_op,
                 mkScheduler (algorithm s)
                   (<[id := put_back shortest_op operations q']> (operation_queues s)))
            end
        | ROUND_ROBIN => get_from_queue id q s
        end
  end.

(** [IOScheduler.get_queue_length]. *)
Definition get_queue_length (id : Z) (s : IOScheduler) : nat :=
  match operation_queues s !! id with
  | Some q => queue_qsize q
  | None => 0
  end.

(** A call on the scheduler, for sequences of calls. *)
Inductive SchedulerCall :=
  | Enqueue (id : Z) (op : IOOperation)
  | Dequeue (id : Z).

(** Runs the calls in order and collects what each [Dequeue] returns. *)
Fixpoint run_calls (calls : list SchedulerCall) (s : IOScheduler)
    : list (option IOOperation) * IOScheduler :=
  match calls with
  | [] => ([], s)
  | Enqueue id op :: calls' => run_calls calls' (add_operation id op s)
  | Dequeue id :: calls' =>
      let '(r, s') := get_next_operation id s in
      let '(rs, s'') := run_calls calls' s' in
      (r :: rs, s'')
  end.

(** [n] successive calls of [get_next_operation] for one device. *)
Fixpoint dequeue_n (n : nat) (id : Z) (s : IOScheduler)
    : list (option IOOperation) * IOScheduler :=
  match n with
  | O => ([], s)
  | S n' =>
      let '(r, s') := get_next_operation id s in
      let '(rs, s'') := dequeue_n n' id s' in
      (r :: rs, s'')
  end.

Definition enqueue_all (id : Z) (ops : list IOOperation) (s : IOScheduler) : IOScheduler :=
  foldl (λ s op, add_operation id op s) s ops.

(** ** IOManager *)

Record Stats := mkStats {
  operations_processed : Z;
  operations_succeeded : Z;
  operations_failed : Z;
  total_data_mb : Q;
  stats_start_time : Q
}.

(** The dictionary appended to the history of the manager for every request
    it has served. *)
Record OperationRecord := mkOperationRecord {
  rec_operation_id : string;
  rec_device_id : Z;
  rec_device_name : string;
  rec_operation_type : OperationType;
  rec_data_size_mb : Q;
  rec_process_name : string;
  rec_priority : Z;
  rec_creation_time : Q;
  rec_start_time : option Q;
  rec_completion_time : option Q;
  rec_status : string;
  rec_success : bool
}.

(** A status listener is a callable from outside the engine: it sees its
    arguments and returns or raises. *)
Definition Listener := Z → IOOperation → bool → option exn.

(** A call made to a listener: its position in [status_listeners], the
    arguments, and what the call has raised, if anything. *)
Record Notification := mkNotification {
  note_listener : nat;
  note_device_id : Z;
  note_operation : IOOperation;
  note_success : bool;
  note_raised : option exn
}.

(** The manager; [notifications] is the trace of the calls it has made to
    its listeners. *)
Record IOManager := mkManager {
  running : bool;
  stats : Stats;
  manager_history : list OperationRecord;
  status_listeners : list Listener;
  notifications : list Notification
}.

Definition IOManager_init (now : Q) : IOManager :=
  mkManager true (mkStats 0 0 0 0 now) [] [] [].

Definition add_status_listener (listener : Listener) (m : IOManager) : IOManager :=
  mkManager (running m) (stats m) (manager_history m)
    (status_listeners m ++ [listener]) (notifications m).


(** [IOManager.get_throughput], at the time [now]. *)
Definition get_throughput (now : Q) (m : IOManager) : Q :=
  let elapsed_time := (now - stats_start_time (stats m))%Q in
  if Qltb 0 elapsed_time then (total_data_mb (stats m) / elapsed_time)%Q else 0%Q.

(** [IOManager.get_success_rate]. *)
Definition get_success_rate (m : IOManager) : Q :=
  let total := (operations_succeeded (stats m) + operations_failed (stats m))%Z in
  if (0 <? total)%Z then
    (inject_Z (operations_succeeded (stats m)) / inject_Z total * 100)%Q
  else 0%Q.

(** The whole engine: the world of the drivers, the scheduler, the registry
    and the manager. *)
Record System := mkSystem {
  world : World;
  scheduler : IOScheduler;
  driver_table : DeviceDriverTable;
  manager : IOManager
}.

(** [IOManager.add_io_operation]. *)
Definition add_io_operation (id : Z) (op : IOOperation) (sys : System) : System :=
  mkSystem (world sys) (add_operation id op (scheduler sys)) (driver_table sys)
    (manager sys).

(** The statistics after a request has been served. *)
Definition update_stats (success : bool) (op : IOOperation) (st : Stats) : Stats :=
  if success then
    mkStats (operations_processed st + 1) (operations_succeeded st + 1)
      (operations_failed st) (total_data_mb st + data_size_mb op)%Q
      (stats_start_time st)
  else
    mkStats (operations_processed st + 1) (operations_succeeded st)
      (operations_failed st + 1) (total_data_mb st) (stats_start_time st).

Definition operation_record (id : Z) (name : string) (op : IOOperation)
    (success : bool) : OperationRecord :=
  mkOperationRecord (operation_id op) id name (operation_type op)
    (data_size_mb op) (process_name op) (priority op) (creation_time op)
    (start_time op) (completion_time op) (op_status op) success.

(** [for listener in self.status_listeners: listener(device_id, op, success)]:
    every listener is called, what it raises is caught. *)
Definition notify_listeners (id : Z) (op : IOOperation) (success : bool)
    (m : IOManager) : IOManager :=
  mkManager (running m) (stats m) (manager_history m) (status_listeners m)
    (notifications m ++
       imap (λ i (listener : Listener),
               mkNotification i id op success (listener id op success))
         (status_listeners m)).

(** The body of the loop of [IOManager.run] for one device id.  The result
    is [None] only when the registry holds an identity that is not in the
    store. *)
Definition dispatch_device (depth : nat) (rnd : Rand) (id : Z) (sys : System)
    : option System :=
  match get_driver id (driver_table sys) with
  | None => Some sys
  | Some driver =>
      d ← store (world sys) !! driver;
      if decide (status (dcb d) = OCUPADO) then Some sys
      else
        match get_next_operation id (scheduler sys) with
        | (None, sched) => Some (mkSystem (world sys) sched (driver_table sys) (manager sys))
        | (Some io_operation, sched) =>
            '(success, op, w) ← perform_operation depth rnd driver io_operation (world sys);
            d' ← store w !! driver;
            let m := manager sys in
            let m1 :=
              mkManager (running m) (update_stats success op (stats m))
                (manager_history m ++
                   [operation_record id (device_name (dcb d')) op success])
                (status_listeners m) (notifications m) in
            Some (mkSystem w sched (driver_table sys) (notify_listeners id op success m1))
        end
  end.



(** ** The interface

    Of the methods of [IOSimulationGUI] the definitions keep the calls on the
    engine, on the state [System]; the windows, lists and dialogs are left
    out, and the device selected in the list is a parameter. *)

(** The id the interface gives to a new device: [len(drivers) + 1]. *)
Definition GUI_next_device_id (sys : System) : Z :=
  (Z.of_nat (length (get_all_drivers (driver_table sys))) + 1)%Z.

(** [IOSimulationGUI.add_block_device]: [self] is the identity of the new
    driver object. *)
Definition GUI_add_block_device (depth self : nat) (sys : System) : System :=
  let new_id := GUI_next_device_id sys in
  let c :=
    DeviceControlBlock_init new_id
      ("Dispositivo de Bloques " +:+ pretty new_id) BLOQUE 500 100
      (clock (world sys)) in
  let w := BlockDeviceDriver_init self c (world sys) in
  let t := register_driver (device_id c) self (driver_table sys) in
  let w := trigger_interrupt depth (interrupt_name (device_name c) "CONNECT") [] ∅ w in
  mkSystem w (scheduler sys) t (manager sys).

(** [IOSimulationGUI.add_character_device]. *)
Definition GUI_add_character_device (depth self : nat) (sys : System) : System :=
  let new_id := GUI_next_device_id sys in
  let c :=
    DeviceControlBlock_init new_id
      ("Dispositivo de Caracteres " +:+ pretty new_id) CARACTER 0 1
      (clock (world sys)) in
  let w := CharacterDeviceDriver_init self c (world sys) in
  let t := register_driver (device_id c) self (driver_table sys) in
  let w := trigger_interrupt depth (interrupt_name (device_name c) "CONNECT") [] ∅ w in
  mkSystem w (scheduler sys) t (manager sys).

(** [IOSimulationGUI.remove_selected_device], for the device id selected in
    the list.  The result is [None] only when the registry holds an identity
    that is not in the store. *)
Definition GUI_remove_selected_device (depth : nat) (selected : Z) (sys : System)
    : option System :=
  match get_driver selected (driver_table sys) with
  | None => Some sys
  | Some driver =>
      d ← store (world sys) !! driver;
      let w :=
        trigger_interrupt depth (interrupt_name (device_name (dcb d)) "DISCONNECT")
          [] ∅ (world sys) in
      Some (mkSystem w (scheduler sys)
              (snd (unregister_driver selected (driver_table sys))) (manager sys))
  end.

(** ** Predicates of the statements *)

(** The sizes held by the buffers of the pool, summed. *)
Definition held (m : gmap string Buffer) : Z :=
  map_fold (λ _ b acc, size_kb b + acc)%Z 0%Z m.

(** The invariant of the pool: every buffer has a size that is not negative
    and what is reserved covers the buffers and fits the capacity. *)
Definition pool_inv (bm : BufferManager) : Prop :=
  map_Forall (λ _ b, 0 ≤ size_kb b)%Z (buffers bm)
  ∧ (held (buffers bm) ≤ used_buffer_kb bm ≤ total_buffer_size_kb bm)%Z.

(** The sizes a sequence of calls asks for are not negative. *)
Definition nonneg_call (c : PoolCall) : Prop :=
  match c with
  | Allocate size_mb _ => (0 <= size_mb)%Q
  | Release _ => True
  end.


(** The trigger count of an event name (0 without counters). *)
Definition count_of (interrupt_type : string) (t : InterruptTable) : Z :=
  match interrupt_stats t !! interrupt_type with
  | Some st => count st
  | None => 0
  end.

(** What a table can become while interrupts are triggered: the handlers
    stay, the history is extended and no counter decreases. *)
Definition table_extends (t t' : InterruptTable) : Prop :=
  interrupt_handlers t' = interrupt_handlers t
  ∧ interrupt_history t `prefix_of` interrupt_history t'
  ∧ ∀ name, (count_of name t ≤ count_of name t')%Z.

(** The status of the device of a driver of the store. *)
Definition status_of (self : nat) (w : World) : option DeviceStatus :=
  (λ d, status (dcb d)) <$> store w !! self.

(** The error count of the device of a driver of the store. *)
Definition error_count_of (self : nat) (w : World) : option Z :=
  (λ d, error_count (dcb d)) <$> store w !! self.

(** The heap order of [heapq]: no item is lower than its parent. *)
Definition heap_ok (h : list IOOperation) : Prop :=
  ∀ i c p, 0 < i → h !! i = Some c → h !! parent i = Some p → op_lt c p = false.

(** The heap order around a hole at [pos], whose content does not count:
    the pairs that do not involve the hole are in order, and so are the
    children of the hole with its parent. *)
Definition hole_ok (h : list IOOperation) (pos : nat) : Prop :=
  (∀ i c p, 0 < i → i ≠ pos → parent i ≠ pos →
     h !! i = Some c → h !! parent i = Some p → op_lt c p = false)
  ∧ (∀ i c g, 0 < i → 0 < pos → parent i = pos →
       h !! i = Some c → h !! parent pos = Some g → op_lt c g = false).

(** No child of [pos] is lower than [x]. *)
Definition below_children (h : list IOOperation) (pos : nat) (x : IOOperation) : Prop :=
  ∀ i c, 0 < i → parent i = pos → h !! i = Some c → op_lt c x = false.

(** The queues of a scheduler are of the kind its algorithm creates, the
    priority queues in heap order; this holds of every scheduler built by
    [IOScheduler_init], [set_algorithm], [add_operation] and
    [get_next_operation]. *)
Definition queue_matches (alg : SchedulingAlgorithm) (q : PyQueue) : Prop :=
  match alg, q with
  | PRIORIDAD, PriorityQueue h => heap_ok h
  | PRIORIDAD, Queue _ => False
  | _, Queue _ => True
  | _, PriorityQueue _ => False
  end.

Definition scheduler_ok (s : IOScheduler) : Prop :=
  map_Forall (λ _ q, queue_matches (algorithm s) q) (operation_queues s).

(** The schedulers built through the operations of the class. *)
Inductive built : IOScheduler → Prop :=
  | built_init alg : built (IOScheduler_init alg)
  | built_set_algorithm alg s : built s → built (set_algorithm alg s)
  | built_add_operation id op s : built s → built (add_operation id op s)
  | built_get_next_operation id s : built s → built (get_next_operation id s).2.

(** The requests pending for a device. *)
Definition pending (id : Z) (s : IOScheduler) : list IOOperation :=
  match operation_queues s !! id with
  | Some q => queue_items q
  | None => []
  end.

(** The priorities of a sequence of requests do not increase. *)
Definition priority_non_increasing (ops : list IOOperation) : Prop :=
  StronglySorted (λ a b, (priority b ≤ priority a)%Z) ops.

(** The buffers of the pool are filled by the one allocation made when they
    are created. *)
Definition buffer_full (id : string) (b : Buffer) : Prop :=
  used_kb b = size_kb b
  ∧ data b = {[ id := (size_kb b, "Datos simulados para la operación " +:+ id) ]}.

Definition pool_exact (bm : BufferManager) : Prop :=
  used_buffer_kb bm = held (buffers bm) ∧ map_Forall buffer_full (buffers bm).

(** The device record with another status and [n] more errors counted. *)
Definition retouch (st : DeviceStatus) (n : Z) (d : DeviceControlBlock) :=
  mkDCB (device_id d) (device_name d) (device_type d) (capacity_gb d)
    (transfer_rate_mb_s d) st (current_position d) (error_count d + n)
    (operations_completed d) (bytes_transferred d) (last_operation_time d)
    (dcb_creation_time d).

(** A driver differs from another in the status and the error count of its
    device only, and the error count has not decreased. *)
Definition driver_retouched (d d' : Driver) : Prop :=
  ∃ st n, (0 ≤ n)%Z
    ∧ d' = mkDriver (driver_class d) (retouch st n (dcb d)) (operation_history d).

(** What is kept from a world to another when interrupts are handled. *)
Definition handlers_frame (w w' : World) : Prop :=
  buffer_manager w' = buffer_manager w
  ∧ clock w' = clock w
  ∧ ∀ self, option_Forall2 driver_retouched (store w !! self) (store w' !! self).

(** The number of entries of a history for an event name. *)
Definition count_entries (interrupt_type : string) (l : list InterruptInfo) : Z :=
  Z.of_nat (length (filter (λ info, info_type info = interrupt_type) l)).

(** From a table to a later one, the entries [extra] have been appended to
    the history and each counter has counted the entries of its name. *)
Definition counted (extra : list InterruptInfo) (t t' : InterruptTable) : Prop :=
  interrupt_history t' = interrupt_history t ++ extra
  ∧ ∀ name,
      match interrupt_stats t !! name with
      | Some st =>
          ∃ st', interrupt_stats t' !! name = Some st'
            ∧ count st' = (count st + count_entries name extra)%Z
      | None => interrupt_stats t' !! name = None
      end.

(** The sizes of a sequence of requests do not decrease. *)
Definition size_non_decreasing (ops : list IOOperation) : Prop :=
  StronglySorted (λ a b, (data_size_mb a <= data_size_mb b)%Q) ops.

(** The requests of a sequence are distinct objects. *)
Definition distinct_requests (ops : list IOOperation) : Prop :=
  NoDup (op_obj <$> ops).

(** The two worlds have the same driver objects. *)
Definition same_drivers (w w' : World) : Prop :=
  ∀ self, is_Some (store w' !! self) ↔ is_Some (store w !! self).

(** What every step of the engine keeps: the driver objects stay, the clock
    does not go back and the interrupt table is only extended. *)
Definition world_advances (w w' : World) : Prop :=
  same_drivers w w'
  ∧ (clock w <= clock w')%Q
  ∧ table_extends (interrupt_table w) (interrupt_table w').


(** The sum of a list of floats. *)
Definition Qsum (l : list Q) : Q := foldr Qplus 0%Q l.

(** The counters of the manager are those of its history: one record for
    every request processed, succeeded or failed as the record says, and the
    data of the successful ones. *)
Definition stats_track_history (m : IOManager) : Prop :=
  let done_ok := filter (λ r, rec_success r = true) (manager_history m) in
  let done_ko := filter (λ r, rec_success r = false) (manager_history m) in
  operations_processed (stats m) = Z.of_nat (length (manager_history m))
  ∧ operations_succeeded (stats m) = Z.of_nat (length done_ok)
  ∧ operations_failed (stats m) = Z.of_nat (length done_ko)
  ∧ (total_data_mb (stats m) == Qsum (rec_data_size_mb <$> done_ok))%Q.

(** What serving one request makes of the manager: the counters are updated,
    a record is appended to the history and every listener is called. *)
Definition manager_served (id : Z) (name : string) (op : IOOperation) (success : bool)
    (m : IOManager) : IOManager :=
  notify_listeners id op success
    (mkManager (running m) (update_stats success op (stats m))
       (manager_history m ++ [operation_record id name op success])
       (status_listeners m) (notifications m)).


(* ===================================================================== *)
(** * Part II. Properties                                                 *)
(* ===================================================================== *)

(** ** The buffer pool *)

Section BufferPool.
Implicit Types (bm : BufferManager) (id : string).

Lemma held_empty : held ∅ = 0%Z.
Proof. apply map_fold_empty. Qed.

Lemma held_insert_fresh (m : gmap string Buffer) id b :
  m !! id = None → held (<[id := b]> m) = (size_kb b + held m)%Z.
Proof.
  intros Hid. unfold held.
  rewrite map_fold_insert_L; [done | intros; lia | done].
Qed.

Lemma held_delete (m : gmap string Buffer) id b :
  m !! id = Some b → held m = (size_kb b + held (delete id m))%Z.
Proof.
  intros Hid. rewrite <- (insert_delete_id m id b Hid) at 1.
  apply held_insert_fresh, lookup_delete_eq.
Qed.

Lemma held_nonneg (m : gmap string Buffer) :
  map_Forall (λ _ b, 0 ≤ size_kb b)%Z m → (0 ≤ held m)%Z.
Proof.
  induction m as [|id b m Hid IH] using map_ind; intros Hall.
  - by rewrite held_empty.
  - rewrite held_insert_fresh by done.
    apply map_Forall_insert in Hall as [Hb Hm]; [|done].
    specialize (IH Hm). lia.
Qed.

Lemma py_int_nonneg (x : Q) : (0 <= x)%Q → (0 ≤ py_int x)%Z.
Proof.
  unfold Qle, py_int. simpl. intros Hx.
  apply Z.quot_pos; lia.
Qed.

Lemma pool_inv_init total : (0 ≤ total)%Z → pool_inv (BufferManager_init total).
Proof.
  intros Htotal. split; simpl.
  - apply map_Forall_empty.
  - rewrite held_empty. lia.
Qed.

Lemma pool_inv_allocate size_mb id bm :
  (0 <= size_mb)%Q → pool_inv bm → pool_inv (snd (allocate_buffer size_mb id bm)).
Proof.
  intros Hsize [Hall Hused]. unfold allocate_buffer.
  assert (0 ≤ py_int (size_mb * 1024))%Z as Hkb.
  { apply py_int_nonneg. apply Qmult_le_0_compat; [done | discriminate]. }
  destruct (Z.ltb_spec (total_buffer_size_kb bm)
              (used_buffer_kb bm + py_int (size_mb * 1024))); simpl; [done|].
  unfold Buffer_allocate, Buffer_init; simpl.
  rewrite Z.leb_refl; simpl. split.
  - apply map_Forall_insert_2; done.
  - simpl. destruct (buffers bm !! id) as [old|] eqn:Hold.
    + rewrite <- (insert_delete_eq (buffers bm)).
      rewrite held_insert_fresh by apply lookup_delete_eq. simpl.
      pose proof (held_delete _ _ _ Hold) as Hheld.
      pose proof (Hall _ _ Hold) as Hnonneg. simpl in Hnonneg. lia.
    + rewrite held_insert_fresh by done. simpl. lia.
Qed.

Lemma pool_inv_release id bm : pool_inv bm → pool_inv (snd (release_buffer id bm)).
Proof.
  intros [Hall Hused]. unfold release_buffer.
  destruct (buffers bm !! id) as [b|] eqn:Hb; simpl; [|done]. split; simpl.
  - by apply map_Forall_delete.
  - pose proof (held_delete _ _ _ Hb) as Hheld.
    pose proof (Hall _ _ Hb) as Hnonneg. simpl in Hnonneg. lia.
Qed.

Lemma pool_inv_run calls bm :
  Forall nonneg_call calls → pool_inv bm → pool_inv (pool_run calls bm).
Proof.
  unfold pool_run. intros Hcalls. revert bm.
  induction Hcalls as [|c calls Hc _ IH]; intros bm Hinv; simpl; [done|].
  apply IH. destruct c; simpl.
  - by apply pool_inv_allocate.
  - by apply pool_inv_release.
Qed.

Lemma pool_run_capacity calls bm :
  total_buffer_size_kb (pool_run calls bm) = total_buffer_size_kb bm.
Proof.
  unfold pool_run. revert bm.
  induction calls as [|c calls IH]; intros bm; simpl; [done|].
  rewrite IH. destruct c; simpl.
  - unfold allocate_buffer. by destruct (_ <? _)%Z.
  - unfold release_buffer. by destruct (_ !! _).
Qed.

Lemma pool_inv_used_nonneg bm : pool_inv bm → (0 ≤ used_buffer_kb bm)%Z.
Proof. intros [Hall Hused]. pose proof (held_nonneg _ Hall). lia. Qed.

Lemma usage_bounds bm :
  (0 ≤ used_buffer_kb bm ≤ total_buffer_size_kb bm)%Z →
  (0 <= get_buffer_usage bm)%Q ∧ (get_buffer_usage bm <= 100)%Q.
Proof.
  intros [Hlo Hhi]. unfold get_buffer_usage.
  destruct (Z.ltb_spec 0 (total_buffer_size_kb bm)) as [Hpos|Hnpos]; [|done].
  destruct (total_buffer_size_kb bm) as [|total|total]; try lia.
  unfold Qle, Qdiv, Qmult, Qinv, inject_Z; simpl. split; nia.
Qed.


(** C4 (as amended).  From a fresh pool of a capacity that is not negative,
    after every prefix of a sequence of allocate and release calls whose
    sizes are not negative, the reserved amount does not exceed the capacity
    and the usage percentage lies between 0 and 100; it is 0 for a pool of
    capacity 0. *)
Theorem pool_usage_invariant (total : Z) (calls : list PoolCall) (n : nat) :
  (0 ≤ total)%Z →
  Forall nonneg_call calls →
  let bm := pool_run (take n calls) (BufferManager_init total) in
  (used_buffer_kb bm ≤ total_buffer_size_kb bm)%Z
  ∧ total_buffer_size_kb bm = total
  ∧ (0 <= get_buffer_usage bm)%Q
  ∧ (get_buffer_usage bm <= 100)%Q
  ∧ (total = 0%Z → get_buffer_usage bm = 0%Q).
Proof.
  intros Htotal Hcalls bm.
  assert (pool_inv bm) as Hinv.
  { apply pool_inv_run; [by apply Forall_take | by apply pool_inv_init]. }
  assert (total_buffer_size_kb bm = total) as Hcap.
  { subst bm. by rewrite pool_run_capacity. }
  pose proof (pool_inv_used_nonneg _ Hinv) as Hlo.
  destruct Hinv as [_ Hused].
  destruct (usage_bounds bm) as [Hge Hle]; [lia|].
  repeat split; try done; try lia.
  intros ->. unfold get_buffer_usage. by rewrite Hcap.
Qed.

(** A run of the pool: three requests on a pool of 2048 KB. *)
Lemma pool_usage_invariant_witness :
  let calls := [Allocate 1 "a"; Allocate 1 "b"; Release "a"; Allocate 0.5 "c"] in
  let bm := pool_run (take 4 calls) (BufferManager_init 2048) in
  (used_buffer_kb bm ≤ total_buffer_size_kb bm)%Z
  ∧ total_buffer_size_kb bm = 2048%Z
  ∧ (0 <= get_buffer_usage bm)%Q
  ∧ (get_buffer_usage bm <= 100)%Q
  ∧ (2048%Z = 0%Z → get_buffer_usage bm = 0%Q).
Proof.
  apply (pool_usage_invariant 2048
           [Allocate 1 "a"; Allocate 1 "b"; Release "a"; Allocate 0.5 "c"] 4).
  - lia.
  - repeat (apply Forall_cons_2; [first [exact I | (unfold nonneg_call, Qle; simpl; lia)] |]).
    apply Forall_nil_2.
Defined.

(** C4 (counterexample).  [allocate_buffer] accepts a negative size, which
    lowers the reserved amount: on a fresh pool of 2048 KB, after
    [allocate(-1, "a")] the usage percentage is negative, and after
    [allocate(3, "b")] and [release("a")] the reserved amount, 3072 KB,
    exceeds the capacity.  A fresh pool of negative capacity reserves more
    than its capacity from the start. *)
Lemma pool_usage_invariant_counterexample :
  let calls := [Allocate (-1) "a"; Allocate 3 "b"; Release "a"] in
  let bm1 := pool_run (take 1 calls) (BufferManager_init 2048) in
  let bm3 := pool_run (take 3 calls) (BufferManager_init 2048) in
  let bm0 := pool_run (take 0 calls) (BufferManager_init (-1)) in
  (get_buffer_usage bm1 < 0)%Q
  ∧ used_buffer_kb bm3 = 3072%Z
  ∧ (total_buffer_size_kb bm3 < used_buffer_kb bm3)%Z
  ∧ (total_buffer_size_kb bm0 < used_buffer_kb bm0)%Z.
Proof. vm_compute. repeat split. Qed.

End BufferPool.

(** ** The interrupt table *)

Section Interrupts.
Implicit Types (w : World) (t : InterruptTable) (name : string)
  (args : list PyVal) (kwargs : gmap string PyVal).

Lemma table_extends_refl t : table_extends t t.
Proof. repeat split; [done | intros; lia]. Qed.

Lemma table_extends_trans t1 t2 t3 :
  table_extends t1 t2 → table_extends t2 t3 → table_extends t1 t3.
Proof.
  intros (Hh1 & Hp1 & Hc1) (Hh2 & Hp2 & Hc2). repeat split.
  - congruence.
  - by etrans.
  - intros name. specialize (Hc1 name). specialize (Hc2 name). lia.
Qed.

Lemma record_interrupt_handlers name args kwargs now t :
  interrupt_handlers (record_interrupt name args kwargs now t) = interrupt_handlers t.
Proof. unfold record_interrupt. by destruct (_ !! _). Qed.

Lemma record_interrupt_history name args kwargs now t :
  interrupt_history (record_interrupt name args kwargs now t)
  = interrupt_history t ++ [mkInterruptInfo name now args kwargs].
Proof. unfold record_interrupt. by destruct (_ !! _). Qed.

Lemma record_interrupt_count name name' args kwargs now t :
  count_of name' (record_interrupt name args kwargs now t)
  = if decide (name = name' ∧ is_Some (interrupt_stats t !! name))
    then (count_of name' t + 1)%Z else count_of name' t.
Proof.
  unfold record_interrupt, count_of.
  destruct (interrupt_stats t !! name) as [st|] eqn:Hst; simpl.
  - destruct (decide (name = name')) as [<-|Hne].
    + rewrite lookup_insert_eq, Hst. rewrite decide_True; [done | by eauto].
    + rewrite lookup_insert_ne by done. rewrite decide_False; [done|].
      by intros [? _].
  - rewrite decide_False; [done|]. intros [_ [? ?]]. congruence.
Qed.

Lemma record_interrupt_extends name args kwargs now t :
  table_extends t (record_interrupt name args kwargs now t).
Proof.
  repeat split.
  - apply record_interrupt_handlers.
  - rewrite record_interrupt_history. by apply prefix_app_r.
  - intros name'. rewrite record_interrupt_count. case_decide; lia.
Qed.

Lemma update_dcb_interrupt_table self f w :
  interrupt_table (update_dcb self f w) = interrupt_table w.
Proof. done. Qed.

Lemma update_dcb_lookup self f w :
  store (update_dcb self f w) !! self
  = (λ d, mkDriver (driver_class d) (f (dcb d)) (operation_history d)) <$> store w !! self.
Proof. unfold update_dcb. simpl. apply lookup_alter_eq. Qed.

(** Triggering extends the table when calling a handler does. *)
Lemma trigger_interrupt_with_extends call name args kwargs w :
  (∀ h a k w0,
     table_extends (interrupt_table w0) (interrupt_table (outcome_world (call h a k w0)))) →
  table_extends (interrupt_table w)
    (interrupt_table (trigger_interrupt_with call name args kwargs w)).
Proof.
  intros Hcall. unfold trigger_interrupt_with.
  set (w1 := set_interrupt_table _ w).
  assert (table_extends (interrupt_table w) (interrupt_table w1)) as Hrec
    by apply record_interrupt_extends.
  destruct (interrupt_handlers (interrupt_table w1) !! name) as [h|]; [|done].
  specialize (Hcall h args kwargs w1).
  destruct (call h args kwargs w1); simpl in Hcall;
    by eapply table_extends_trans.
Qed.

(** Whatever a handler does, it only extends the table. *)
Lemma call_handler_extends depth : ∀ h args kwargs w,
  table_extends (interrupt_table w)
    (interrupt_table (outcome_world (call_handler depth h args kwargs w))).
Proof.
  induction depth as [|depth IH]; intros h args kwargs w; simpl.
  - apply table_extends_refl.
  - destruct h; repeat case_match; simpl; try apply table_extends_refl.
    exact (trigger_interrupt_with_extends _ _ _ _
             (update_dcb self (set_status DESCONECTADO) w) IH).
Qed.

Lemma trigger_interrupt_extends depth name args kwargs w :
  table_extends (interrupt_table w)
    (interrupt_table (trigger_interrupt depth name args kwargs w)).
Proof. apply trigger_interrupt_with_extends, call_handler_extends. Qed.




End Interrupts.

(** ** The handlers of the character driver *)

Section CharacterDisconnect.
Implicit Types (w : World) (d : Driver).

Lemma binds_no_arguments : binds [] [] ∅ = true.
Proof.
  unfold binds. simpl. apply bool_decide_eq_true. by rewrite dom_empty_L.
Qed.

(** C2 (what the code does).  The handler [on_disconnect] of a character
    driver triggers the interrupt it is registered for, so each call of the
    handler makes a further call of the handler.  With [depth] nested handler
    calls left on the stack of the interpreter, one trigger of the disconnect
    interrupt appends [depth + 1] history entries, not two: the handler is
    re-entered until the stack is used up and the innermost call raises
    [RecursionError], which the innermost [trigger_interrupt] catches. *)
Theorem char_disconnect_retriggers_itself depth : ∀ self d w,
  store w !! self = Some d →
  interrupt_handlers (interrupt_table w)
    !! interrupt_name (device_name (dcb d)) "DISCONNECT"
  = Some (Char_on_disconnect self) →
  let name := interrupt_name (device_name (dcb d)) "DISCONNECT" in
  let w' := trigger_interrupt depth name [] ∅ w in
  interrupt_history (interrupt_table w')
  = interrupt_history (interrupt_table w)
    ++ replicate (S depth) (mkInterruptInfo name (clock w) [] ∅)
  ∧ status_of self w'
    = Some (match depth with O => status (dcb d) | S _ => DESCONECTADO end).
Proof.
  induction depth as [|depth IH]; intros self d w Hself Hhandler name w'.
  - subst w'. unfold trigger_interrupt, trigger_interrupt_with.
    set (w1 := set_interrupt_table _ w).
    replace (interrupt_handlers (interrupt_table w1) !! name)
      with (Some (Char_on_disconnect self))
      by (subst w1; simpl; by rewrite record_interrupt_handlers).
    cbn [call_handler]. split.
    + subst w1. cbn [interrupt_table set_interrupt_table].
      by rewrite record_interrupt_history.
    + unfold status_of. change (store w1 !! self) with (store w !! self).
      by rewrite Hself.
  - subst w'. unfold trigger_interrupt, trigger_interrupt_with.
    set (w1 := set_interrupt_table _ w).
    replace (interrupt_handlers (interrupt_table w1) !! name)
      with (Some (Char_on_disconnect self))
      by (subst w1; simpl; by rewrite record_interrupt_handlers).
    cbn [call_handler]. rewrite binds_no_arguments.
    change (store w1 !! self) with (store w !! self). rewrite Hself.
    set (w2 := update_dcb self (set_status DESCONECTADO) w1).
    set (d2 := mkDriver (driver_class d) (set_status DESCONECTADO (dcb d))
                 (operation_history d)).
    assert (store w2 !! self = Some d2) as Hself2.
    { subst w2. rewrite update_dcb_lookup.
      change (store w1 !! self) with (store w !! self). by rewrite Hself. }
    assert (interrupt_handlers (interrupt_table w2)
              !! interrupt_name (device_name (dcb d2)) "DISCONNECT"
            = Some (Char_on_disconnect self)) as Hhandler2.
    { subst w2 w1. simpl. by rewrite record_interrupt_handlers. }
    destruct (IH self d2 w2 Hself2 Hhandler2) as [Hhist Hstatus].
    change (interrupt_name (device_name (dcb d2)) "DISCONNECT") with name in *.
    unfold trigger_interrupt in Hhist, Hstatus. fold name.
    cbn [outcome_world]. split.
    + rewrite Hhist. subst w2 w1. simpl.
      rewrite record_interrupt_history. by rewrite <- app_assoc.
    + rewrite Hstatus. by destruct depth.
Qed.

(** The keyboard of the default configuration, its disconnect interrupt
    triggered with five nested handler calls left: six history entries. *)
Lemma char_disconnect_retriggers_itself_witness :
  let d := DeviceControlBlock_init 3 "Teclado" CARACTER 0 0.1 0 in
  let w :=
    CharacterDeviceDriver_init 1 d
      (mkWorld ∅ InterruptTable_init (BufferManager_init 2048) 0) in
  let w' := trigger_interrupt 5 "TECLADO_DISCONNECT" [] ∅ w in
  length (interrupt_history (interrupt_table w')) = 6
  ∧ status_of 1 w' = Some DESCONECTADO.
Proof.
  intros d w w'.
  destruct (char_disconnect_retriggers_itself 5 1
              (mkDriver CharacterDeviceDriver d []) w) as [Hhist Hstatus].
  - reflexivity.
  - reflexivity.
  - subst w'. split.
    + change "TECLADO_DISCONNECT"
        with (interrupt_name (device_name (dcb (mkDriver CharacterDeviceDriver d [])))
                "DISCONNECT").
      rewrite Hhist. reflexivity.
    + exact Hstatus.
Defined.

End CharacterDisconnect.

(** ** The drivers *)

Section Drivers.
Implicit Types (w : World) (d : Driver) (op : IOOperation).

Lemma append_history_lookup self op w :
  store (append_history self op w) !! self
  = (λ d, mkDriver (driver_class d) (dcb d) (operation_history d ++ [op_obj op]))
      <$> store w !! self.
Proof. unfold append_history. simpl. apply lookup_alter_eq. Qed.

Lemma base_perform_not_connected self d op w :
  store w !! self = Some d → status (dcb d) ≠ CONECTADO →
  DeviceDriver_perform_operation self op w = Some (false, op, w).
Proof.
  intros Hself Hstatus. unfold DeviceDriver_perform_operation.
  rewrite Hself. simpl. by rewrite decide_True.
Qed.

Lemma base_perform_connected self d op w :
  store w !! self = Some d → status (dcb d) = CONECTADO →
  DeviceDriver_perform_operation self op w
  = Some (true, mark_started (clock w) op,
          append_history self (mark_started (clock w) op) w).
Proof.
  intros Hself Hstatus. unfold DeviceDriver_perform_operation.
  rewrite Hself. simpl. rewrite decide_False; [done|]. by intros [].
Qed.

(** When the check of the base class rejects the request, so does the
    method of every class. *)
Lemma perform_operation_rejected depth rnd self d op w :
  store w !! self = Some d →
  DeviceDriver_perform_operation self op w = Some (false, op, w) →
  perform_operation depth rnd self op w = Some (false, op, w).
Proof.
  intros Hself Hbase. unfold perform_operation. rewrite Hself. simpl.
  destruct (driver_class d).
  - done.
  - unfold Block_perform_operation. by rewrite Hbase.
  - unfold Char_perform_operation. by rewrite Hbase.
Qed.

(** C8.  When the device of a driver is not connected, [perform_operation]
    returns false and neither the world (device record, history of the
    driver, buffer pool, interrupt table, clock) nor the request (status,
    start time) has changed. *)
Theorem perform_operation_not_connected depth rnd self d op w :
  store w !! self = Some d →
  status (dcb d) ≠ CONECTADO →
  perform_operation depth rnd self op w = Some (false, op, w).
Proof.
  intros Hself Hstatus.
  apply (perform_operation_rejected depth rnd self d op w Hself).
  by apply (base_perform_not_connected self d).
Qed.

(** A block driver that has just been created is disconnected: the request
    is rejected and nothing has changed. *)
Lemma perform_operation_not_connected_witness :
  let d := DeviceControlBlock_init 1 "Unidad USB" BLOQUE 128 30 0 in
  let w :=
    BlockDeviceDriver_init 1 d
      (mkWorld ∅ InterruptTable_init (BufferManager_init 2048) 0) in
  let op := IOOperation_init 0 "a1b2c3d4" LECTURA 10 "ProcesoPrueba" 5 None 0 in
  perform_operation 10 (mkRand 0.5 1) 1 op w = Some (false, op, w).
Proof.
  intros d w op.
  apply (perform_operation_not_connected 10 (mkRand 0.5 1) 1
           (mkDriver BlockDeviceDriver d []) op w).
  - reflexivity.
  - simpl. discriminate.
Defined.

(** Triggering a name without a handler only records the interrupt. *)
Lemma trigger_interrupt_no_handler depth name args kwargs w :
  interrupt_handlers (interrupt_table w) !! name = None →
  trigger_interrupt depth name args kwargs w
  = set_interrupt_table
      (record_interrupt name args kwargs (clock w) (interrupt_table w)) w.
Proof.
  intros Hnone. unfold trigger_interrupt, trigger_interrupt_with. simpl.
  by rewrite record_interrupt_handlers, Hnone.
Qed.

(** [complete_operation] with [success = False], when no handler is
    registered for the completion interrupt of the device. *)
Lemma complete_operation_failure depth self d op w :
  store w !! self = Some d →
  interrupt_handlers (interrupt_table w)
    !! interrupt_name (device_name (dcb d)) "OPERATION_COMPLETED" = None →
  ∃ w', complete_operation depth self op false w
        = Some (mark_completed (clock w) false op, w')
    ∧ store w' !! self
      = Some (mkDriver (driver_class d) (incr_error_count (dcb d)) (operation_history d))
    ∧ buffers (buffer_manager w') !! operation_id op = None
    ∧ interrupt_handlers (interrupt_table w') = interrupt_handlers (interrupt_table w).
Proof.
  intros Hself Hnone. unfold complete_operation. rewrite Hself. simpl.
  rewrite trigger_interrupt_no_handler by done.
  eexists. split; [done|]. simpl. repeat split.
  - rewrite lookup_alter_eq. by rewrite Hself.
  - unfold release_buffer.
    destruct (buffers (buffer_manager w) !! operation_id op) eqn:Hbuf; simpl.
    + apply lookup_delete_eq.
    + done.
  - by rewrite record_interrupt_handlers.
Qed.

Lemma allocate_buffer_refused size_mb id bm :
  (total_buffer_size_kb bm < used_buffer_kb bm + py_int (size_mb * 1024))%Z →
  allocate_buffer size_mb id bm = (false, bm).
Proof.
  intros Hfull. unfold allocate_buffer.
  by destruct (Z.ltb_spec (total_buffer_size_kb bm)
                 (used_buffer_kb bm + py_int (size_mb * 1024))); [|lia].
Qed.

Lemma allocate_buffer_granted size_mb id bm :
  (used_buffer_kb bm + py_int (size_mb * 1024) ≤ total_buffer_size_kb bm)%Z →
  fst (allocate_buffer size_mb id bm) = true.
Proof.
  intros Hfits. unfold allocate_buffer.
  by destruct (Z.ltb_spec (total_buffer_size_kb bm)
                 (used_buffer_kb bm + py_int (size_mb * 1024))); [lia|].
Qed.

(** C1 (what the code does).  When the pool refuses the buffer of a request,
    [BlockDeviceDriver.perform_operation] completes the request as failed and
    returns false from inside the [try] block: the request is failed, it
    holds no buffer and the error count has been incremented, but the status
    of the device is still the busy one set at the start, not the error
    status that the [except] branch sets. *)
Theorem block_perform_refused_buffer_leaves_busy depth rnd self d op w :
  store w !! self = Some d →
  driver_class d = BlockDeviceDriver →
  status (dcb d) = CONECTADO →
  interrupt_handlers (interrupt_table w)
    !! interrupt_name (device_name (dcb d)) "OPERATION_COMPLETED" = None →
  (total_buffer_size_kb (buffer_manager w)
   < used_buffer_kb (buffer_manager w) + py_int (data_size_mb op * 1024))%Z →
  ∃ op' w',
    perform_operation depth rnd self op w = Some (false, op', w')
    ∧ op_status op' = "FALLIDA"
    ∧ buffers (buffer_manager w') !! operation_id op = None
    ∧ error_count_of self w' = Some (error_count (dcb d) + 1)%Z
    ∧ status_of self w' = Some OCUPADO.
Proof.
  intros Hself Hclass Hstatus Hnone Hfull.
  unfold perform_operation. rewrite Hself. simpl. rewrite Hclass.
  unfold Block_perform_operation.
  rewrite (base_perform_connected self d op w Hself Hstatus). simpl.
  set (op1 := mark_started (clock w) op).
  set (w2 := update_dcb self (set_status OCUPADO) (append_history self op1 w)).
  rewrite (allocate_buffer_refused (data_size_mb op) (operation_id op)
             (buffer_manager w) Hfull). simpl.
  set (d3 := mkDriver (driver_class d) (set_status OCUPADO (dcb d))
               (operation_history d ++ [op_obj op1])).
  destruct (complete_operation_failure depth self d3 op1
              (set_buffer_manager (buffer_manager w) w2))
    as (w' & Hcomplete & Hself' & Hbuffer & _).
  { subst w2. simpl. rewrite lookup_alter_eq, lookup_alter_eq. by rewrite Hself. }
  { done. }
  rewrite Hcomplete. simpl. eexists _, w'. split; [done|].
  repeat split; try done.
  - unfold error_count_of. by rewrite Hself'.
  - unfold status_of. by rewrite Hself'.
Qed.

(** The run of [test_core_functionality]: a pool of 2048 KB, the block device
    "Unidad USB" connected through its interrupt, and one read of 10 MB.  The
    pool refuses the 10240 KB, and the device is left busy. *)
Lemma block_perform_refused_buffer_leaves_busy_witness :
  let d := DeviceControlBlock_init 1 "Unidad USB" BLOQUE 128 30 0 in
  let w0 :=
    BlockDeviceDriver_init 1 d
      (mkWorld ∅ InterruptTable_init (BufferManager_init 2048) 0) in
  let w := trigger_interrupt 10 "UNIDAD_USB_CONNECT" [] ∅ w0 in
  let op := IOOperation_init 0 "a1b2c3d4" LECTURA 10 "ProcesoPrueba" 5 None 0 in
  ∃ op' w',
    perform_operation 10 (mkRand 0.5 1) 1 op w = Some (false, op', w')
    ∧ op_status op' = "FALLIDA"
    ∧ status_of 1 w' = Some OCUPADO.
Proof.
  intros d w0 w op.
  destruct (block_perform_refused_buffer_leaves_busy 10 (mkRand 0.5 1) 1
              (mkDriver BlockDeviceDriver (set_status CONECTADO d) []) op w)
    as (op' & w' & Hperform & Hop' & _ & _ & Hstatus).
  - reflexivity.
  - reflexivity.
  - reflexivity.
  - reflexivity.
  - vm_compute. reflexivity.
  - exists op', w'. by repeat split.
Defined.

(** The same run on a pool of 20 MB: the request completes, the device is
    connected again and the buffer has been released. *)
Example block_perform_completes :
  let d := DeviceControlBlock_init 1 "Unidad USB" BLOQUE 128 30 0 in
  let w0 :=
    BlockDeviceDriver_init 1 d
      (mkWorld ∅ InterruptTable_init (BufferManager_init 20480) 0) in
  let w := trigger_interrupt 10 "UNIDAD_USB_CONNECT" [] ∅ w0 in
  let op := IOOperation_init 0 "a1b2c3d4" LECTURA 10 "ProcesoPrueba" 5 None 0 in
  ∃ op' w',
    perform_operation 10 (mkRand 0.5 1) 1 op w = Some (true, op', w')
    ∧ op_status op' = "COMPLETADA"
    ∧ status_of 1 w' = Some CONECTADO
    ∧ (λ d, operations_completed (dcb d)) <$> store w' !! 1 = Some 1%Z
    ∧ used_buffer_kb (buffer_manager w') = 0%Z
    ∧ (info_type <$> interrupt_history (interrupt_table w'))
      = ["UNIDAD_USB_CONNECT"; "UNIDAD_USB_OPERATION_COMPLETED"].
Proof. eexists _, _. split; [vm_compute; reflexivity|]. by vm_compute. Qed.

(** The same run again with a draw below 0.05: the simulated fault leaves the
    request failed and the device in error. *)
Example block_perform_fault :
  let d := DeviceControlBlock_init 1 "Unidad USB" BLOQUE 128 30 0 in
  let w0 :=
    BlockDeviceDriver_init 1 d
      (mkWorld ∅ InterruptTable_init (BufferManager_init 20480) 0) in
  let w := trigger_interrupt 10 "UNIDAD_USB_CONNECT" [] ∅ w0 in
  let op := IOOperation_init 0 "a1b2c3d4" LECTURA 10 "ProcesoPrueba" 5 None 0 in
  ∃ op' w',
    perform_operation 10 (mkRand 0.01 1) 1 op w = Some (false, op', w')
    ∧ op_status op' = "FALLIDA"
    ∧ status_of 1 w' = Some ERROR
    ∧ error_count_of 1 w' = Some 1%Z
    ∧ used_buffer_kb (buffer_manager w') = 0%Z.
Proof. eexists _, _. split; [vm_compute; reflexivity|]. by vm_compute. Qed.

(** The other failure paths do reach the error status. *)

Lemma py_sleep_frame q w :
  store (outcome_world (py_sleep q w)) = store w
  ∧ interrupt_table (outcome_world (py_sleep q w)) = interrupt_table w
  ∧ buffer_manager (outcome_world (py_sleep q w)) = buffer_manager w.
Proof. unfold py_sleep. by destruct (Qle_bool 0 q). Qed.

Lemma and_then_raise_world r e :
  outcome_world (and_then r (λ w', Raised e w')) = outcome_world r.
Proof. by destruct r. Qed.

Lemma Block_transfer_frame rnd self op w :
  store (outcome_world (Block_transfer rnd self op w)) = store w
  ∧ interrupt_table (outcome_world (Block_transfer rnd self op w)) = interrupt_table w
  ∧ buffer_manager (outcome_world (Block_transfer rnd self op w)) = buffer_manager w.
Proof.
  unfold Block_transfer. repeat case_match; simpl; try done.
  - rewrite and_then_raise_world. apply py_sleep_frame.
  - apply py_sleep_frame.
Qed.

Lemma Char_transfer_frame rnd self op w :
  store (outcome_world (Char_transfer rnd self op w)) = store w
  ∧ interrupt_table (outcome_world (Char_transfer rnd self op w)) = interrupt_table w
  ∧ buffer_manager (outcome_world (Char_transfer rnd self op w)) = buffer_manager w.
Proof.
  unfold Char_transfer. repeat case_match; simpl; try done.
  - rewrite and_then_raise_world. apply py_sleep_frame.
  - apply py_sleep_frame.
Qed.

Lemma Block_try_frame rnd self d op w :
  store w !! self = Some d →
  let w4 := outcome_world (and_then (Block_seek self op w) (Block_transfer rnd self op)) in
  (∃ p, store w4 !! self
        = Some (mkDriver (driver_class d) (set_current_position p (dcb d))
                  (operation_history d)))
  ∧ interrupt_table w4 = interrupt_table w
  ∧ buffer_manager w4 = buffer_manager w.
Proof.
  intros Hself w4. subst w4. unfold Block_seek.
  destruct (block_address op) as [addr|]; [rewrite Hself|]; simpl.
  - set (w1 := update_dcb self (set_current_position addr) w).
    assert (store w1 !! self
            = Some (mkDriver (driver_class d) (set_current_position addr (dcb d))
                      (operation_history d))) as Hself1.
    { subst w1. rewrite update_dcb_lookup. by rewrite Hself. }
    destruct (py_sleep_frame (inject_Z (Z.abs (current_position (dcb d) - addr)) * 0.001) w1)
      as (Hh & Ht & Hb).
    destruct (py_sleep _ w1) as [w2|e w2]; simpl in *.
    + destruct (Block_transfer_frame rnd self op w2) as (Hh' & Ht' & Hb').
      rewrite Hh', Ht', Hb', Hh, Ht, Hb. split; [by exists addr | done].
    + rewrite Hh, Ht, Hb. split; [by exists addr | done].
  - destruct (Block_transfer_frame rnd self op w) as (Hh' & Ht' & Hb').
    rewrite Hh', Ht', Hb'. split; [|done].
    exists (current_position (dcb d)). rewrite Hself. by destruct d as [? []].
Qed.

(** A failure after the buffer has been granted (a simulated fault, a zero
    transfer rate, a negative wait) leaves the request failed, without
    buffer, the error count incremented and the device in error. *)
Lemma block_perform_fault_sets_error depth rnd self d op w op' w' :
  store w !! self = Some d →
  driver_class d = BlockDeviceDriver →
  status (dcb d) = CONECTADO →
  interrupt_handlers (interrupt_table w)
    !! interrupt_name (device_name (dcb d)) "OPERATION_COMPLETED" = None →
  (used_buffer_kb (buffer_manager w) + py_int (data_size_mb op * 1024)
   ≤ total_buffer_size_kb (buffer_manager w))%Z →
  perform_operation depth rnd self op w = Some (false, op', w') →
  op_status op' = "FALLIDA"
  ∧ buffers (buffer_manager w') !! operation_id op = None
  ∧ error_count_of self w' = Some (error_count (dcb d) + 1)%Z
  ∧ status_of self w' = Some ERROR.
Proof.
  intros Hself Hclass Hstatus Hnone Hfits.
  unfold perform_operation. rewrite Hself. simpl. rewrite Hclass.
  unfold Block_perform_operation.
  rewrite (base_perform_connected self d op w Hself Hstatus). simpl.
  set (op1 := mark_started (clock w) op).
  set (w2 := update_dcb self (set_status OCUPADO) (append_history self op1 w)).
  rewrite (allocate_buffer_granted (data_size_mb op) (operation_id op)
             (buffer_manager w) Hfits). simpl.
  set (w3 := set_buffer_manager _ w2).
  set (d3 := mkDriver (driver_class d) (set_status OCUPADO (dcb d))
               (operation_history d ++ [op_obj op1])).
  assert (store w3 !! self = Some d3) as Hself3.
  { subst w3 w2. simpl. rewrite lookup_alter_eq, lookup_alter_eq. by rewrite Hself. }
  destruct (Block_try_frame rnd self d3 op1 w3 Hself3) as ((p & Hself4) & Htable4 & _).
  destruct (and_then (Block_seek self op1 w3) (Block_transfer rnd self op1))
    as [w4|e w4]; simpl in Hself4, Htable4.
  - destruct (complete_operation depth self op1 true w4) as [[? ?]|]; simpl; [|done].
    intros [=].
  - destruct (complete_operation_failure depth self _ op1 w4 Hself4)
      as (w5 & Hcomplete & Hself5 & Hbuffer & _).
    { by rewrite Htable4. }
    rewrite Hcomplete. simpl. intros [= <- <-]. repeat split; try done.
    + unfold error_count_of. rewrite update_dcb_lookup, Hself5. done.
    + unfold status_of. rewrite update_dcb_lookup, Hself5. done.
Qed.

(** A failure of the character driver leaves the request failed, without
    buffer, the error count incremented and the device in error. *)
Lemma char_perform_fault_sets_error depth rnd self d op w op' w' :
  store w !! self = Some d →
  driver_class d = CharacterDeviceDriver →
  status (dcb d) = CONECTADO →
  interrupt_handlers (interrupt_table w)
    !! interrupt_name (device_name (dcb d)) "OPERATION_COMPLETED" = None →
  interrupt_handlers (interrupt_table w)
    !! interrupt_name (device_name (dcb d)) "ERROR" = None →
  perform_operation depth rnd self op w = Some (false, op', w') →
  op_status op' = "FALLIDA"
  ∧ buffers (buffer_manager w') !! operation_id op = None
  ∧ error_count_of self w' = Some (error_count (dcb d) + 1)%Z
  ∧ status_of self w' = Some ERROR.
Proof.
  intros Hself Hclass Hstatus Hnone Hnone_error.
  unfold perform_operation. rewrite Hself. simpl. rewrite Hclass.
  unfold Char_perform_operation.
  rewrite (base_perform_connected self d op w Hself Hstatus). simpl.
  set (op1 := mark_started (clock w) op).
  rewrite lookup_alter_eq, Hself. simpl.
  set (w2 := update_dcb self (set_status OCUPADO) (append_history self op1 w)).
  set (d2 := mkDriver (driver_class d) (set_status OCUPADO (dcb d))
               (operation_history d ++ [op_obj op1])).
  assert (store w2 !! self = Some d2) as Hself2.
  { subst w2. simpl. rewrite lookup_alter_eq, lookup_alter_eq. by rewrite Hself. }
  destruct (Char_transfer_frame rnd self op1 w2) as (Hheap3 & Htable3 & _).
  destruct (Char_transfer rnd self op1 w2) as [w3|e w3]; simpl in Hheap3, Htable3.
  - destruct (complete_operation depth self op1 true w3) as [[? ?]|]; simpl; [|done].
    intros [=].
  - destruct (complete_operation_failure depth self d2 op1 w3)
      as (w4 & Hcomplete & Hself4 & Hbuffer & Hhandlers4).
    { by rewrite Hheap3. }
    { by rewrite Htable3. }
    rewrite Hcomplete. simpl.
    rewrite trigger_interrupt_no_handler
      by (simpl; by rewrite Hhandlers4, Htable3).
    intros [= <- <-]. simpl. repeat split; try done.
    + unfold error_count_of. simpl. rewrite lookup_alter_eq, Hself4. done.
    + unfold status_of. simpl. rewrite lookup_alter_eq, Hself4. done.
Qed.

End Drivers.

(** ** The binary heap of the priority queues *)

Section Heapq.
Implicit Types (h heap : list IOOperation) (x y item : IOOperation) (i pos : nat).

Lemma parent_spec i : 0 < i → 2 * parent i + 1 = i ∨ 2 * parent i + 2 = i.
Proof.
  intros Hi. unfold parent.
  pose proof (Nat.div_mod_eq (i - 1) 2) as Hdiv.
  pose proof (Nat.mod_upper_bound (i - 1) 2) as Hmod. lia.
Qed.

Lemma parent_lt i : 0 < i → parent i < i.
Proof. intros Hi. pose proof (parent_spec i Hi). lia. Qed.

Lemma op_lt_trans x y z : op_lt x y = false → op_lt y z = false → op_lt x z = false.
Proof. unfold op_lt. lia. Qed.

Lemma op_lt_irrefl x : op_lt x x = false.
Proof. unfold op_lt. lia. Qed.

Lemma op_lt_asym x y : op_lt x y = true → op_lt y x = false.
Proof. unfold op_lt. lia. Qed.

(** Reading an array after a store. *)
Lemma lookup_store h i j x y :
  <[j := x]> h !! i = Some y →
  (i = j ∧ y = x ∧ j < length h) ∨ (i ≠ j ∧ h !! i = Some y).
Proof.
  rewrite list_lookup_insert. case_decide as Hij.
  - intros [= <-]. left. by destruct Hij as [-> ?].
  - intros Hy. destruct (decide (i = j)) as [->|Hne]; [|by right].
    apply lookup_lt_Some in Hy. lia.
Qed.

(** Storing the item at the hole of an array that is in order around the
    hole gives a heap, when the item fits between the parent and the
    children of the hole. *)
Lemma store_at_hole h pos x :
  hole_ok h pos →
  below_children h pos x →
  (0 < pos → ∀ p, h !! parent pos = Some p → op_lt x p = false) →
  heap_ok (<[pos := x]> h).
Proof.
  intros [Hpairs Hacross] Hchildren Hparent i c p Hi Hc Hp.
  pose proof (parent_lt i Hi) as Hlt.
  apply lookup_store in Hc as [(-> & -> & Hlen)|[Hne Hc]];
    apply lookup_store in Hp as [(Heq & -> & Hlen')|[Hne' Hp]]; try lia.
  - by apply (Hparent Hi p).
  - by apply (Hchildren i c).
  - by apply (Hpairs i c p).
Qed.

Lemma hole_ok_store_hole h pos x : hole_ok h pos → hole_ok (<[pos := x]> h) pos.
Proof.
  intros [Hpairs Hacross]. split.
  - intros i c p Hi Hne Hne' Hc Hp.
    rewrite list_lookup_insert_ne in Hc by lia.
    rewrite list_lookup_insert_ne in Hp by lia. by apply (Hpairs i c p).
  - intros i c g Hi Hpos Hpar Hc Hg.
    pose proof (parent_lt i Hi). pose proof (parent_lt pos Hpos).
    rewrite list_lookup_insert_ne in Hc by lia.
    rewrite list_lookup_insert_ne in Hg by lia. by apply (Hacross i c g).
Qed.

(** Moving the parent into the hole moves the hole to the parent. *)
Lemma hole_moves_up h pos p x :
  0 < pos →
  hole_ok h pos →
  below_children h pos x →
  h !! parent pos = Some p →
  op_lt x p = true →
  hole_ok (<[pos := p]> h) (parent pos)
  ∧ below_children (<[pos := p]> h) (parent pos) x.
Proof.
  intros Hpos [Hpairs Hacross] Hchildren Hp Hlt.
  pose proof (parent_lt pos Hpos) as Hppos.
  split; [split|].
  - intros i c q Hi Hne Hne' Hc Hq.
    pose proof (parent_lt i Hi) as Hlti.
    apply lookup_store in Hc as [(-> & -> & Hlen)|[Hnei Hc]]; [done|].
    apply lookup_store in Hq as [(Heq & -> & Hlen)|[Hneq Hq]].
    + by apply (Hacross i c p).
    + by apply (Hpairs i c q).
  - intros i c g Hi Hpp Hpar Hc Hg.
    pose proof (parent_lt (parent pos) Hpp) as Hgpos.
    rewrite list_lookup_insert_ne in Hg by lia.
    assert (op_lt p g = false) as Hpg by (apply (Hpairs (parent pos) p g); lia || done).
    apply lookup_store in Hc as [(-> & -> & Hlen)|[Hnei Hc]]; [done|].
    eapply op_lt_trans; [|exact Hpg].
    apply (Hpairs i c p); try done; [lia | by rewrite Hpar].
  - intros i c Hi Hpar Hc.
    apply lookup_store in Hc as [(-> & -> & Hlen)|[Hnei Hc]].
    + by apply op_lt_asym.
    + eapply op_lt_trans; [|by apply op_lt_asym].
      apply (Hpairs i c p); try done; [lia | by rewrite Hpar].
Qed.

Lemma siftdown_loop_ok fuel : ∀ h pos x,
  pos ≤ fuel →
  hole_ok h pos →
  below_children h pos x →
  heap_ok (siftdown_loop fuel h 0 pos x).
Proof.
  induction fuel as [|fuel IH]; intros h pos x Hfuel Hhole Hchildren; simpl.
  - apply store_at_hole; try done. lia.
  - case_decide as Hpos; [|apply store_at_hole; try done; lia].
    destruct (h !! parent pos) as [p|] eqn:Hp;
      [|apply store_at_hole; try done; intros _ q Hq; congruence].
    destruct (op_lt x p) eqn:Hlt.
    + destruct (hole_moves_up h pos p x) as [Hhole' Hchildren']; try done.
      apply IH; try done. pose proof (parent_lt pos Hpos). lia.
    + apply store_at_hole; try done. intros _ q Hq. congruence.
Qed.

Lemma siftdown_loop_perm fuel : ∀ h pos x,
  pos < length h →
  siftdown_loop fuel h 0 pos x ≡ₚ <[pos := x]> h.
Proof.
  induction fuel as [|fuel IH]; intros h pos x Hlen; simpl; [done|].
  case_decide as Hpos; [|done].
  destruct (h !! parent pos) as [p|] eqn:Hp; [|done].
  destruct (op_lt x p); [|done].
  pose proof (parent_lt pos Hpos) as Hppos.
  rewrite IH by (rewrite length_insert; lia).
  rewrite <- (Permutation_insert_swap (<[pos := x]> h) pos (parent pos) x p).
  - by rewrite list_insert_insert_eq.
  - by apply list_lookup_insert_eq.
  - by rewrite list_lookup_insert_ne by lia.
Qed.

(** Moving a least child into the hole moves the hole to that child. *)
Lemma hole_moves_down h pos cp child :
  hole_ok h pos →
  0 < cp →
  parent cp = pos →
  h !! cp = Some child →
  (∀ i c, 0 < i → parent i = pos → h !! i = Some c → op_lt c child = false) →
  hole_ok (<[pos := child]> h) cp.
Proof.
  intros [Hpairs Hacross] Hcp Hpar Hchild Hleast.
  pose proof (parent_lt cp Hcp) as Hlt. split.
  - intros i c p Hi Hne Hne' Hc Hp.
    pose proof (parent_lt i Hi) as Hlti.
    apply lookup_store in Hc as [(-> & -> & Hlen)|[Hnei Hc]];
      apply lookup_store in Hp as [(Heq & -> & Hlen')|[Hnep Hp]]; try lia.
    + by apply (Hacross cp child p).
    + by apply (Hleast i c).
    + by apply (Hpairs i c p).
  - intros i c g Hi _ Hpari Hc Hg.
    pose proof (parent_lt i Hi) as Hlti.
    rewrite Hpar in Hg. rewrite list_lookup_insert_ne in Hc by lia.
    apply lookup_store in Hg as [(_ & -> & Hlen)|[Hneg _]]; [|done].
    apply (Hpairs i c child); try done; [lia | lia | by rewrite Hpari].
Qed.

Lemma siftup_loop_spec fuel : ∀ h pos h' pos',
  pos < length h →
  siftup_loop fuel h pos = (h', pos') →
  (hole_ok h pos → hole_ok h' pos')
  ∧ pos' < length h'
  ∧ (length h ≤ pos + fuel → length h' ≤ 2 * pos' + 1)
  ∧ ∀ x, <[pos' := x]> h' ≡ₚ <[pos := x]> h.
Proof.
  induction fuel as [|fuel IH]; intros h pos h' pos' Hlen; cbn [siftup_loop].
  - intros [= <- <-]. split; [done|]. split; [done|]. split; [lia | done].
  - case_decide as Hchild;
      [|intros [= <- <-]; split; [done|]; split; [done|]; split; [lia | done]].
    set (cp := match h !! (2 * pos + 1), h !! (2 * pos + 1 + 1) with
               | Some child, Some rchild =>
                   if negb (op_lt child rchild) then 2 * pos + 1 + 1 else 2 * pos + 1
               | _, _ => 2 * pos + 1
               end).
    destruct (lookup_lt_is_Some_2 h (2 * pos + 1) Hchild) as [lc Hlc].
    assert (∃ child, h !! cp = Some child
              ∧ (cp = 2 * pos + 1 ∨ cp = 2 * pos + 2)
              ∧ ∀ i c, 0 < i → parent i = pos → h !! i = Some c → op_lt c child = false)
      as (child & Hcp & Hcases & Hleast).
    { subst cp. rewrite Hlc.
      destruct (h !! (2 * pos + 1 + 1)) as [rc|] eqn:Hrc.
      - destruct (op_lt lc rc) eqn:Hlr; simpl.
        + exists lc. split; [done|]. split; [by left|].
          intros i c Hi Hpar Hc. pose proof (parent_spec i Hi).
          assert (i = 2 * pos + 1 ∨ i = 2 * pos + 1 + 1) as [->| ->] by lia.
          * rewrite Hlc in Hc. injection Hc as <-. apply op_lt_irrefl.
          * rewrite Hrc in Hc. injection Hc as <-. by apply op_lt_asym.
        + exists rc. split; [done|]. split; [right; lia|].
          intros i c Hi Hpar Hc. pose proof (parent_spec i Hi).
          assert (i = 2 * pos + 1 ∨ i = 2 * pos + 1 + 1) as [->| ->] by lia.
          * rewrite Hlc in Hc. by injection Hc as <-.
          * rewrite Hrc in Hc. injection Hc as <-. apply op_lt_irrefl.
      - exists lc. split; [done|]. split; [by left|].
        intros i c Hi Hpar Hc. pose proof (parent_spec i Hi).
        assert (i = 2 * pos + 1 ∨ i = 2 * pos + 1 + 1) as [->| ->] by lia.
        + rewrite Hlc in Hc. injection Hc as <-. apply op_lt_irrefl.
        + congruence. }
    rewrite Hcp. intros Hloop.
    assert (0 < cp ∧ parent cp = pos) as [Hcp0 Hpar].
    { split; [lia|]. pose proof (parent_spec cp). lia. }
    pose proof (lookup_lt_Some _ _ _ Hcp) as Hcplen.
    destruct (IH (<[pos := child]> h) cp h' pos') as (Hhole' & Hlen' & Hleaf & Hperm);
      try done.
    { by rewrite length_insert. }
    rewrite length_insert in Hleaf.
    split; [|split; [done|split]].
    + intros Hhole. by apply Hhole', hole_moves_down.
    + intros Hfuel. apply Hleaf. lia.
    + intros x. rewrite Hperm.
      etrans; [|apply (Permutation_insert_swap (<[pos := x]> h) pos cp x child)].
      * by rewrite list_insert_insert_eq.
      * by apply list_lookup_insert_eq.
      * by rewrite list_lookup_insert_ne by lia.
Qed.

Lemma siftup_root h :
  h ≠ [] → siftup h 0 ≡ₚ h ∧ (hole_ok h 0 → heap_ok (siftup h 0)).
Proof.
  intros Hne. unfold siftup.
  assert (0 < length h) as Hlen by (destruct h; [done | simpl; lia]).
  destruct (lookup_lt_is_Some_2 h 0 Hlen) as [newitem Hroot]. rewrite Hroot.
  destruct (siftup_loop (length h) h 0) as [h' pos'] eqn:Hloop.
  destruct (siftup_loop_spec _ _ _ _ _ Hlen Hloop)
    as (Hhole' & Hlen' & Hleaf & Hperm).
  specialize (Hleaf ltac:(lia)).
  unfold siftdown. rewrite list_lookup_insert_eq by done. split.
  - rewrite siftdown_loop_perm by (by rewrite length_insert).
    rewrite list_insert_insert_eq, Hperm. by rewrite list_insert_id.
  - intros Hhole.
    apply siftdown_loop_ok; [done | by apply hole_ok_store_hole, Hhole' |].
    intros i c Hi Hpar Hc. apply lookup_lt_Some in Hc.
    rewrite length_insert in Hc. pose proof (parent_spec i Hi). lia.
Qed.

Lemma heap_ok_nil : heap_ok [].
Proof. by intros i c p _ Hc. Qed.

Lemma heappush_spec h x :
  heappush h x ≡ₚ x :: h ∧ (heap_ok h → heap_ok (heappush h x)).
Proof.
  unfold heappush, siftdown.
  replace (length (h ++ [x]) - 1) with (length h) by (rewrite length_app; simpl; lia).
  rewrite list_lookup_middle by done. split.
  - rewrite siftdown_loop_perm by (rewrite length_app; simpl; lia).
    rewrite list_insert_id by (by apply list_lookup_middle).
    by rewrite <- Permutation_cons_append.
  - intros Hok. apply siftdown_loop_ok; [done| |].
    + split.
      * intros i c p Hi Hne Hne' Hc Hp.
        pose proof (lookup_lt_Some _ _ _ Hc) as Hlen.
        pose proof (lookup_lt_Some _ _ _ Hp) as Hlen'.
        rewrite length_app in Hlen, Hlen'. simpl in Hlen, Hlen'.
        rewrite lookup_app_l in Hc by lia. rewrite lookup_app_l in Hp by lia.
        by apply (Hok i c p).
      * intros i c g Hi Hpos Hpar Hc Hg.
        apply lookup_lt_Some in Hc. rewrite length_app in Hc. simpl in Hc.
        pose proof (parent_lt i Hi). lia.
    + intros i c Hi Hpar Hc.
      apply lookup_lt_Some in Hc. rewrite length_app in Hc. simpl in Hc.
      pose proof (parent_lt i Hi). lia.
Qed.

Lemma heap_ok_root_least h r :
  heap_ok h → h !! 0 = Some r → ∀ y, y ∈ h → op_lt y r = false.
Proof.
  intros Hok Hroot y [i Hy]%list_elem_of_lookup. revert y Hy.
  induction i as [i IH] using lt_wf_ind. intros y Hy.
  destruct (decide (i = 0)) as [->|Hi].
  - rewrite Hroot in Hy. injection Hy as <-. apply op_lt_irrefl.
  - pose proof (parent_lt i ltac:(lia)) as Hlt.
    destruct (lookup_lt_is_Some_2 h (parent i)) as [p Hp].
    { apply lookup_lt_Some in Hy. lia. }
    eapply op_lt_trans; [apply (Hok i y p); [lia | done..] | by apply (IH (parent i))].
Qed.

Lemma heappop_nil : heappop [] = None.
Proof. done. Qed.

Lemma heappop_spec h :
  h ≠ [] →
  ∃ x h', heappop h = Some (x, h')
    ∧ h !! 0 = Some x
    ∧ h ≡ₚ x :: h'
    ∧ (heap_ok h → heap_ok h').
Proof.
  intros Hne. unfold heappop.
  destruct (decide (h = [])) as [|_]; [done|].
  induction h as [|lastelt body _] using rev_ind; [done|]. clear Hne.
  rewrite last_snoc.
  replace (length (body ++ [lastelt]) - 1) with (length body)
    by (rewrite length_app; simpl; lia).
  rewrite take_app_length.
  destruct body as [|returnitem rest].
  - exists lastelt, []. repeat split; try done.
  - exists returnitem, (siftup (lastelt :: rest) 0).
    destruct (siftup_root (lastelt :: rest)) as [Hperm Hok]; [done|].
    repeat split; try done.
    + rewrite Hperm. simpl. constructor. by rewrite <- Permutation_cons_append.
    + intros Hheap. apply Hok. split; [|intros; lia].
      intros i c p Hi _ Hne' Hc Hp.
      pose proof (parent_lt i Hi) as Hlt.
      destruct i as [|i]; [lia|]. destruct (parent (S i)) as [|j] eqn:Hpar; [done|].
      simpl in Hc, Hp. apply (Hheap (S i) c p); [lia | |].
      * simpl. by apply lookup_app_l_Some.
      * rewrite Hpar. simpl. by apply lookup_app_l_Some.
Qed.
End Heapq.

(** ** The scheduler *)

Section Scheduler.
Implicit Types (s : IOScheduler) (q : PyQueue) (op : IOOperation) (id : Z).

(** *** Queues of the first-in first-out kind *)

Lemma drain_Queue (l : list IOOperation) : ∀ acc,
  drain (length l) (Queue l) acc = (acc ++ l, Queue []).
Proof.
  induction l as [|x l IH]; intros acc; simpl.
  - by rewrite app_nil_r.
  - rewrite IH. by rewrite <- app_assoc.
Qed.

Lemma put_back_Queue shortest (ops : list IOOperation) : ∀ l0,
  put_back shortest ops (Queue l0)
  = Queue (l0 ++ List.filter (λ x, op_ne x shortest) ops).
Proof.
  unfold put_back.
  induction ops as [|x ops IH]; intros l0; simpl.
  - by rewrite app_nil_r.
  - destruct (op_ne x shortest); simpl.
    + rewrite IH. by rewrite <- app_assoc.
    + apply IH.
Qed.

Lemma min_by_size_spec (rest : list IOOperation) : ∀ first,
  min_by_size first rest ∈ first :: rest
  ∧ ∀ x, x ∈ first :: rest →
      (data_size_mb (min_by_size first rest) <= data_size_mb x)%Q.
Proof.
  unfold min_by_size.
  induction rest as [|y rest IH]; intros first; simpl.
  - split; [by left|]. intros x ->%list_elem_of_singleton. apply Qle_refl.
  - set (best := if Qltb (data_size_mb y) (data_size_mb first) then y else first).
    destruct (IH best) as [Hin Hmin].
    assert ((data_size_mb best <= data_size_mb first)%Q
            ∧ (data_size_mb best <= data_size_mb y)%Q ∧ (best = first ∨ best = y))
      as (Hfirst & Hy & Hbest).
    { subst best. unfold Qltb.
      destruct (Qle_bool (data_size_mb first) (data_size_mb y)) eqn:Hle; simpl.
      - apply Qle_bool_iff in Hle. repeat split; [apply Qle_refl | done | by left].
      - assert (¬ (data_size_mb first <= data_size_mb y)%Q) as Hnle.
        { intros Hc%Qle_bool_iff. congruence. }
        apply Qnot_le_lt, Qlt_le_weak in Hnle.
        repeat split; [done | apply Qle_refl | by right]. }
    split.
    + apply elem_of_cons in Hin as [Hin|Hin].
      * rewrite Hin. destruct Hbest as [->| ->]; [by left | right; by left].
      * right. by right.
    + intros x Hx.
      apply elem_of_cons in Hx as [->|Hx]; [|apply elem_of_cons in Hx as [->|Hx]].
      * eapply Qle_trans; [apply Hmin; by left | done].
      * eapply Qle_trans; [apply Hmin; by left | done].
      * apply Hmin. by right.
Qed.

Lemma add_operation_Queue id op s l :
  operation_queues s !! id = Some (Queue l) →
  operation_queues (add_operation id op s)
  = <[id := Queue (l ++ [op])]> (operation_queues s).
Proof.
  intros Hq. unfold add_operation. rewrite Hq. simpl.
  apply map_eq. intros id'. rewrite lookup_alter, lookup_insert.
  case_decide; [subst; by rewrite Hq | done].
Qed.

Lemma add_operation_fresh id op s :
  operation_queues s !! id = None →
  algorithm s ≠ PRIORIDAD →
  operation_queues (add_operation id op s)
  = <[id := Queue [op]]> (operation_queues s).
Proof.
  intros Hq Halg. unfold add_operation. rewrite Hq. simpl.
  apply map_eq. intros id'. destruct (decide (id = id')) as [<-|Hne].
  - rewrite lookup_alter_eq, !lookup_insert_eq. simpl.
    by destruct (algorithm s).
  - by rewrite lookup_alter_ne, !lookup_insert_ne.
Qed.

Lemma add_operation_algorithm id op s : algorithm (add_operation id op s) = algorithm s.
Proof. done. Qed.

Lemma enqueue_all_algorithm id ops : ∀ s, algorithm (enqueue_all id ops s) = algorithm s.
Proof.
  unfold enqueue_all. induction ops as [|op ops IH]; intros s; simpl; [done|].
  by rewrite IH.
Qed.

Lemma enqueue_all_Queue id (ops : list IOOperation) : ∀ s l,
  operation_queues s !! id = Some (Queue l) →
  operation_queues (enqueue_all id ops s)
  = <[id := Queue (l ++ ops)]> (operation_queues s).
Proof.
  unfold enqueue_all. induction ops as [|op ops IH]; intros s l Hq; simpl.
  - rewrite app_nil_r. by rewrite insert_id.
  - rewrite (IH _ (l ++ [op])).
    + rewrite (add_operation_Queue _ _ _ _ Hq), insert_insert_eq.
      by rewrite <- app_assoc.
    + rewrite (add_operation_Queue _ _ _ _ Hq). apply lookup_insert_eq.
Qed.

Lemma enqueue_all_fresh id op (ops : list IOOperation) s :
  operation_queues s !! id = None →
  algorithm s ≠ PRIORIDAD →
  operation_queues (enqueue_all id (op :: ops) s)
  = <[id := Queue (op :: ops)]> (operation_queues s).
Proof.
  intros Hq Halg. unfold enqueue_all. simpl.
  fold (enqueue_all id ops (add_operation id op s)).
  rewrite (enqueue_all_Queue id ops _ [op]).
  - rewrite add_operation_fresh by done. by rewrite insert_insert_eq.
  - rewrite add_operation_fresh by done. apply lookup_insert_eq.
Qed.

(** *** The queues stay of the kind of the algorithm *)

Lemma scheduler_ok_init alg : scheduler_ok (IOScheduler_init alg).
Proof. apply map_Forall_empty. Qed.

Lemma queue_matches_new_queue alg : queue_matches alg (new_queue alg).
Proof. destruct alg; simpl; first [done | apply heap_ok_nil]. Qed.

Lemma queue_matches_put alg op q :
  queue_matches alg q → queue_matches alg (queue_put op q).
Proof.
  destruct alg, q; simpl; try done. apply heappush_spec.
Qed.

Lemma queue_matches_get alg q op q' :
  queue_matches alg q → queue_get q = Some (op, q') → queue_matches alg q'.
Proof.
  destruct q as [[|x l]|[|x l]]; simpl; try done.
  - intros Hq [= <- <-]. by destruct alg.
  - destruct (heappop_spec (x :: l)) as (y & h' & Hpop & _ & _ & Hok); [done|].
    rewrite Hpop. simpl. intros Hq [= <- <-].
    destruct alg; simpl in *; try done. by apply Hok.
Qed.

Lemma scheduler_ok_add_operation id op s :
  scheduler_ok s → scheduler_ok (add_operation id op s).
Proof.
  intros Hok id' q'. unfold add_operation. simpl.
  destruct (decide (id = id')) as [<-|Hne].
  - rewrite lookup_alter_eq.
    destruct (operation_queues s !! id) as [q|] eqn:Hq.
    + rewrite Hq. simpl. intros [= <-]. apply queue_matches_put. by apply (Hok id).
    + rewrite lookup_insert_eq. simpl. intros [= <-].
      apply queue_matches_put, queue_matches_new_queue.
  - rewrite lookup_alter_ne by done.
    destruct (operation_queues s !! id); [|rewrite lookup_insert_ne by done];
      apply Hok.
Qed.

Lemma scheduler_ok_enqueue_all id (ops : list IOOperation) : ∀ s,
  scheduler_ok s → scheduler_ok (enqueue_all id ops s).
Proof.
  unfold enqueue_all. induction ops as [|op ops IH]; intros s Hok; simpl; [done|].
  by apply IH, scheduler_ok_add_operation.
Qed.

Lemma transfer_matches alg fuel : ∀ old new,
  queue_matches alg new → queue_matches alg (transfer fuel old new).
Proof.
  induction fuel as [|fuel IH]; intros old new Hnew; simpl; [done|].
  destruct (queue_empty old); [done|].
  destruct (queue_get old) as [[item old']|]; [|done].
  by apply IH, queue_matches_put.
Qed.

Lemma scheduler_ok_set_algorithm alg s : scheduler_ok (set_algorithm alg s).
Proof.
  intros id q. unfold set_algorithm. simpl. rewrite lookup_fmap.
  destruct (operation_queues s !! id) as [old|]; simpl; [|done].
  intros [= <-]. apply transfer_matches, queue_matches_new_queue.
Qed.

Lemma scheduler_ok_insert id q s :
  scheduler_ok s → queue_matches (algorithm s) q →
  scheduler_ok (mkScheduler (algorithm s) (<[id := q]> (operation_queues s))).
Proof. intros Hok Hq. by apply map_Forall_insert_2. Qed.

Lemma scheduler_ok_get_next_operation id s :
  scheduler_ok s → scheduler_ok (get_next_operation id s).2.
Proof.
  intros Hok. unfold get_next_operation.
  destruct (operation_queues s !! id) as [q|] eqn:Hq; [|done].
  pose proof (Hok _ _ Hq) as Hkind. simpl in Hkind.
  destruct (queue_empty q) eqn:Hempty; [done|].
  assert (scheduler_ok (get_from_queue id q s).2) as Hget.
  { unfold get_from_queue.
    destruct (queue_get q) as [[op q']|] eqn:Hget; [|done]. simpl.
    apply scheduler_ok_insert; [done|]. by eapply queue_matches_get. }
  destruct (algorithm s) eqn:Halg; try done.
  destruct q as [l|l]; [|done].
  change (queue_qsize (Queue l)) with (length l). rewrite drain_Queue.
  cbn [app]. destruct l as [|first rest]; [done|]. cbn [snd].
  rewrite put_back_Queue. rewrite <- Halg.
  apply scheduler_ok_insert; [done|]. by rewrite Halg.
Qed.

(** Every scheduler built through its operations has queues of the kind of
    its algorithm. *)
Lemma built_scheduler_ok s : built s → scheduler_ok s.
Proof.
  induction 1 as [alg|alg s _ _|id op s _ IH|id s _ IH].
  - apply scheduler_ok_init.
  - apply scheduler_ok_set_algorithm.
  - by apply scheduler_ok_add_operation.
  - by apply scheduler_ok_get_next_operation.
Qed.

(** *** Round robin and first-in first-out *)

Lemma add_operation_round_robin_fifo id op (queues : gmap Z PyQueue) :
  ∃ queues',
    add_operation id op (mkScheduler ROUND_ROBIN queues)
    = mkScheduler ROUND_ROBIN queues'
    ∧ add_operation id op (mkScheduler FIFO queues) = mkScheduler FIFO queues'.
Proof. unfold add_operation. simpl. destruct (queues !! id); by eauto. Qed.

Lemma get_next_operation_round_robin_fifo id (queues : gmap Z PyQueue) :
  ∃ r queues',
    get_next_operation id (mkScheduler ROUND_ROBIN queues)
    = (r, mkScheduler ROUND_ROBIN queues')
    ∧ get_next_operation id (mkScheduler FIFO queues) = (r, mkScheduler FIFO queues').
Proof.
  unfold get_next_operation, get_from_queue. simpl.
  destruct (queues !! id) as [q|]; [|by eauto].
  destruct (queue_empty q); [by eauto|].
  destruct (queue_get q) as [[op q']|]; by eauto.
Qed.

Lemma run_calls_round_robin_fifo calls : ∀ queues : gmap Z PyQueue,
  ∃ outs queues',
    run_calls calls (mkScheduler ROUND_ROBIN queues)
    = (outs, mkScheduler ROUND_ROBIN queues')
    ∧ run_calls calls (mkScheduler FIFO queues) = (outs, mkScheduler FIFO queues').
Proof.
  induction calls as [|[id op|id] calls IH]; intros queues; simpl.
  - by eauto.
  - destruct (add_operation_round_robin_fifo id op queues) as (queues1 & -> & ->).
    apply IH.
  - destruct (get_next_operation_round_robin_fifo id queues)
      as (r & queues1 & -> & ->).
    destruct (IH queues1) as (outs & queues' & -> & ->). by eauto.
Qed.

(** C7.  For every sequence of enqueue and dequeue calls (on one device or
    on several), a scheduler under the round-robin policy returns at each
    dequeue what a scheduler under the FIFO policy returns, whether the
    policy was given at creation or set on a scheduler with pending
    requests. *)
Theorem round_robin_dequeues_like_fifo (calls : list SchedulerCall) :
  (run_calls calls (IOScheduler_init ROUND_ROBIN)).1
  = (run_calls calls (IOScheduler_init FIFO)).1
  ∧ ∀ s, (run_calls calls (set_algorithm ROUND_ROBIN s)).1
         = (run_calls calls (set_algorithm FIFO s)).1.
Proof.
  split.
  - destruct (run_calls_round_robin_fifo calls ∅) as (outs & queues' & Hrr & Hfifo).
    unfold IOScheduler_init. by rewrite Hrr, Hfifo.
  - intros s. unfold set_algorithm.
    change (rebuild_queue ROUND_ROBIN) with (rebuild_queue FIFO).
    destruct (run_calls_round_robin_fifo calls (rebuild_queue FIFO <$> operation_queues s))
      as (outs & queues' & Hrr & Hfifo).
    by rewrite Hrr, Hfifo.
Qed.

(** *** Shortest request first *)

(** Under a policy other than the priority one, the queue of a device that
    receives a batch is what was pending followed by the batch. *)
Lemma enqueue_all_batch id (batch : list IOOperation) s :
  algorithm s ≠ PRIORIDAD →
  scheduler_ok s →
  batch ≠ [] →
  enqueue_all id batch s
  = mkScheduler (algorithm s)
      (<[id := Queue (pending id s ++ batch)]> (operation_queues s)).
Proof.
  intros Halg Hok Hbatch.
  pose proof (enqueue_all_algorithm id batch s) as Halg'.
  assert (operation_queues (enqueue_all id batch s)
          = <[id := Queue (pending id s ++ batch)]> (operation_queues s)) as Hqueues.
  { unfold pending.
    destruct (operation_queues s !! id) as [q|] eqn:Hq.
    - pose proof (Hok _ _ Hq) as Hkind. simpl in Hkind.
      destruct q as [l|l]; [|by destruct (algorithm s)].
      simpl. by apply enqueue_all_Queue.
    - destruct batch as [|op ops]; [done|]. by apply enqueue_all_fresh. }
  destruct (enqueue_all id batch s). simpl in *. by subst.
Qed.


(** *** The priority policy *)

Lemma queue_put_items op q :
  queue_items (queue_put op q) ≡ₚ queue_items q ++ [op].
Proof.
  destruct q as [l|h]; simpl; [done|].
  destruct (heappush_spec h op) as [Hperm _]. rewrite Hperm.
  apply Permutation_cons_append.
Qed.

Lemma pending_add_operation id op s :
  pending id (add_operation id op s) ≡ₚ pending id s ++ [op].
Proof.
  unfold pending, add_operation. simpl. rewrite lookup_alter_eq.
  destruct (operation_queues s !! id) as [q|] eqn:Hq.
  - rewrite Hq. simpl. apply queue_put_items.
  - rewrite lookup_insert_eq. simpl. rewrite queue_put_items.
    by destruct (algorithm s).
Qed.

Lemma pending_enqueue_all id (ops : list IOOperation) :
  ∀ s, pending id (enqueue_all id ops s) ≡ₚ pending id s ++ ops.
Proof.
  unfold enqueue_all. induction ops as [|op ops IH]; intros s; simpl.
  - by rewrite app_nil_r.
  - rewrite IH, pending_add_operation. by rewrite <- app_assoc.
Qed.

Lemma get_queue_length_pending id s : get_queue_length id s = length (pending id s).
Proof. unfold get_queue_length, pending. by destruct (_ !! _). Qed.

Lemma get_next_operation_nothing_pending id s :
  pending id s = [] → get_next_operation id s = (None, s).
Proof.
  unfold pending, get_next_operation.
  destruct (operation_queues s !! id) as [q|]; [|done].
  unfold queue_empty. by intros ->.
Qed.

(** Under the priority policy a dequeue returns a pending request whose
    priority no request left pending exceeds. *)
Lemma get_next_operation_priority id s :
  algorithm s = PRIORIDAD →
  scheduler_ok s →
  pending id s ≠ [] →
  ∃ x s',
    get_next_operation id s = (Some x, s')
    ∧ algorithm s' = PRIORIDAD
    ∧ scheduler_ok s'
    ∧ pending id s ≡ₚ x :: pending id s'
    ∧ ∀ y, y ∈ pending id s' → (priority y ≤ priority x)%Z.
Proof.
  intros Halg Hok Hpending.
  pose proof (scheduler_ok_get_next_operation id s Hok) as Hok'.
  unfold pending in *. unfold get_next_operation, get_from_queue in *.
  destruct (operation_queues s !! id) as [q|] eqn:Hq; [|done].
  pose proof (Hok _ _ Hq) as Hkind. simpl in Hkind. rewrite Halg in Hkind.
  destruct q as [l|h]; [done|]. simpl in Hkind, Hpending.
  unfold queue_empty in *. simpl in *.
  destruct h as [|y h]; [done|]. rewrite Halg in *.
  destruct (heappop_spec (y :: h)) as (x & h' & Hpop & Hroot & Hperm & Hheap); [done|].
  rewrite Hpop in *. simpl in *.
  eexists _, _. split; [done|]. simpl. rewrite lookup_insert_eq. simpl.
  repeat split; try done.
  intros z Hz.
  assert (op_lt z x = false) as Hleast.
  { apply (heap_ok_root_least (y :: h) x Hkind Hroot). rewrite Hperm. by right. }
  unfold op_lt in Hleast. lia.
Qed.

(** Dequeuing as many times as requests are pending returns them all, in an
    order of priorities that do not increase. *)
Lemma dequeue_n_priority id n : ∀ s,
  algorithm s = PRIORIDAD →
  scheduler_ok s →
  length (pending id s) = n →
  ∃ out s',
    dequeue_n n id s = (Some <$> out, s')
    ∧ out ≡ₚ pending id s
    ∧ priority_non_increasing out
    ∧ pending id s' = [].
Proof.
  induction n as [|n IH]; intros s Halg Hok Hlen; simpl.
  - exists [], s. repeat split; try done.
    + by apply nil_length_inv in Hlen as ->.
    + constructor.
    + by apply nil_length_inv.
  - destruct (get_next_operation_priority id s Halg Hok)
      as (x & s1 & -> & Halg1 & Hok1 & Hperm & Hleast).
    { intros Hnil. by rewrite Hnil in Hlen. }
    destruct (IH s1 Halg1 Hok1) as (out & s' & -> & Hout & Hsorted & Hnone).
    { apply Permutation_length in Hperm. simpl in Hperm. lia. }
    exists (x :: out), s'. repeat split; try done.
    + by rewrite Hperm, Hout.
    + constructor; [done|]. apply Forall_forall. intros y Hy.
      apply Hleast. by rewrite <- Hout.
Qed.

(** C5.  Under the priority policy, after any requests have been enqueued for
    a device, dequeuing all the requests pending for it returns every one of
    them, in an order of priorities that do not increase. *)
Theorem priority_dequeue_order id (ops : list IOOperation) s :
  built s →
  algorithm s = PRIORIDAD →
  let s1 := enqueue_all id ops s in
  ∃ out s',
    dequeue_n (get_queue_length id s1) id s1 = (Some <$> out, s')
    ∧ out ≡ₚ pending id s ++ ops
    ∧ priority_non_increasing out
    ∧ get_queue_length id s' = 0.
Proof.
  intros Hok%built_scheduler_ok Halg s1.
  destruct (dequeue_n_priority id (get_queue_length id s1) s1)
    as (out & s' & Hrun & Hperm & Hsorted & Hnone).
  - subst s1. by rewrite enqueue_all_algorithm.
  - by apply scheduler_ok_enqueue_all.
  - by rewrite get_queue_length_pending.
  - exists out, s'. repeat split; try done.
    + rewrite Hperm. apply pending_enqueue_all.
    + by rewrite get_queue_length_pending, Hnone.
Qed.

End Scheduler.

(** ** Runs of the scheduler *)

Section SchedulerRuns.

(** The array of the heap after eleven pushes, as [heapq] lays it out. *)
Example heappush_layout :
  let op p := IOOperation_init 0 "00000000" LECTURA 1 "P" p None 0 in
  priority <$> foldl heappush [] (op <$> [3; 1; 4; 1; 5; 9; 2; 6; 5; 3; 5]%Z)
  = [9; 6; 5; 5; 5; 3; 2; 1; 4; 1; 3]%Z.
Proof. reflexivity. Qed.

(** Three requests of priorities 1, 5 and 3 leave in the order 5, 3, 1. *)
Lemma priority_dequeue_order_witness :
  let ops :=
    [IOOperation_init 0 "aaaaaaaa" LECTURA 10 "P1" 1 None 0;
     IOOperation_init 1 "bbbbbbbb" ESCRITURA 20 "P2" 5 None 0;
     IOOperation_init 2 "cccccccc" LECTURA 30 "P3" 3 None 0] in
  let s1 := enqueue_all 1 ops (IOScheduler_init PRIORIDAD) in
  ∃ out s',
    dequeue_n (get_queue_length 1 s1) 1 s1 = (Some <$> out, s')
    ∧ out ≡ₚ pending 1 (IOScheduler_init PRIORIDAD) ++ ops
    ∧ priority_non_increasing out
    ∧ get_queue_length 1 s' = 0.
Proof.
  intros ops s1.
  apply (priority_dequeue_order 1 ops (IOScheduler_init PRIORIDAD)).
  - apply built_init.
  - reflexivity.
Defined.


End SchedulerRuns.

(** ** The dispatch loop *)

Section DispatchLoop.
Implicit Types (sys : System) (op : IOOperation).

(** C10.  When the loop serves a registered device that is neither busy nor
    connected and the scheduler hands it a request, the request leaves the
    queue, [perform_operation] returns false and changes nothing, the
    manager counts one request processed and one failed, appends a history
    record with [success = False] and calls every listener with
    [success = False]; the request itself is handed on as it was dequeued
    (same status, start and completion times) and the world, so the
    interrupt history too, is unchanged: no completion interrupt. *)
Theorem dispatch_not_connected_drops_request depth rnd id sys driver d op sched :
  get_driver id (driver_table sys) = Some driver →
  store (world sys) !! driver = Some d →
  status (dcb d) ≠ CONECTADO →
  status (dcb d) ≠ OCUPADO →
  get_next_operation id (scheduler sys) = (Some op, sched) →
  ∃ sys',
    dispatch_device depth rnd id sys = Some sys'
    ∧ scheduler sys' = sched
    ∧ perform_operation depth rnd driver op (world sys) = Some (false, op, world sys)
    ∧ world sys' = world sys
    ∧ interrupt_history (interrupt_table (world sys'))
      = interrupt_history (interrupt_table (world sys))
    ∧ driver_table sys' = driver_table sys
    ∧ stats (manager sys')
      = mkStats (operations_processed (stats (manager sys)) + 1)
          (operations_succeeded (stats (manager sys)))
          (operations_failed (stats (manager sys)) + 1)
          (total_data_mb (stats (manager sys)))
          (stats_start_time (stats (manager sys)))
    ∧ (∃ record,
         manager_history (manager sys') = manager_history (manager sys) ++ [record]
         ∧ rec_operation_id record = operation_id op
         ∧ rec_success record = false
         ∧ rec_status record = op_status op
         ∧ rec_start_time record = start_time op
         ∧ rec_completion_time record = completion_time op)
    ∧ notifications (manager sys')
      = notifications (manager sys)
        ++ imap (λ i (listener : Listener),
                   mkNotification i id op false (listener id op false))
             (status_listeners (manager sys)).
Proof.
  intros Hdriver Hself Hnot_connected Hnot_busy Hnext.
  assert (perform_operation depth rnd driver op (world sys)
          = Some (false, op, world sys)) as Hperform.
  { apply (perform_operation_rejected depth rnd driver d); [done|].
    by apply (base_perform_not_connected driver d). }
  unfold dispatch_device. rewrite Hdriver, Hself. simpl.
  rewrite decide_False by done. rewrite Hnext, Hperform. simpl.
  rewrite Hself. simpl.
  eexists. split; [done|]. simpl. repeat split; try done.
  eexists. split; [done|]. by simpl.
Qed.

End DispatchLoop.

(** A block device that was never connected, registered under id 1, with one
    pending request and one listener. *)
Lemma dispatch_not_connected_drops_request_witness :
  let d := DeviceControlBlock_init 1 "Unidad USB" BLOQUE 128 30 0 in
  let w :=
    BlockDeviceDriver_init 7 d
      (mkWorld ∅ InterruptTable_init (BufferManager_init 2048) 0) in
  let op := IOOperation_init 0 "a1b2c3d4" LECTURA 10 "ProcesoPrueba" 5 None 0 in
  let sys :=
    mkSystem w
      (add_operation 1 op (IOScheduler_init FIFO))
      (register_driver 1 7 (mkDriverTable []))
      (add_status_listener (λ _ _ _, None) (IOManager_init 0)) in
  ∃ sys',
    dispatch_device 10 (mkRand 0.5 1) 1 sys = Some sys'
    ∧ get_queue_length 1 (scheduler sys') = 0
    ∧ world sys' = w
    ∧ operations_failed (stats (manager sys')) = 1%Z
    ∧ rec_status <$> manager_history (manager sys') = ["PENDIENTE"]
    ∧ notifications (manager sys') = [mkNotification 0 1 op false None].
Proof.
  intros d w op sys.
  destruct (dispatch_not_connected_drops_request
              10 (mkRand 0.5 1) 1 sys 7 (mkDriver BlockDeviceDriver d []) op
              (mkScheduler FIFO (<[1%Z := Queue []]> ∅)))
    as (sys' & Hrun & Hsched & _ & Hworld & _ & _ & Hstats & Hrecord & Hnotes).
  - reflexivity.
  - reflexivity.
  - simpl. discriminate.
  - simpl. discriminate.
  - reflexivity.
  - exists sys'. split; [exact Hrun|].
    destruct Hrecord as (record & Hhistory & _ & _ & Hstatus & _).
    repeat split.
    + by rewrite Hsched.
    + exact Hworld.
    + by rewrite Hstats.
    + rewrite Hhistory. simpl. by rewrite Hstatus.
    + by rewrite Hnotes.
Defined.

(** ** The accounting of the buffer pool *)

Section PoolAccounting.
Implicit Types (bm : BufferManager) (id : string).

Lemma pool_exact_step c bm :
  match c with Allocate _ id => buffers bm !! id = None | Release _ => True end →
  pool_exact bm → pool_exact (pool_step bm c).
Proof.
  intros Hfresh [Hused Hfull]. destruct c as [size_mb id|id]; simpl.
  - unfold allocate_buffer.
    destruct (_ <? _)%Z; simpl; [done|].
    unfold Buffer_allocate, Buffer_init; simpl. rewrite Z.leb_refl; simpl. split; simpl.
    + rewrite held_insert_fresh by done. simpl. lia.
    + apply map_Forall_insert_2; [|done]. split; simpl; [lia|].
      by rewrite insert_empty.
  - unfold release_buffer.
    destruct (buffers bm !! id) as [b|] eqn:Hb; simpl; [|done]. split; simpl.
    + rewrite (held_delete _ _ _ Hb) in Hused. lia.
    + by apply map_Forall_delete.
Qed.

Lemma pool_exact_run calls : ∀ bm,
  fresh_allocations calls bm = true → pool_exact bm → pool_exact (pool_run calls bm).
Proof.
  unfold pool_run.
  induction calls as [|c calls IH]; intros bm Hfresh Hexact; simpl; [done|].
  simpl in Hfresh. apply andb_true_iff in Hfresh as [Hc Hrest].
  apply IH; [done|]. apply pool_exact_step; [|done].
  destruct c; [by apply bool_decide_eq_true in Hc | done].
Qed.

Lemma full_buffer_usage (b : Buffer) :
  used_kb b = size_kb b →
  (Buffer_get_usage_percentage b == if (0 <? size_kb b)%Z then 100 else 0)%Q.
Proof.
  intros Hfull. unfold Buffer_get_usage_percentage. rewrite Hfull.
  destruct (Z.ltb_spec 0 (size_kb b)) as [Hpos|Hnpos]; [|done].
  destruct (size_kb b) as [|size|size]; try lia.
  unfold Qeq, Qdiv, Qmult, Qinv, inject_Z; simpl. lia.
Qed.

(** X1.  From a fresh pool, when no call allocates under an id that holds a
    buffer at that moment, the reserved amount is, after the calls, exactly
    the sum of the sizes of the buffers held, whatever the signs of the
    sizes; every buffer held is filled by the one allocation made in it and
    so reports a usage of 100 (0 for a size that is not positive); and a
    pool that holds no buffer reserves nothing and reports a usage of 0. *)
Theorem pool_accounting_exact (total : Z) (calls : list PoolCall) :
  fresh_allocations calls (BufferManager_init total) = true →
  let bm := pool_run calls (BufferManager_init total) in
  used_buffer_kb bm = held (buffers bm)
  ∧ map_Forall buffer_full (buffers bm)
  ∧ map_Forall
      (λ _ b, (Buffer_get_usage_percentage b
               == if (0 <? size_kb b)%Z then 100 else 0)%Q) (buffers bm)
  ∧ (buffers bm = ∅ → used_buffer_kb bm = 0%Z ∧ (get_buffer_usage bm == 0)%Q).
Proof.
  intros Hfresh bm.
  destruct (pool_exact_run calls (BufferManager_init total) Hfresh) as [Hused Hfull].
  { split; simpl; [by rewrite held_empty | apply map_Forall_empty]. }
  fold bm in Hused, Hfull. split; [done|]. split; [done|]. split.
  { intros id b Hb. apply full_buffer_usage. by destruct (Hfull id b Hb). }
  intros Hnone. rewrite Hnone, held_empty in Hused. split; [done|].
  unfold get_buffer_usage. rewrite Hused.
  destruct (0 <? _)%Z; [|done]. unfold Qdiv. by rewrite !Qmult_0_l.
Qed.

(** Three allocations and a release, the id of the released buffer being used again. *)
Lemma pool_accounting_exact_witness :
  let calls := [Allocate 1 "a"; Allocate 0.5 "b"; Release "a"; Allocate 0.25 "a"] in
  let bm := pool_run calls (BufferManager_init 2048) in
  used_buffer_kb bm = held (buffers bm) ∧ used_buffer_kb bm = 768%Z.
Proof.
  intros calls bm.
  destruct (pool_accounting_exact 2048 calls) as (Hused & _).
  - reflexivity.
  - split; [exact Hused | reflexivity].
Defined.

(** X2.  [release_buffer] undoes [allocate_buffer]: after an allocation that
    succeeds under an id that held no buffer, releasing the id returns true
    and gives back the pool exactly as it was before the allocation. *)
Theorem allocate_release_round_trip (size_mb : Q) id bm :
  buffers bm !! id = None →
  fst (allocate_buffer size_mb id bm) = true →
  release_buffer id (snd (allocate_buffer size_mb id bm)) = (true, bm).
Proof.
  intros Hfresh. unfold allocate_buffer.
  destruct (_ <? _)%Z; simpl; [done|]. intros _.
  unfold release_buffer. simpl. rewrite lookup_insert_eq. simpl.
  unfold Buffer_allocate, Buffer_init; simpl. rewrite Z.leb_refl; simpl.
  rewrite delete_insert_id by done.
  destruct bm as [total bufs used]. simpl. f_equal. f_equal. lia.
Qed.

(** An allocation of 512 KB under a new id on a pool that holds a buffer, released at once. *)
Lemma allocate_release_round_trip_witness :
  let bm := snd (allocate_buffer 1 "a" (BufferManager_init 2048)) in
  release_buffer "b" (snd (allocate_buffer 0.5 "b" bm)) = (true, bm).
Proof.
  intros bm. apply (allocate_release_round_trip 0.5 "b" bm); reflexivity.
Defined.

(** X3.  An allocation under an id that holds a buffer replaces the buffer
    without giving back its reservation.  After the allocation and one
    release of the id, the id holds no buffer and the reserved amount is
    what it was before the allocation; a further release returns false and
    changes nothing; so the reserved amount now exceeds the sizes held by
    the size of the buffer that was replaced, on top of what it exceeded
    them by before. *)
Theorem reallocation_leaks_reservation (size_mb : Q) id bm b0 :
  buffers bm !! id = Some b0 →
  fst (allocate_buffer size_mb id bm) = true →
  let bm1 := snd (allocate_buffer size_mb id bm) in
  let bm2 := snd (release_buffer id bm1) in
  fst (release_buffer id bm1) = true
  ∧ used_buffer_kb bm2 = used_buffer_kb bm
  ∧ buffers bm2 = delete id (buffers bm)
  ∧ release_buffer id bm2 = (false, bm2)
  ∧ (used_buffer_kb bm2 - held (buffers bm2)
     = used_buffer_kb bm - held (buffers bm) + size_kb b0)%Z.
Proof.
  intros Hheld Hok bm1 bm2.
  assert (release_buffer id bm1
          = (true, mkBufferManager (total_buffer_size_kb bm) (delete id (buffers bm))
                     (used_buffer_kb bm))) as Hrelease.
  { subst bm1. revert Hok. unfold allocate_buffer.
    destruct (_ <? _)%Z; simpl; [done|]. intros _.
    unfold release_buffer. simpl. rewrite lookup_insert_eq. simpl.
    unfold Buffer_allocate, Buffer_init; simpl. rewrite Z.leb_refl; simpl.
    rewrite delete_insert_eq. f_equal. f_equal. lia. }
  subst bm2. rewrite Hrelease. simpl.
  split; [done|]. split; [done|]. split; [done|]. split.
  - unfold release_buffer. simpl. by rewrite lookup_delete_eq.
  - rewrite (held_delete _ _ _ Hheld). lia.
Qed.

(** The id [a] allocated twice on a pool of 2048 KB and released: the pool is empty and 1024 KB stay reserved. *)
Lemma reallocation_leaks_reservation_witness :
  let bm := snd (allocate_buffer 1 "a" (BufferManager_init 2048)) in
  let bm2 := snd (release_buffer "a" (snd (allocate_buffer 0.5 "a" bm))) in
  buffers bm2 = ∅ ∧ used_buffer_kb bm2 = 1024%Z
  ∧ release_buffer "a" bm2 = (false, bm2).
Proof.
  intros bm bm2.
  destruct (reallocation_leaks_reservation 0.5 "a" bm (mkBuffer 1024 1024
              {[ "a" := (1024%Z, "Datos simulados para la operación a") ]}))
    as (_ & Hused & Hbuffers & Hagain & _).
  - reflexivity.
  - reflexivity.
  - fold bm2 in Hused, Hbuffers, Hagain. split; [|split].
    + rewrite Hbuffers. reflexivity.
    + rewrite Hused. reflexivity.
    + exact Hagain.
Defined.

(** X4.  [Buffer.allocate] succeeds exactly when the used amount plus the size
    fits the size of the buffer, and then adds the size to the used amount;
    when it fails the buffer is unchanged.  [Buffer.release] undoes an
    allocation made under an id that was free, and returns false without
    any change for an id that is not in the buffer. *)
Theorem Buffer_allocate_release (size : Z) id (b : Buffer) :
  (fst (Buffer_allocate size id b) = true ↔ (used_kb b + size ≤ size_kb b)%Z)
  ∧ (fst (Buffer_allocate size id b) = false → snd (Buffer_allocate size id b) = b)
  ∧ (fst (Buffer_allocate size id b) = true →
       used_kb (snd (Buffer_allocate size id b)) = (used_kb b + size)%Z
       ∧ (data b !! id = None →
            Buffer_release id (snd (Buffer_allocate size id b)) = (true, b)))
  ∧ (data b !! id = None → Buffer_release id b = (false, b)).
Proof.
  unfold Buffer_allocate.
  destruct (Z.leb_spec (used_kb b + size) (size_kb b)) as [Hfits|Hfull]; simpl.
  - split; [done|]. split; [done|]. split.
    + intros _. split; [done|]. intros Hfresh.
      unfold Buffer_release. simpl. rewrite lookup_insert_eq. simpl.
      rewrite delete_insert_id by done.
      destruct b as [sz used dat]. simpl. f_equal. f_equal. lia.
    + intros Hfresh. unfold Buffer_release. by rewrite Hfresh.
  - split; [split; [done | lia]|]. split; [done|]. split; [done|].
    intros Hfresh. unfold Buffer_release. by rewrite Hfresh.
Qed.

End PoolAccounting.

(** ** What interrupt handlers change *)

Section HandlersFrame.
Implicit Types (w : World) (d : Driver) (name : string)
  (args : list PyVal) (kwargs : gmap string PyVal).

Lemma driver_retouched_refl d : driver_retouched d d.
Proof.
  exists (status (dcb d)), 0%Z. split; [lia|].
  destruct d as [cls [] hist]. unfold retouch. simpl. do 2 f_equal. lia.
Qed.

Lemma driver_retouched_trans d1 d2 d3 :
  driver_retouched d1 d2 → driver_retouched d2 d3 → driver_retouched d1 d3.
Proof.
  intros (st1 & n1 & Hn1 & ->) (st2 & n2 & Hn2 & ->).
  exists st2, (n1 + n2)%Z. split; [lia|].
  unfold retouch. simpl. do 2 f_equal. lia.
Qed.

Lemma handlers_frame_refl w : handlers_frame w w.
Proof.
  split; [done|]. split; [done|]. intros self.
  destruct (store w !! self); constructor. apply driver_retouched_refl.
Qed.

Lemma handlers_frame_trans w1 w2 w3 :
  handlers_frame w1 w2 → handlers_frame w2 w3 → handlers_frame w1 w3.
Proof.
  intros (Hb1 & Hc1 & Hs1) (Hb2 & Hc2 & Hs2).
  split; [congruence|]. split; [congruence|]. intros self.
  specialize (Hs1 self). specialize (Hs2 self).
  destruct Hs1 as [d1 d2 H12|]; inversion Hs2; subst; constructor.
  by eapply driver_retouched_trans.
Qed.

Lemma handlers_frame_update_dcb self (f : DeviceControlBlock → DeviceControlBlock) w :
  (∀ c, ∃ st n, (0 ≤ n)%Z ∧ f c = retouch st n c) →
  handlers_frame w (update_dcb self f w).
Proof.
  intros Hf. split; [done|]. split; [done|]. intros k.
  unfold update_dcb. simpl. rewrite lookup_alter.
  case_decide as Hk.
  - subst k. destruct (store w !! self) as [d|]; constructor.
    destruct (Hf (dcb d)) as (st & n & Hn & Heq). exists st, n. by rewrite Heq.
  - destruct (store w !! k); constructor. apply driver_retouched_refl.
Qed.

Lemma set_status_retouch st c : ∃ st' n, (0 ≤ n)%Z ∧ set_status st c = retouch st' n c.
Proof.
  exists st, 0%Z. split; [lia|]. unfold set_status, retouch. f_equal. lia.
Qed.

Lemma incr_error_count_retouch c :
  ∃ st' n, (0 ≤ n)%Z ∧ incr_error_count c = retouch st' n c.
Proof. exists (status c), 1%Z. split; [lia|]. by destruct c. Qed.

Lemma trigger_interrupt_with_frame call name args kwargs w :
  (∀ h a k w0, handlers_frame w0 (outcome_world (call h a k w0))) →
  handlers_frame w (trigger_interrupt_with call name args kwargs w).
Proof.
  intros Hcall. unfold trigger_interrupt_with.
  set (w1 := set_interrupt_table _ w).
  assert (handlers_frame w w1) as Hrec.
  { split; [done|]. split; [done|]. intros self. subst w1. simpl.
    destruct (store w !! self); constructor. apply driver_retouched_refl. }
  destruct (interrupt_handlers (interrupt_table w1) !! name) as [h|]; [|done].
  specialize (Hcall h args kwargs w1).
  destruct (call h args kwargs w1); simpl in Hcall;
    by eapply handlers_frame_trans.
Qed.

Lemma call_handler_frame depth : ∀ h args kwargs w,
  handlers_frame w (outcome_world (call_handler depth h args kwargs w)).
Proof.
  induction depth as [|depth IH]; intros h args kwargs w; simpl.
  - apply handlers_frame_refl.
  - destruct h; repeat case_match; simpl; try apply handlers_frame_refl.
    + apply handlers_frame_update_dcb, set_status_retouch.
    + apply handlers_frame_update_dcb, set_status_retouch.
    + eapply handlers_frame_trans.
      * apply handlers_frame_update_dcb, (set_status_retouch ERROR).
      * apply handlers_frame_update_dcb, incr_error_count_retouch.
    + apply handlers_frame_update_dcb, set_status_retouch.
    + eapply handlers_frame_trans.
      * apply handlers_frame_update_dcb, (set_status_retouch DESCONECTADO).
      * exact (trigger_interrupt_with_frame _ _ _ _
                 (update_dcb self (set_status DESCONECTADO) w) IH).
Qed.

(** X5.  Whatever interrupt is triggered, with whatever payload and whatever
    handlers registered (the bound methods of the drivers, the triggers they
    nest included, and callables from outside, which do not reach the state
    of the engine), the trigger leaves the buffer pool and the clock
    unchanged, keeps every driver object and changes at most the status and
    the error count of its device, the error count never decreasing; it
    keeps the registered handlers and only appends to the history. *)
Theorem handlers_touch_status_only depth name args kwargs w :
  let w' := trigger_interrupt depth name args kwargs w in
  buffer_manager w' = buffer_manager w
  ∧ clock w' = clock w
  ∧ (∀ self, option_Forall2 driver_retouched (store w !! self) (store w' !! self))
  ∧ interrupt_handlers (interrupt_table w') = interrupt_handlers (interrupt_table w)
  ∧ interrupt_history (interrupt_table w) `prefix_of` interrupt_history (interrupt_table w').
Proof.
  intros w'.
  destruct (trigger_interrupt_with_frame (call_handler depth) name args kwargs w
              (call_handler_frame depth)) as (Hpool & Hclock & Hstore).
  destruct (trigger_interrupt_extends depth name args kwargs w) as (Hhandlers & Hhist & _).
  done.
Qed.

End HandlersFrame.

(** ** The interrupts of a device *)

Section DeviceInterrupts.
Implicit Types (w : World) (d : Driver) (name : string)
  (args : list PyVal) (kwargs : gmap string PyVal).

Lemma interrupt_name_inj name e1 e2 :
  interrupt_name name e1 = interrupt_name name e2 → e1 = e2.
Proof.
  unfold interrupt_name. intros H.
  apply (inj (String.append _)) in H. by apply (inj (String.append "_")) in H.
Qed.

Lemma trigger_interrupt_handler depth name h args kwargs w :
  interrupt_handlers (interrupt_table w) !! name = Some h →
  trigger_interrupt depth name args kwargs w
  = outcome_world
      (call_handler depth h args kwargs
         (set_interrupt_table
            (record_interrupt name args kwargs (clock w) (interrupt_table w)) w)).
Proof.
  intros Hh. unfold trigger_interrupt, trigger_interrupt_with. simpl.
  rewrite record_interrupt_handlers, Hh. by destruct (call_handler _ _ _ _ _).
Qed.

Lemma binds_error_keywords code msg :
  binds ["error_code"; "error_message"] []
    (<["error_code" := code]> (<["error_message" := msg]> ∅)) = true.
Proof.
  unfold binds. simpl. apply bool_decide_eq_true.
  rewrite !dom_insert_L, dom_empty_L. set_solver.
Qed.

(** X6.  The interrupts of a block driver set the status of its device whatever
    the status was.  With a stack that admits a handler call,
    [<NAME>_CONNECT] sets it to connected, [<NAME>_DISCONNECT] to
    disconnected, and [<NAME>_ERROR] with the keywords [error_code] and
    [error_message] to error, incrementing the error count; nothing else of
    the driver changes. *)
Theorem block_interrupts_set_status depth self d w :
  store w !! self = Some d →
  let name := device_name (dcb d) in
  let handler event :=
    interrupt_handlers (interrupt_table w) !! interrupt_name name event in
  let after event kwargs :=
    store (trigger_interrupt (S depth) (interrupt_name name event) [] kwargs w) !! self in
  let with_dcb c := Some (mkDriver (driver_class d) c (operation_history d)) in
  (handler "CONNECT" = Some (Block_on_connect self) →
     after "CONNECT" ∅ = with_dcb (set_status CONECTADO (dcb d)))
  ∧ (handler "DISCONNECT" = Some (Block_on_disconnect self) →
       after "DISCONNECT" ∅ = with_dcb (set_status DESCONECTADO (dcb d)))
  ∧ (handler "ERROR" = Some (Block_on_error self) →
       ∀ code msg,
         after "ERROR" (<["error_code" := code]> (<["error_message" := msg]> ∅))
         = with_dcb (incr_error_count (set_status ERROR (dcb d)))).
Proof.
  intros Hself name handler after with_dcb. subst handler after with_dcb. cbv beta.
  split; [|split].
  - intros Hh. rewrite (trigger_interrupt_handler _ _ _ _ _ _ Hh).
    set (w1 := set_interrupt_table _ w).
    cbn [call_handler]. rewrite binds_no_arguments.
    change (store w1 !! self) with (store w !! self). rewrite Hself.
    cbn [outcome_world]. rewrite update_dcb_lookup.
    change (store w1 !! self) with (store w !! self). by rewrite Hself.
  - intros Hh. rewrite (trigger_interrupt_handler _ _ _ _ _ _ Hh).
    set (w1 := set_interrupt_table _ w).
    cbn [call_handler]. rewrite binds_no_arguments.
    change (store w1 !! self) with (store w !! self). rewrite Hself.
    cbn [outcome_world]. rewrite update_dcb_lookup.
    change (store w1 !! self) with (store w !! self). by rewrite Hself.
  - intros Hh code msg. rewrite (trigger_interrupt_handler _ _ _ _ _ _ Hh).
    set (w1 := set_interrupt_table _ w).
    cbn [call_handler]. rewrite binds_error_keywords.
    change (store w1 !! self) with (store w !! self). rewrite Hself.
    cbn [outcome_world]. rewrite !update_dcb_lookup.
    change (store w1 !! self) with (store w !! self). by rewrite Hself.
Qed.

(** A block device put in error by its error interrupt, then connected by its connect interrupt. *)
Lemma block_interrupts_set_status_witness :
  let d := DeviceControlBlock_init 1 "Unidad USB" BLOQUE 128 30 0 in
  let w0 :=
    BlockDeviceDriver_init 1 d
      (mkWorld ∅ InterruptTable_init (BufferManager_init 2048) 0) in
  let w1 :=
    trigger_interrupt 10 "UNIDAD_USB_ERROR" []
      (<["error_code" := VInt 7]> (<["error_message" := VStr "Error simulado"]> ∅)) w0 in
  let w2 := trigger_interrupt 10 "UNIDAD_USB_CONNECT" [] ∅ w1 in
  status_of 1 w1 = Some ERROR
  ∧ store w2 !! 1
    = Some (mkDriver BlockDeviceDriver
              (set_status CONECTADO (incr_error_count (set_status ERROR d))) []).
Proof.
  intros d w0 w1 w2. split; [reflexivity|].
  exact (proj1 (block_interrupts_set_status 9 1
                  (mkDriver BlockDeviceDriver (incr_error_count (set_status ERROR d)) [])
                  w1 eq_refl) eq_refl).
Defined.

(** X7.  Triggering a connect or a disconnect interrupt with a payload (a
    positional argument or a keyword) makes the call of the handler fail on
    its arguments, and the failure is swallowed: the interrupt is recorded
    and counted, and the world is otherwise unchanged, the status of the
    device included. *)
Theorem handler_payload_mismatch_swallowed depth self h name args kwargs w :
  interrupt_handlers (interrupt_table w) !! name = Some h →
  h ∈ [Block_on_connect self; Block_on_disconnect self;
       Char_on_connect self; Char_on_disconnect self] →
  args ≠ [] ∨ kwargs ≠ ∅ →
  trigger_interrupt depth name args kwargs w
  = set_interrupt_table
      (record_interrupt name args kwargs (clock w) (interrupt_table w)) w.
Proof.
  intros Hh Hin Hargs. rewrite (trigger_interrupt_handler _ _ _ _ _ _ Hh).
  assert (binds [] args kwargs = false) as Hbinds.
  { unfold binds. apply andb_false_iff. destruct Hargs as [Hargs|Hkwargs].
    - left. destruct args; [done|]. done.
    - right. apply bool_decide_eq_false. intros Hsub.
      apply Hkwargs, dom_empty_iff_L, elem_of_equiv_empty_L.
      intros x Hx. apply Hsub in Hx. rewrite drop_nil in Hx.
      by apply elem_of_empty in Hx. }
  destruct depth as [|depth]; [done|]. cbn [call_handler].
  rewrite !elem_of_cons, elem_of_nil in Hin.
  destruct Hin as [->|[->|[->|[->|[]]]]]; by rewrite Hbinds.
Qed.

(** The connect interrupt of a new block device triggered with a positional argument. *)
Lemma handler_payload_mismatch_swallowed_witness :
  let d := DeviceControlBlock_init 1 "Unidad USB" BLOQUE 128 30 0 in
  let w :=
    BlockDeviceDriver_init 1 d
      (mkWorld ∅ InterruptTable_init (BufferManager_init 2048) 0) in
  let w' := trigger_interrupt 10 "UNIDAD_USB_CONNECT" [VInt 1] ∅ w in
  status_of 1 w' = Some DESCONECTADO
  ∧ count_of "UNIDAD_USB_CONNECT" (interrupt_table w') = 1%Z.
Proof.
  intros d w w'. subst w'.
  rewrite (handler_payload_mismatch_swallowed 10 1 (Block_on_connect 1)
             "UNIDAD_USB_CONNECT" [VInt 1] ∅ w).
  - split; reflexivity.
  - reflexivity.
  - apply list_elem_of_here.
  - left. discriminate.
Defined.

(** X8.  Two block drivers whose device names give the same interrupt prefix
    share their interrupt names, and the driver created last owns them:
    after both have been created, triggering the connect interrupt connects
    the second device only, the first keeps its status, and the counter of
    the interrupt, reset by the second registration, is 1. *)
Theorem same_name_takes_over_interrupts depth self1 self2 c1 c2 w :
  self1 ≠ self2 →
  py_replace_space (py_upper (device_name c1))
  = py_replace_space (py_upper (device_name c2)) →
  let w2 := BlockDeviceDriver_init self2 c2 (BlockDeviceDriver_init self1 c1 w) in
  let w' := trigger_interrupt (S depth) (interrupt_name (device_name c1) "CONNECT") [] ∅ w2 in
  status_of self1 w' = Some (status c1)
  ∧ status_of self2 w' = Some CONECTADO
  ∧ count_of (interrupt_name (device_name c1) "CONNECT") (interrupt_table w') = 1%Z.
Proof.
  intros Hne Hname w2 w'.
  assert (∀ event, interrupt_name (device_name c1) event
                   = interrupt_name (device_name c2) event) as Hevent.
  { intros event. unfold interrupt_name. by rewrite Hname. }
  assert (interrupt_handlers (interrupt_table w2)
            !! interrupt_name (device_name c1) "CONNECT"
          = Some (Block_on_connect self2)) as Hh.
  { subst w2. simpl. rewrite Hevent.
    rewrite lookup_insert_ne by (intros ?%interrupt_name_inj; done).
    rewrite lookup_insert_ne by (intros ?%interrupt_name_inj; done).
    apply lookup_insert_eq. }
  assert (store w2 !! self2 = Some (mkDriver BlockDeviceDriver c2 [])) as Hself2.
  { subst w2. simpl. apply lookup_insert_eq. }
  assert (store w2 !! self1 = Some (mkDriver BlockDeviceDriver c1 [])) as Hself1.
  { subst w2. simpl. rewrite lookup_insert_ne by done. apply lookup_insert_eq. }
  assert (interrupt_stats (interrupt_table w2)
            !! interrupt_name (device_name c1) "CONNECT"
          = Some (mkInterruptStat 0 None)) as Hstat.
  { subst w2. simpl. rewrite Hevent.
    rewrite lookup_insert_ne by (intros ?%interrupt_name_inj; done).
    rewrite lookup_insert_ne by (intros ?%interrupt_name_inj; done).
    apply lookup_insert_eq. }
  subst w'. rewrite (trigger_interrupt_handler _ _ _ _ _ _ Hh).
  clearbody w2. set (w3 := set_interrupt_table _ w2).
  cbn [call_handler]. rewrite binds_no_arguments.
  change (store w3 !! self2) with (store w2 !! self2). rewrite Hself2.
  cbn [outcome_world]. unfold status_of. repeat split.
  - unfold update_dcb. simpl. rewrite lookup_alter_ne by done. by rewrite Hself1.
  - rewrite update_dcb_lookup.
    change (store w3 !! self2) with (store w2 !! self2). by rewrite Hself2.
  - rewrite update_dcb_interrupt_table. subst w3. simpl.
    rewrite record_interrupt_count. rewrite decide_True by (rewrite Hstat; eauto).
    unfold count_of. by rewrite Hstat.
Qed.

(** The devices [Disco Duro] and [disco_duro]: one prefix, [DISCO_DURO]. *)
Lemma same_name_takes_over_interrupts_witness :
  let c1 := DeviceControlBlock_init 2 "Disco Duro" BLOQUE 1000 120 0 in
  let c2 := DeviceControlBlock_init 4 "disco_duro" BLOQUE 500 100 0 in
  let w2 :=
    BlockDeviceDriver_init 2 c2
      (BlockDeviceDriver_init 1 c1
         (mkWorld ∅ InterruptTable_init (BufferManager_init 2048) 0)) in
  let w' := trigger_interrupt 10 "DISCO_DURO_CONNECT" [] ∅ w2 in
  status_of 1 w' = Some DESCONECTADO ∧ status_of 2 w' = Some CONECTADO.
Proof.
  intros c1 c2 w2 w'.
  destruct (same_name_takes_over_interrupts 9 1 2 c1 c2
              (mkWorld ∅ InterruptTable_init (BufferManager_init 2048) 0))
    as (H1 & H2 & _).
  - lia.
  - reflexivity.
  - split; [exact H1 | exact H2].
Defined.

End DeviceInterrupts.

(** ** The counters of the interrupt table *)

Section InterruptCounters.
Implicit Types (w : World) (t : InterruptTable) (name : string)
  (args : list PyVal) (kwargs : gmap string PyVal).

Lemma counted_refl t : counted [] t t.
Proof.
  split; [by rewrite app_nil_r|]. intros name.
  destruct (interrupt_stats t !! name) as [st|] eqn:Hst; [|done].
  exists st. split; [done|]. unfold count_entries. simpl. lia.
Qed.

Lemma counted_trans e1 e2 t1 t2 t3 :
  counted e1 t1 t2 → counted e2 t2 t3 → counted (e1 ++ e2) t1 t3.
Proof.
  intros [Hh1 Hc1] [Hh2 Hc2]. split; [by rewrite Hh2, Hh1, app_assoc|].
  intros name. specialize (Hc1 name). specialize (Hc2 name).
  destruct (interrupt_stats t1 !! name) as [st|].
  - destruct Hc1 as (st2 & Hst2 & Hcount2). rewrite Hst2 in Hc2.
    destruct Hc2 as (st3 & Hst3 & Hcount3). exists st3. split; [done|].
    unfold count_entries in *. rewrite filter_app, length_app. lia.
  - by rewrite Hc1 in Hc2.
Qed.

Lemma count_entries_one name name' args kwargs now :
  count_entries name' [mkInterruptInfo name now args kwargs]
  = if decide (name = name') then 1%Z else 0%Z.
Proof.
  unfold count_entries. rewrite filter_cons, filter_nil.
  cbn [info_type]. by case_decide.
Qed.

Lemma counted_record name args kwargs now t :
  counted [mkInterruptInfo name now args kwargs] t
    (record_interrupt name args kwargs now t).
Proof.
  split; [apply record_interrupt_history|]. intros name'.
  rewrite count_entries_one. unfold record_interrupt.
  destruct (interrupt_stats t !! name) as [st|] eqn:Hst; cbn [interrupt_stats].
  - destruct (decide (name = name')) as [<-|Hne].
    + rewrite Hst, lookup_insert_eq. by eexists.
    + rewrite lookup_insert_ne by done.
      destruct (interrupt_stats t !! name') as [st'|]; [|done].
      exists st'. split; [done | lia].
  - destruct (interrupt_stats t !! name') as [st'|] eqn:Hst'; [|done].
    exists st'. split; [done|]. rewrite decide_False by congruence. lia.
Qed.

Lemma trigger_interrupt_with_counted call name args kwargs w :
  (∀ h a k w0, ∃ extra,
     counted extra (interrupt_table w0) (interrupt_table (outcome_world (call h a k w0)))) →
  ∃ extra,
    counted (mkInterruptInfo name (clock w) args kwargs :: extra) (interrupt_table w)
      (interrupt_table (trigger_interrupt_with call name args kwargs w)).
Proof.
  intros Hcall. unfold trigger_interrupt_with.
  set (w1 := set_interrupt_table _ w).
  assert (counted [mkInterruptInfo name (clock w) args kwargs]
            (interrupt_table w) (interrupt_table w1)) as Hrec
    by apply counted_record.
  destruct (interrupt_handlers (interrupt_table w1) !! name) as [h|];
    [|by exists []].
  destruct (Hcall h args kwargs w1) as (extra & Hextra). exists extra.
  destruct (call h args kwargs w1); simpl in Hextra;
    exact (counted_trans _ _ _ _ _ Hrec Hextra).
Qed.

Lemma call_handler_counted depth : ∀ h args kwargs w,
  ∃ extra,
    counted extra (interrupt_table w)
      (interrupt_table (outcome_world (call_handler depth h args kwargs w))).
Proof.
  induction depth as [|depth IH]; intros h args kwargs w; simpl.
  - exists []. apply counted_refl.
  - destruct h; repeat case_match; simpl; try (exists []; apply counted_refl).
    destruct (trigger_interrupt_with_counted (call_handler depth)
                (interrupt_name (device_name (dcb d)) "DISCONNECT") [] ∅
                (update_dcb self (set_status DESCONECTADO) w) IH) as (extra & Hextra).
    by eexists.
Qed.

(** X9.  One call of [trigger_interrupt] appends to the history the entry of the
    interrupt, followed by the entries of the interrupts its handler has
    triggered; no counter is created or removed, and the counter of every
    name that has one has grown by exactly the number of appended entries of
    that name. *)
Theorem counters_count_triggers depth name args kwargs w :
  ∃ extra,
    let t := interrupt_table w in
    let t' := interrupt_table (trigger_interrupt depth name args kwargs w) in
    interrupt_history t' = interrupt_history t ++ mkInterruptInfo name (clock w) args kwargs :: extra
    ∧ (∀ n, is_Some (interrupt_stats t' !! n) ↔ is_Some (interrupt_stats t !! n))
    ∧ (∀ n, is_Some (interrupt_stats t !! n) →
         count_of n t'
         = (count_of n t
            + count_entries n (mkInterruptInfo name (clock w) args kwargs :: extra))%Z).
Proof.
  destruct (trigger_interrupt_with_counted (call_handler depth) name args kwargs w
              (call_handler_counted depth)) as (extra & Hhistory & Hcount).
  exists extra. cbn zeta. split; [done|]. split.
  - intros n. specialize (Hcount n).
    destruct (interrupt_stats (interrupt_table w) !! n) as [st|].
    + destruct Hcount as (st' & Hst' & _). unfold trigger_interrupt. rewrite Hst'.
      split; by eauto.
    + unfold trigger_interrupt. by rewrite Hcount.
  - intros n [st Hst]. specialize (Hcount n). rewrite Hst in Hcount.
    destruct Hcount as (st' & Hst' & Hcount'). unfold count_of, trigger_interrupt.
    by rewrite Hst', Hst.
Qed.

End InterruptCounters.

(** ** The outcomes of a request *)

Section DriverOutcomes.
Implicit Types (w : World) (d : Driver) (op : IOOperation).


(** [complete_operation] when no handler is registered for the completion
    interrupt of the device. *)
Lemma complete_operation_unhandled depth self d op success w :
  store w !! self = Some d →
  interrupt_handlers (interrupt_table w)
    !! interrupt_name (device_name (dcb d)) "OPERATION_COMPLETED" = None →
  let op1 := mark_completed (clock w) success op in
  complete_operation depth self op success w
  = Some (op1,
          set_interrupt_table
            (record_interrupt (interrupt_name (device_name (dcb d)) "OPERATION_COMPLETED")
               [VOperation op1; VBool success] ∅ (clock w) (interrupt_table w))
            (set_buffer_manager
               (snd (release_buffer (operation_id op) (buffer_manager w)))
               (update_dcb self
                  (if success then record_success (data_size_mb op) (clock w)
                   else incr_error_count) w))).
Proof.
  intros Hself Hnone op1. unfold complete_operation. rewrite Hself. simpl.
  rewrite trigger_interrupt_no_handler by (by destruct success).
  by destruct success.
Qed.

Lemma allocate_buffer_fits size_mb id bm :
  (used_buffer_kb bm + py_int (size_mb * 1024) ≤ total_buffer_size_kb bm)%Z →
  allocate_buffer size_mb id bm
  = (true,
     mkBufferManager (total_buffer_size_kb bm)
       (<[id := mkBuffer (py_int (size_mb * 1024)) (py_int (size_mb * 1024))
                  {[ id := (py_int (size_mb * 1024),
                            "Datos simulados para la operación " +:+ id) ]} ]>
          (buffers bm))
       (used_buffer_kb bm + py_int (size_mb * 1024))).
Proof.
  intros Hfits. unfold allocate_buffer.
  destruct (Z.ltb_spec (total_buffer_size_kb bm)
              (used_buffer_kb bm + py_int (size_mb * 1024))); [lia|].
  unfold Buffer_allocate, Buffer_init. simpl. rewrite Z.leb_refl. simpl.
  by rewrite insert_empty.
Qed.

Lemma release_after_grant id (b : Buffer) bm :
  buffers bm !! id = None →
  snd (release_buffer id
         (mkBufferManager (total_buffer_size_kb bm) (<[id := b]> (buffers bm))
            (used_buffer_kb bm + size_kb b)))
  = bm.
Proof.
  intros Hfresh. unfold release_buffer. simpl. rewrite lookup_insert_eq. simpl.
  rewrite delete_insert_id by done. destruct bm. simpl. f_equal. lia.
Qed.

Lemma seek_time_nonneg (z : Z) : Qle_bool 0 (inject_Z (Z.abs z) * 0.001) = true.
Proof.
  apply Qle_bool_iff. apply Qmult_le_0_compat; [|done].
  unfold Qle. simpl. lia.
Qed.



Lemma Qltb_true (x y : Q) : (x < y)%Q → Qltb x y = true.
Proof.
  intros Hlt. unfold Qltb. destruct (Qle_bool y x) eqn:Hle; [|done].
  apply Qle_bool_iff in Hle. by apply Qle_not_lt in Hle.
Qed.




(** The [try] block of the block driver when the transfer fails: the seek has
    been made and the clock has not gone back. *)
Lemma Block_try_raises rnd self d op w :
  store w !! self = Some d →
  (transfer_rate_mb_s (dcb d) == 0)%Q
  ∨ (random_random rnd < 0.05)%Q
  ∨ (data_size_mb op / transfer_rate_mb_s (dcb d) < 0)%Q →
  ∃ e t,
    and_then (Block_seek self op w) (Block_transfer rnd self op)
    = Raised e
        (mkWorld
           match block_address op with
           | Some addr => store (update_dcb self (set_current_position addr) w)
           | None => store w
           end
           (interrupt_table w) (buffer_manager w) t)
    ∧ (clock w <= t)%Q.
Proof.
  intros Hself Hfails.
  assert (∀ w1, store w1 !! self
                = Some (mkDriver (driver_class d)
                          (set_current_position
                             (default (current_position (dcb d)) (block_address op))
                             (dcb d)) (operation_history d)) →
            ∃ e t, Block_transfer rnd self op w1
                   = Raised e (mkWorld (store w1) (interrupt_table w1)
                                 (buffer_manager w1) t)
                 ∧ (clock w1 <= t)%Q) as Htransfer.
  { intros w1 Hself1. unfold Block_transfer. rewrite Hself1.
    cbn [dcb transfer_rate_mb_s set_current_position].
    destruct (Qeqb (transfer_rate_mb_s (dcb d)) 0) eqn:Hzero.
    { exists ZeroDivisionError, (clock w1). split; [by destruct w1 | apply Qle_refl]. }
    destruct (Qltb (random_random rnd) 0.05) eqn:Hdraw.
    { unfold py_sleep.
      destruct (Qle_bool 0 (data_size_mb op / transfer_rate_mb_s (dcb d) / 3)) eqn:Hthird;
        cbn [and_then].
      - eexists _, _. split; [reflexivity|].
        apply Qle_bool_iff in Hthird. rewrite <- (Qplus_0_r (clock w1)) at 1.
        by apply Qplus_le_r.
      - exists ValueError, (clock w1). split; [by destruct w1 | apply Qle_refl]. }
    destruct Hfails as [Hrate|[Hlow|Hneg]].
    - apply Qeq_bool_iff in Hrate. unfold Qeqb in Hzero. congruence.
    - by rewrite (Qltb_true _ _ Hlow) in Hdraw.
    - unfold py_sleep.
      destruct (Qle_bool 0 (data_size_mb op / transfer_rate_mb_s (dcb d))) eqn:Hle.
      + apply Qle_bool_iff in Hle. by apply Qle_not_lt in Hle.
      + exists ValueError, (clock w1). split; [by destruct w1 | apply Qle_refl]. }
  unfold Block_seek. destruct (block_address op) as [addr|] eqn:Haddr.
  - rewrite Hself. unfold py_sleep at 1. rewrite seek_time_nonneg. cbn [and_then].
    set (w1 := mkWorld _ _ _ _).
    destruct (Htransfer w1) as (e & t & -> & Ht).
    { subst w1. cbn [store]. by rewrite update_dcb_lookup, Hself. }
    exists e, t. split; [done|]. subst w1. simpl in Ht |- *.
    eapply Qle_trans; [|exact Ht].
    rewrite <- (Qplus_0_r (clock w)) at 1. apply Qplus_le_r.
    apply Qle_bool_iff, seek_time_nonneg.
  - cbn [and_then]. destruct (Htransfer w) as (e & t & -> & Ht).
    { rewrite Hself. by destruct d as [? []]. }
    by exists e, t.
Qed.

(** X11.  Under the same conditions on the device and the pool, when the transfer
    rate is zero, the random draw is below 0.05 or the transfer time is
    negative, [perform_operation] on a block device returns false: the
    request is failed, completed at the time of the failure; the device is
    in error with one more error counted, its position already moved to the
    block address; its completed operations, bytes and last operation time
    are unchanged; the buffer has been released (the pool is as before), the
    other drivers are unchanged and the clock has not gone back. *)
Theorem block_perform_fails_in_error depth rnd self d op w :
  store w !! self = Some d →
  driver_class d = BlockDeviceDriver →
  status (dcb d) = CONECTADO →
  interrupt_handlers (interrupt_table w)
    !! interrupt_name (device_name (dcb d)) "OPERATION_COMPLETED" = None →
  buffers (buffer_manager w) !! operation_id op = None →
  (used_buffer_kb (buffer_manager w) + py_int (data_size_mb op * 1024)
   ≤ total_buffer_size_kb (buffer_manager w))%Z →
  (transfer_rate_mb_s (dcb d) == 0)%Q
  ∨ (random_random rnd < 0.05)%Q
  ∨ (data_size_mb op / transfer_rate_mb_s (dcb d) < 0)%Q →
  let c := dcb d in
  ∃ w',
    perform_operation depth rnd self op w
    = Some (false, mark_completed (clock w') false (mark_started (clock w) op), w')
    ∧ store w' !! self
      = Some (mkDriver BlockDeviceDriver
                (mkDCB (device_id c) (device_name c) (device_type c) (capacity_gb c)
                   (transfer_rate_mb_s c) ERROR
                   (default (current_position c) (block_address op))
                   (error_count c + 1) (operations_completed c)
                   (bytes_transferred c) (last_operation_time c)
                   (dcb_creation_time c))
                (operation_history d ++ [op_obj op]))
    ∧ (∀ other, other ≠ self → store w' !! other = store w !! other)
    ∧ buffer_manager w' = buffer_manager w
    ∧ (clock w <= clock w')%Q.
Proof.
  intros Hself Hclass Hstatus Hnone Hfresh Hfits Hfails c.
  unfold perform_operation. rewrite Hself. simpl. rewrite Hclass.
  unfold Block_perform_operation.
  rewrite (base_perform_connected self d op w Hself Hstatus). simpl.
  set (op1 := mark_started (clock w) op).
  rewrite allocate_buffer_fits by done. simpl.
  set (bm1 := mkBufferManager _ _ _).
  set (w3 := set_buffer_manager bm1 _).
  set (d3 := mkDriver (driver_class d) (set_status OCUPADO (dcb d))
               (operation_history d ++ [op_obj op1])).
  assert (store w3 !! self = Some d3) as Hself3.
  { subst w3. simpl. rewrite lookup_alter_eq, lookup_alter_eq. by rewrite Hself. }
  destruct (Block_try_raises rnd self d3 op1 w3 Hself3 Hfails) as (e & t & -> & Ht).
  set (w4 := mkWorld _ _ _ _).
  assert (store w4 !! self
          = Some (mkDriver (driver_class d)
                    (set_current_position
                       (default (current_position c) (block_address op))
                       (set_status OCUPADO (dcb d)))
                    (operation_history d ++ [op_obj op1]))) as Hself4.
  { subst w4. cbn [store]. change (block_address op1) with (block_address op).
    destruct (block_address op) as [addr|].
    - by rewrite update_dcb_lookup, Hself3.
    - rewrite Hself3. subst d3. by destruct d as [? []]. }
  assert (∀ other, other ≠ self → store w4 !! other = store w !! other) as Hother4.
  { intros other Hne. subst w4 w3. cbn [store].
    destruct (block_address op1); simpl; by rewrite ?lookup_alter_ne by done. }
  assert (interrupt_table w4 = interrupt_table w ∧ buffer_manager w4 = bm1
          ∧ clock w4 = t) as (Htable4 & Hpool4 & Hclock4) by done.
  clearbody w4.
  rewrite (complete_operation_unhandled depth self _ op1 false w4 Hself4)
    by (by rewrite Htable4).
  simpl. rewrite Htable4, Hpool4.
  set (w5 := update_dcb self (set_status ERROR) _).
  exists w5. split; [reflexivity|]. subst w5. simpl.
  split; [|split; [|split]].
  - rewrite !lookup_alter_eq, Hself4. simpl. by rewrite Hclass.
  - intros other Hne. rewrite !lookup_alter_ne by done. by apply Hother4.
  - subst bm1. by apply (release_after_grant (operation_id op) (mkBuffer _ _ _)).
  - by rewrite Hclock4.
Qed.

(** A block device whose transfer rate is zero. *)
Lemma block_perform_fails_in_error_witness :
  let d := DeviceControlBlock_init 1 "Unidad USB" BLOQUE 128 0 0 in
  let w0 :=
    BlockDeviceDriver_init 1 d
      (mkWorld ∅ InterruptTable_init (BufferManager_init 20480) 0) in
  let w := trigger_interrupt 10 "UNIDAD_USB_CONNECT" [] ∅ w0 in
  let op := IOOperation_init 0 "a1b2c3d4" LECTURA 10 "ProcesoPrueba" 5 (Some 2000%Z) 0 in
  ∃ op' w',
    perform_operation 10 (mkRand 0.5 1) 1 op w = Some (false, op', w')
    ∧ op_status op' = "FALLIDA"
    ∧ status_of 1 w' = Some ERROR
    ∧ error_count_of 1 w' = Some 1%Z
    ∧ buffer_manager w' = buffer_manager w.
Proof.
  intros d w0 w op.
  destruct (block_perform_fails_in_error 10 (mkRand 0.5 1) 1
              (mkDriver BlockDeviceDriver (set_status CONECTADO d) []) op w)
    as (w' & Hperform & Hself & _ & Hpool & _).
  - reflexivity.
  - reflexivity.
  - reflexivity.
  - reflexivity.
  - reflexivity.
  - vm_compute. discriminate.
  - left. reflexivity.
  - eexists _, w'. split; [exact Hperform|]. split; [reflexivity|].
    unfold status_of, error_count_of. rewrite Hself. by repeat split.
Defined.



(** The transfer of the character driver when it fails: only the clock has
    changed, and it has not gone back. *)
Lemma Char_transfer_raises rnd self d op w :
  store w !! self = Some d →
  (transfer_rate_mb_s (dcb d) == 0)%Q
  ∨ (random_random rnd < 0.03)%Q
  ∨ (data_size_mb op / transfer_rate_mb_s (dcb d) < 0)%Q →
  ∃ e t,
    Char_transfer rnd self op w
    = Raised e (mkWorld (store w) (interrupt_table w) (buffer_manager w) t)
    ∧ (clock w <= t)%Q.
Proof.
  intros Hself Hfails. unfold Char_transfer. rewrite Hself.
  destruct (Qeqb (transfer_rate_mb_s (dcb d)) 0) eqn:Hzero.
  { exists ZeroDivisionError, (clock w). split; [by destruct w | apply Qle_refl]. }
  destruct (Qltb (random_random rnd) 0.03) eqn:Hdraw.
  { unfold py_sleep.
    destruct (Qle_bool 0 (data_size_mb op / transfer_rate_mb_s (dcb d) / 2)) eqn:Hhalf;
      cbn [and_then].
    - eexists _, _. split; [reflexivity|].
      apply Qle_bool_iff in Hhalf. rewrite <- (Qplus_0_r (clock w)) at 1.
      by apply Qplus_le_r.
    - exists ValueError, (clock w). split; [by destruct w | apply Qle_refl]. }
  destruct Hfails as [Hrate|[Hlow|Hneg]].
  - apply Qeq_bool_iff in Hrate. unfold Qeqb in Hzero. congruence.
  - by rewrite (Qltb_true _ _ Hlow) in Hdraw.
  - unfold py_sleep.
    destruct (Qle_bool 0 (data_size_mb op / transfer_rate_mb_s (dcb d))) eqn:Hle.
    + apply Qle_bool_iff in Hle. by apply Qle_not_lt in Hle.
    + exists ValueError, (clock w). split; [by destruct w | apply Qle_refl].
Qed.

(** X13.  When the transfer rate is zero, the random draw is below 0.03 or the
    transfer time is negative, [perform_operation] on a connected character
    device returns false (no handler being registered for the completion
    and the error interrupts of the device): the request is failed, the
    device is in error with one more error counted, and two interrupts have
    been recorded, in this order: the completion with [success = False],
    then the error with the keywords [error_code] (the random code) and
    [error_message]. *)
Theorem char_perform_fails_in_error depth rnd self d op w :
  store w !! self = Some d →
  driver_class d = CharacterDeviceDriver →
  status (dcb d) = CONECTADO →
  interrupt_handlers (interrupt_table w)
    !! interrupt_name (device_name (dcb d)) "OPERATION_COMPLETED" = None →
  interrupt_handlers (interrupt_table w)
    !! interrupt_name (device_name (dcb d)) "ERROR" = None →
  (transfer_rate_mb_s (dcb d) == 0)%Q
  ∨ (random_random rnd < 0.03)%Q
  ∨ (data_size_mb op / transfer_rate_mb_s (dcb d) < 0)%Q →
  let c := dcb d in
  ∃ w',
    let op' := mark_completed (clock w') false (mark_started (clock w) op) in
    perform_operation depth rnd self op w = Some (false, op', w')
    ∧ store w' !! self
      = Some (mkDriver CharacterDeviceDriver
                (mkDCB (device_id c) (device_name c) (device_type c) (capacity_gb c)
                   (transfer_rate_mb_s c) ERROR (current_position c)
                   (error_count c + 1) (operations_completed c)
                   (bytes_transferred c) (last_operation_time c)
                   (dcb_creation_time c))
                (operation_history d ++ [op_obj op]))
    ∧ (∀ other, other ≠ self → store w' !! other = store w !! other)
    ∧ buffer_manager w' = snd (release_buffer (operation_id op) (buffer_manager w))
    ∧ (clock w <= clock w')%Q
    ∧ interrupt_history (interrupt_table w')
      = interrupt_history (interrupt_table w)
        ++ [mkInterruptInfo (interrupt_name (device_name c) "OPERATION_COMPLETED")
              (clock w') [VOperation op'; VBool false] ∅;
            mkInterruptInfo (interrupt_name (device_name c) "ERROR") (clock w') []
              (<["error_code" := VInt (random_randint rnd)]>
                 (<["error_message" := VStr "Error simulado"]> ∅))].
Proof.
  intros Hself Hclass Hstatus Hnone Hnone_error Hfails c.
  unfold perform_operation. rewrite Hself. simpl. rewrite Hclass.
  unfold Char_perform_operation.
  rewrite (base_perform_connected self d op w Hself Hstatus). simpl.
  set (op1 := mark_started (clock w) op).
  rewrite lookup_alter_eq, Hself. simpl.
  set (w2 := update_dcb self (set_status OCUPADO) (append_history self op1 w)).
  set (d2 := mkDriver (driver_class d) (set_status OCUPADO (dcb d))
               (operation_history d ++ [op_obj op1])).
  assert (store w2 !! self = Some d2) as Hself2.
  { subst w2. simpl. rewrite lookup_alter_eq, lookup_alter_eq. by rewrite Hself. }
  destruct (Char_transfer_raises rnd self d2 op1 w2 Hself2 Hfails) as (e & t & -> & Ht).
  set (w3 := mkWorld _ _ _ _).
  assert (store w3 !! self = Some d2) as Hself3 by done.
  assert (interrupt_table w3 = interrupt_table w ∧ buffer_manager w3 = buffer_manager w
          ∧ clock w3 = t ∧ store w3 = store w2) as (Htable3 & Hpool3 & Hclock3 & Hstore3)
    by done.
  clearbody w3.
  rewrite (complete_operation_unhandled depth self _ op1 false w3 Hself3)
    by (by rewrite Htable3).
  simpl. rewrite Htable3, Hpool3.
  rewrite trigger_interrupt_no_handler
    by (simpl; by rewrite record_interrupt_handlers).
  set (w5 := set_interrupt_table _ _).
  exists w5. split; [reflexivity|]. subst w5. simpl.
  split; [|split; [|split; [|split]]]; try done.
  - rewrite !lookup_alter_eq, Hself3. simpl. by rewrite Hclass.
  - intros other Hne. rewrite !lookup_alter_ne by done. rewrite Hstore3.
    subst w2. simpl. by rewrite !lookup_alter_ne by done.
  - by rewrite Hclock3.
  - rewrite !record_interrupt_history. by rewrite <- app_assoc.
Qed.

(** The same read with a draw below 0.03. *)
Lemma char_perform_fails_in_error_witness :
  let d := DeviceControlBlock_init 3 "Teclado" CARACTER 0 0.1 0 in
  let w0 :=
    CharacterDeviceDriver_init 1 d
      (mkWorld ∅ InterruptTable_init (BufferManager_init 2048) 0) in
  let w := trigger_interrupt 10 "TECLADO_CONNECT" [] ∅ w0 in
  let op := IOOperation_init 0 "a1b2c3d4" LECTURA 1 "ProcesoPrueba" 5 None 0 in
  ∃ op' w',
    perform_operation 10 (mkRand 0.01 42) 1 op w = Some (false, op', w')
    ∧ op_status op' = "FALLIDA"
    ∧ status_of 1 w' = Some ERROR
    ∧ info_type <$> interrupt_history (interrupt_table w')
      = ["TECLADO_CONNECT"; "TECLADO_OPERATION_COMPLETED"; "TECLADO_ERROR"].
Proof.
  intros d w0 w op.
  destruct (char_perform_fails_in_error 10 (mkRand 0.01 42) 1
              (mkDriver CharacterDeviceDriver (set_status CONECTADO d) []) op w)
    as (w' & Hperform & Hself & _ & _ & _ & Hhistory).
  - reflexivity.
  - reflexivity.
  - reflexivity.
  - reflexivity.
  - reflexivity.
  - right. left. vm_compute. reflexivity.
  - eexists _, w'. split; [exact Hperform|]. split; [reflexivity|].
    split; [by (unfold status_of; rewrite Hself)|].
    rewrite Hhistory. reflexivity.
Defined.

End DriverOutcomes.

(** ** The order of service *)

Section SchedulerOrders.
Implicit Types (s : IOScheduler) (q : PyQueue) (op : IOOperation) (id : Z).

(** *** First-in first-out *)

Lemma queue_of_pending id s :
  scheduler_ok s → algorithm s ≠ PRIORIDAD →
  operation_queues s !! id = None
  ∨ operation_queues s !! id = Some (Queue (pending id s)).
Proof.
  intros Hok Halg. unfold pending.
  destruct (operation_queues s !! id) as [q|] eqn:Hq; [|by left]. right.
  pose proof (Hok _ _ Hq) as Hkind. simpl in Hkind.
  destruct q; [done | by destruct (algorithm s)].
Qed.

Lemma get_next_operation_fifo id s x (l : list IOOperation) :
  algorithm s = FIFO ∨ algorithm s = ROUND_ROBIN →
  operation_queues s !! id = Some (Queue (x :: l)) →
  get_next_operation id s
  = (Some x, mkScheduler (algorithm s) (<[id := Queue l]> (operation_queues s))).
Proof.
  intros Halg Hq. unfold get_next_operation, get_from_queue. rewrite Hq. simpl.
  by destruct Halg as [-> | ->].
Qed.

Lemma dequeue_n_fifo id (l : list IOOperation) : ∀ s,
  algorithm s = FIFO ∨ algorithm s = ROUND_ROBIN →
  operation_queues s !! id = Some (Queue l) →
  dequeue_n (length l) id s
  = (Some <$> l, mkScheduler (algorithm s) (<[id := Queue []]> (operation_queues s))).
Proof.
  induction l as [|x l IH]; intros s Halg Hq; simpl.
  - destruct s as [alg queues]. simpl in *. by rewrite insert_id.
  - rewrite (get_next_operation_fifo id s x l Halg Hq).
    rewrite IH; [|done|apply lookup_insert_eq]. simpl.
    by rewrite insert_insert_eq.
Qed.

(** X14.  Under the FIFO and the round-robin policies, dequeuing as many times as
    requests are pending for a device returns what was pending followed by
    the requests enqueued since, in their order of arrival; the queue is
    then empty and a further dequeue returns nothing and changes nothing. *)
Theorem fifo_dequeues_in_arrival_order id (ops : list IOOperation) s :
  built s →
  algorithm s = FIFO ∨ algorithm s = ROUND_ROBIN →
  let s1 := enqueue_all id ops s in
  ∃ s',
    dequeue_n (get_queue_length id s1) id s1 = (Some <$> (pending id s ++ ops), s')
    ∧ get_queue_length id s' = 0
    ∧ get_next_operation id s' = (None, s').
Proof.
  intros Hok%built_scheduler_ok Halg s1.
  assert (algorithm s ≠ PRIORIDAD) as Hnot by (by destruct Halg as [-> | ->]).
  assert (scheduler_ok s1) as Hok1 by (by apply scheduler_ok_enqueue_all).
  assert (algorithm s1 = algorithm s) as Halg1 by apply enqueue_all_algorithm.
  assert (pending id s1 = pending id s ++ ops) as Hpending.
  { destruct ops as [|op ops].
    - by rewrite app_nil_r.
    - subst s1. rewrite enqueue_all_batch by done. unfold pending at 1. simpl.
      by rewrite lookup_insert_eq. }
  rewrite get_queue_length_pending.
  destruct (queue_of_pending id s1 Hok1) as [Hnone|Hq]; [by rewrite Halg1|..].
  - assert (pending id s1 = []) as Hnil by (unfold pending; by rewrite Hnone).
    rewrite <- Hpending, Hnil. simpl. exists s1. split; [done|].
    split; [by rewrite get_queue_length_pending, Hnil|].
    by apply get_next_operation_nothing_pending.
  - rewrite (dequeue_n_fifo id _ s1) by (by rewrite ?Halg1).
    rewrite Hpending. eexists. split; [done|].
    split.
    + unfold get_queue_length. simpl. by rewrite lookup_insert_eq.
    + apply get_next_operation_nothing_pending. unfold pending. simpl.
      by rewrite lookup_insert_eq.
Qed.

(** Three requests of priorities 1, 5 and 3 leave in their order of arrival. *)
Lemma fifo_dequeues_in_arrival_order_witness :
  let ops :=
    [IOOperation_init 0 "aaaaaaaa" LECTURA 10 "P1" 1 None 0;
     IOOperation_init 1 "bbbbbbbb" ESCRITURA 20 "P2" 5 None 0;
     IOOperation_init 2 "cccccccc" LECTURA 30 "P3" 3 None 0] in
  let s1 := enqueue_all 1 ops (IOScheduler_init FIFO) in
  (dequeue_n 3 1 s1).1 = Some <$> ops.
Proof.
  intros ops s1.
  destruct (fifo_dequeues_in_arrival_order 1 ops (IOScheduler_init FIFO))
    as (s' & Hrun & _).
  - apply built_init.
  - by left.
  - change (dequeue_n 3 1 s1)
      with (dequeue_n (get_queue_length 1 (enqueue_all 1 ops (IOScheduler_init FIFO)))
              1 (enqueue_all 1 ops (IOScheduler_init FIFO))).
    by rewrite Hrun.
Defined.

(** *** Shortest request first, to the end of the queue *)

Lemma get_next_operation_shortest id s first (rest : list IOOperation) :
  algorithm s = TRABAJO_MAS_CORTO_PRIMERO →
  operation_queues s !! id = Some (Queue (first :: rest)) →
  get_next_operation id s
  = (Some (min_by_size first rest),
     mkScheduler (algorithm s)
       (<[id := Queue (List.filter (λ x, op_ne x (min_by_size first rest))
                         (first :: rest))]> (operation_queues s))).
Proof.
  intros Halg Hq. unfold get_next_operation. rewrite Hq, Halg.
  change (queue_empty (Queue (first :: rest))) with false. cbn iota.
  change (queue_qsize (Queue (first :: rest))) with (length (first :: rest)).
  rewrite drain_Queue. cbn [app]. by rewrite put_back_Queue.
Qed.

Lemma op_ne_distinct (x m : IOOperation) : op_obj x ≠ op_obj m → op_ne x m = true.
Proof.
  intros Hne. unfold op_ne. apply negb_true_iff. by apply Nat.eqb_neq.
Qed.

Lemma op_ne_same (m : IOOperation) : op_ne m m = false.
Proof. unfold op_ne. by rewrite Nat.eqb_refl. Qed.

Lemma filter_keeps_others (m : IOOperation) (l : list IOOperation) :
  op_obj m ∉ op_obj <$> l → List.filter (λ x, op_ne x m) l = l.
Proof.
  induction l as [|x l IH]; intros Hnotin; simpl; [done|].
  rewrite fmap_cons in Hnotin. apply not_elem_of_cons in Hnotin as [Hne Hnotin].
  rewrite op_ne_distinct by done. by rewrite IH.
Qed.

Lemma filter_removes_one (m : IOOperation) (l : list IOOperation) :
  distinct_requests l → m ∈ l → l ≡ₚ m :: List.filter (λ x, op_ne x m) l.
Proof.
  unfold distinct_requests.
  induction l as [|x l IH]; intros Hnodup Hin; [by apply elem_of_nil in Hin|].
  rewrite fmap_cons in Hnodup. apply NoDup_cons in Hnodup as [Hx Hnodup].
  apply elem_of_cons in Hin as [->|Hin]; simpl.
  - rewrite op_ne_same. by rewrite filter_keeps_others.
  - rewrite op_ne_distinct.
    + rewrite (IH Hnodup Hin) at 1. apply perm_swap.
    + intros Heq. apply Hx. rewrite Heq. by apply list_elem_of_fmap_2.
Qed.

Lemma filter_distinct (m : IOOperation) (l : list IOOperation) :
  distinct_requests l → distinct_requests (List.filter (λ x, op_ne x m) l).
Proof.
  unfold distinct_requests.
  induction l as [|x l IH]; intros Hnodup; simpl; [done|].
  rewrite fmap_cons in Hnodup. apply NoDup_cons in Hnodup as [Hx Hnodup].
  destruct (op_ne x m); [|by apply IH].
  rewrite fmap_cons. apply NoDup_cons. split; [|by apply IH].
  intros Hin. apply Hx.
  apply list_elem_of_fmap in Hin as (y & Hy & Hin).
  apply list_elem_of_In, filter_In in Hin as [Hin _].
  rewrite Hy. apply list_elem_of_fmap_2. by apply list_elem_of_In.
Qed.

Lemma dequeue_n_shortest id n : ∀ s,
  algorithm s = TRABAJO_MAS_CORTO_PRIMERO →
  scheduler_ok s →
  distinct_requests (pending id s) →
  length (pending id s) = n →
  ∃ out s',
    dequeue_n n id s = (Some <$> out, s')
    ∧ out ≡ₚ pending id s
    ∧ size_non_decreasing out
    ∧ pending id s' = [].
Proof.
  induction n as [|n IH]; intros s Halg Hok Hdistinct Hlen; simpl.
  - exists [], s. apply nil_length_inv in Hlen. rewrite Hlen.
    repeat split; try done. constructor.
  - destruct (queue_of_pending id s Hok) as [Hnone|Hq]; [by rewrite Halg|..].
    { unfold pending in Hlen. by rewrite Hnone in Hlen. }
    destruct (pending id s) as [|first rest] eqn:Hpending; [done|].
    rewrite (get_next_operation_shortest id s first rest Halg Hq).
    set (m := min_by_size first rest).
    set (s1 := mkScheduler _ _).
    destruct (min_by_size_spec rest first) as [Hin Hmin]. fold m in Hin, Hmin.
    assert (pending id s1 = List.filter (λ x, op_ne x m) (first :: rest)) as Hpending1.
    { unfold pending. subst s1. simpl. by rewrite lookup_insert_eq. }
    pose proof (filter_removes_one m (first :: rest) Hdistinct Hin) as Hperm.
    rewrite <- Hpending1 in Hperm.
    destruct (IH s1) as (out & s' & -> & Hout & Hsorted & Hnone); try done.
    + subst s1. apply scheduler_ok_insert; [done|]. by rewrite Halg.
    + rewrite Hpending1. by apply filter_distinct.
    + apply Permutation_length in Hperm. simpl in Hperm, Hlen. lia.
    + exists (m :: out), s'. repeat split; try done.
      * by rewrite Hperm, Hout.
      * constructor; [done|]. apply Forall_forall. intros y Hy.
        apply Hmin. rewrite Hperm. right. by rewrite <- Hout.
Qed.

(** X15.  Under the shortest-first policy, when the requests pending for a device
    are distinct objects, dequeuing as many times as requests are pending
    returns every one of them, in an order of sizes that do not decrease,
    and leaves the queue empty. *)
Theorem shortest_first_dequeues_by_size id s :
  built s →
  algorithm s = TRABAJO_MAS_CORTO_PRIMERO →
  distinct_requests (pending id s) →
  ∃ out s',
    dequeue_n (get_queue_length id s) id s = (Some <$> out, s')
    ∧ out ≡ₚ pending id s
    ∧ size_non_decreasing out
    ∧ get_queue_length id s' = 0.
Proof.
  intros Hok%built_scheduler_ok Halg Hdistinct.
  destruct (dequeue_n_shortest id (get_queue_length id s) s)
    as (out & s' & Hrun & Hperm & Hsorted & Hnone); try done.
  - by rewrite get_queue_length_pending.
  - exists out, s'. repeat split; try done.
    by rewrite get_queue_length_pending, Hnone.
Qed.

(** Requests of sizes 50, 5 and 20 leave in the order 5, 20, 50. *)
Lemma shortest_first_dequeues_by_size_witness :
  let ops :=
    [IOOperation_init 0 "aaaaaaaa" LECTURA 50 "P1" 0 None 0;
     IOOperation_init 1 "bbbbbbbb" LECTURA 5 "P2" 0 None 0;
     IOOperation_init 2 "cccccccc" LECTURA 20 "P3" 0 None 0] in
  let s := enqueue_all 1 ops (IOScheduler_init TRABAJO_MAS_CORTO_PRIMERO) in
  ∃ out s',
    dequeue_n 3 1 s = (Some <$> out, s')
    ∧ data_size_mb <$> out = [5; 20; 50]%Q.
Proof.
  intros ops s.
  destruct (shortest_first_dequeues_by_size 1 s) as (out & s' & Hrun & _ & _ & _).
  - unfold s, enqueue_all. simpl. repeat apply built_add_operation. apply built_init.
  - reflexivity.
  - unfold distinct_requests. apply (bool_decide_unpack _). reflexivity.
  - exists out, s'. change (get_queue_length 1 s) with 3 in Hrun.
    split; [exact Hrun|].
    pose proof Hrun as Hout. vm_compute in Hout.
    injection Hout as Hout _.
    destruct out as [|a [|b [|c [|]]]]; try discriminate Hout.
    injection Hout as <- <- <-. reflexivity.
Defined.

(** *** Changing the algorithm *)

Lemma queue_get_items q x q' :
  queue_get q = Some (x, q') → queue_items q ≡ₚ x :: queue_items q'.
Proof.
  destruct q as [[|y l]|[|y h]]; simpl; try done.
  - by intros [= <- <-].
  - destruct (heappop_spec (y :: h)) as (z & h' & Hpop & _ & Hperm & _); [done|].
    rewrite Hpop. simpl. by intros [= <- <-].
Qed.

Lemma queue_get_nonempty q : queue_empty q = false → is_Some (queue_get q).
Proof.
  destruct q as [[|y l]|[|y h]]; simpl; try done.
  destruct (heappop_spec (y :: h)) as (z & h' & Hpop & _); [done|].
  rewrite Hpop. simpl. by eauto.
Qed.

Lemma transfer_items fuel : ∀ old new,
  queue_qsize old ≤ fuel →
  queue_items (transfer fuel old new) ≡ₚ queue_items new ++ queue_items old.
Proof.
  induction fuel as [|fuel IH]; intros old new Hfuel; simpl.
  - unfold queue_qsize in Hfuel. destruct (queue_items old); [|simpl in Hfuel; lia].
    by rewrite app_nil_r.
  - destruct (queue_empty old) eqn:Hempty.
    + unfold queue_empty in Hempty. destruct (queue_items old); [|done].
      by rewrite app_nil_r.
    + destruct (queue_get_nonempty old Hempty) as [[x old'] Hget]. rewrite Hget.
      pose proof (queue_get_items _ _ _ Hget) as Hperm.
      rewrite IH.
      * rewrite queue_put_items, Hperm. by rewrite <- app_assoc.
      * unfold queue_qsize in *. apply Permutation_length in Hperm.
        simpl in Hperm. lia.
Qed.

Lemma transfer_between_lists (l : list IOOperation) : ∀ acc,
  transfer (length l) (Queue l) (Queue acc) = Queue (acc ++ l).
Proof.
  induction l as [|x l IH]; intros acc; simpl.
  - by rewrite app_nil_r.
  - rewrite IH. by rewrite <- app_assoc.
Qed.

Lemma transfer_from_heap fuel : ∀ (h acc : list IOOperation),
  heap_ok h → length h ≤ fuel →
  ∃ out, transfer fuel (PriorityQueue h) (Queue acc) = Queue (acc ++ out)
    ∧ out ≡ₚ h ∧ priority_non_increasing out.
Proof.
  induction fuel as [|fuel IH]; intros h acc Hok Hfuel.
  - destruct h; [|simpl in Hfuel; lia]. exists []. simpl.
    rewrite app_nil_r. split; [done|]. split; [done|constructor].
  - destruct h as [|y h].
    { exists []. simpl. rewrite app_nil_r. split; [done|]. split; [done|constructor]. }
    destruct (heappop_spec (y :: h)) as (x & h' & Hpop & Hroot & Hperm & Hheap); [done|].
    cbn [transfer]. change (queue_empty (PriorityQueue (y :: h))) with false. cbn iota.
    cbn [queue_get]. rewrite Hpop. cbn [mbind option_bind queue_put].
    destruct (IH h' (acc ++ [x])) as (out & -> & Hout & Hsorted); [by apply Hheap|..].
    { apply Permutation_length in Hperm. simpl in Hperm, Hfuel. lia. }
    exists (x :: out). rewrite <- app_assoc.
    split; [done|]. split; [by rewrite Hperm, Hout|].
    constructor; [done|]. apply Forall_forall. intros z Hz.
    assert (op_lt z x = false) as Hleast.
    { apply (heap_ok_root_least (y :: h) x Hok Hroot). rewrite Hperm. right.
      by rewrite <- Hout. }
    unfold op_lt in Hleast. lia.
Qed.

(** X16.  [set_algorithm] sets the algorithm and keeps, for every device, the
    requests that are pending: the same requests, as many; between policies
    other than the priority one it keeps their order too. *)
Theorem set_algorithm_keeps_requests alg s id :
  built s →
  algorithm (set_algorithm alg s) = alg
  ∧ pending id (set_algorithm alg s) ≡ₚ pending id s
  ∧ get_queue_length id (set_algorithm alg s) = get_queue_length id s
  ∧ (algorithm s ≠ PRIORIDAD → alg ≠ PRIORIDAD →
       pending id (set_algorithm alg s) = pending id s).
Proof.
  intros Hok%built_scheduler_ok.
  assert (pending id (set_algorithm alg s) ≡ₚ pending id s) as Hperm.
  { unfold pending, set_algorithm. simpl. rewrite lookup_fmap.
    destruct (operation_queues s !! id) as [q|]; simpl; [|done].
    unfold rebuild_queue. rewrite transfer_items by done.
    by destruct alg. }
  split; [done|]. split; [done|]. split.
  - rewrite !get_queue_length_pending. by apply Permutation_length.
  - intros Hold Hnew. unfold pending, set_algorithm. simpl. rewrite lookup_fmap.
    destruct (operation_queues s !! id) as [q|] eqn:Hq; simpl; [|done].
    pose proof (Hok _ _ Hq) as Hkind. simpl in Hkind.
    destruct q as [l|h]; [|by destruct (algorithm s)].
    unfold rebuild_queue. change (queue_qsize (Queue l)) with (length l).
    replace (new_queue alg) with (Queue []) by (by destruct alg).
    by rewrite transfer_between_lists.
Qed.

(** Two requests queued under FIFO, the policy changed to shortest-first and to priority. *)
Lemma set_algorithm_keeps_requests_witness :
  let ops :=
    [IOOperation_init 0 "aaaaaaaa" LECTURA 10 "P1" 1 None 0;
     IOOperation_init 1 "bbbbbbbb" ESCRITURA 20 "P2" 5 None 0] in
  let s := enqueue_all 1 ops (IOScheduler_init FIFO) in
  pending 1 (set_algorithm TRABAJO_MAS_CORTO_PRIMERO s) = ops
  ∧ get_queue_length 1 (set_algorithm PRIORIDAD s) = 2.
Proof.
  intros ops s.
  assert (built s) as Hbuilt.
  { unfold s, enqueue_all. simpl. repeat apply built_add_operation. apply built_init. }
  split.
  - destruct (set_algorithm_keeps_requests TRABAJO_MAS_CORTO_PRIMERO s 1 Hbuilt)
      as (_ & _ & _ & Hsame).
    rewrite Hsame; [reflexivity | discriminate | discriminate].
  - destruct (set_algorithm_keeps_requests PRIORIDAD s 1 Hbuilt) as (_ & _ & Hlen & _).
    rewrite Hlen. reflexivity.
Defined.

(** X17.  When the policy is changed from the priority one to another, the queue
    of every device becomes a first-in first-out queue holding the same
    requests in an order of priorities that do not increase. *)
Theorem leaving_priority_orders_queue alg s id :
  built s →
  algorithm s = PRIORIDAD →
  alg ≠ PRIORIDAD →
  priority_non_increasing (pending id (set_algorithm alg s))
  ∧ pending id (set_algorithm alg s) ≡ₚ pending id s
  ∧ (operation_queues (set_algorithm alg s) !! id
     = (λ _, Queue (pending id (set_algorithm alg s))) <$> operation_queues s !! id).
Proof.
  intros Hok%built_scheduler_ok Halg Hnew.
  unfold pending, set_algorithm. simpl. rewrite lookup_fmap.
  destruct (operation_queues s !! id) as [q|] eqn:Hq; simpl;
    [|split; [constructor | done]].
  pose proof (Hok _ _ Hq) as Hkind. simpl in Hkind. rewrite Halg in Hkind.
  destruct q as [l|h]; [done|].
  unfold rebuild_queue. replace (new_queue alg) with (Queue []) by (by destruct alg).
  destruct (transfer_from_heap (length h) h [] Hkind) as (out & Htransfer & Hperm & Hsorted);
    [done|].
  change (queue_qsize (PriorityQueue h)) with (length h). rewrite Htransfer. by simpl.
Qed.

(** Requests of priorities 1, 5 and 3 queued under the priority policy, the policy changed to FIFO. *)
Lemma leaving_priority_orders_queue_witness :
  let ops :=
    [IOOperation_init 0 "aaaaaaaa" LECTURA 10 "P1" 1 None 0;
     IOOperation_init 1 "bbbbbbbb" ESCRITURA 20 "P2" 5 None 0;
     IOOperation_init 2 "cccccccc" LECTURA 30 "P3" 3 None 0] in
  let s := enqueue_all 1 ops (IOScheduler_init PRIORIDAD) in
  priority_non_increasing (pending 1 (set_algorithm FIFO s))
  ∧ priority <$> pending 1 (set_algorithm FIFO s) = [5; 3; 1]%Z.
Proof.
  intros ops s.
  destruct (leaving_priority_orders_queue FIFO s 1) as (Hsorted & _ & _).
  - unfold s, enqueue_all. simpl. repeat apply built_add_operation. apply built_init.
  - reflexivity.
  - discriminate.
  - split; [exact Hsorted | reflexivity].
Defined.

Lemma add_operation_other id id' op s :
  id' ≠ id →
  operation_queues (add_operation id op s) !! id' = operation_queues s !! id'.
Proof.
  intros Hne. unfold add_operation. simpl. rewrite lookup_alter_ne by done.
  destruct (operation_queues s !! id); [done|]. by rewrite lookup_insert_ne.
Qed.

Lemma get_next_operation_other id id' s :
  id' ≠ id →
  operation_queues (get_next_operation id s).2 !! id' = operation_queues s !! id'.
Proof.
  intros Hne. unfold get_next_operation, get_from_queue.
  destruct (operation_queues s !! id) as [q|]; [|done].
  destruct (queue_empty q); [done|].
  destruct (algorithm s); try (destruct (queue_get q) as [[? ?]|]; simpl;
    [by rewrite lookup_insert_ne|done]).
  destruct (drain (queue_qsize q) q []) as [[|first rest] q']; simpl;
    by rewrite lookup_insert_ne.
Qed.

Lemma get_next_operation_algorithm id s :
  algorithm (get_next_operation id s).2 = algorithm s.
Proof.
  unfold get_next_operation, get_from_queue.
  destruct (operation_queues s !! id) as [q|]; [|done].
  destruct (queue_empty q); [done|].
  destruct (algorithm s) eqn:Halg; try (by destruct (queue_get q) as [[? ?]|]).
  by destruct (drain (queue_qsize q) q []) as [[|first rest] q'].
Qed.

(** X18.  Enqueuing or dequeuing for a device leaves the queue of every other
    device, so the requests pending for it, and the algorithm unchanged. *)
Theorem queues_are_per_device id id' op s :
  id' ≠ id →
  operation_queues (add_operation id op s) !! id' = operation_queues s !! id'
  ∧ operation_queues (get_next_operation id s).2 !! id' = operation_queues s !! id'
  ∧ pending id' (add_operation id op s) = pending id' s
  ∧ pending id' (get_next_operation id s).2 = pending id' s
  ∧ algorithm (add_operation id op s) = algorithm s
  ∧ algorithm (get_next_operation id s).2 = algorithm s.
Proof.
  intros Hne. unfold pending.
  rewrite (add_operation_other id id' op s Hne).
  rewrite (get_next_operation_other id id' s Hne).
  repeat split. apply get_next_operation_algorithm.
Qed.

(** A dequeue for device 1 leaves the request of device 2 pending. *)
Lemma queues_are_per_device_witness :
  let a := IOOperation_init 0 "aaaaaaaa" LECTURA 10 "P1" 1 None 0 in
  let b := IOOperation_init 1 "bbbbbbbb" ESCRITURA 20 "P2" 5 None 0 in
  let s := add_operation 2 b (add_operation 1 a (IOScheduler_init FIFO)) in
  pending 2 (get_next_operation 1 s).2 = [b].
Proof.
  intros a b s.
  destruct (queues_are_per_device 1 2 a s) as (_ & _ & _ & Hget & _); [lia|].
  rewrite Hget. reflexivity.
Defined.

(** *** One dequeue *)

(** X19.  A dequeue returns nothing exactly when no request is pending for the
    device, and then changes nothing; otherwise it returns one of the
    pending requests and leaves the others pending, the queue being one
    shorter, the algorithm and the queues of the other devices unchanged.
    Under the shortest-first policy this holds when the pending requests are
    distinct objects. *)
Theorem dequeue_conserves_requests id s :
  built s →
  (algorithm s = TRABAJO_MAS_CORTO_PRIMERO → distinct_requests (pending id s)) →
  match get_next_operation id s with
  | (None, s') => pending id s = [] ∧ s' = s
  | (Some op, s') =>
      pending id s ≡ₚ op :: pending id s'
      ∧ get_queue_length id s = S (get_queue_length id s')
      ∧ algorithm s' = algorithm s
      ∧ ∀ id', id' ≠ id → pending id' s' = pending id' s
  end.
Proof.
  intros Hok%built_scheduler_ok Hdistinct.
  destruct (pending id s) as [|first rest] eqn:Hpending.
  { by rewrite get_next_operation_nothing_pending. }
  assert (∃ op s', get_next_operation id s = (Some op, s')
            ∧ first :: rest ≡ₚ op :: pending id s') as (op & s' & Hnext & Hperm).
  { destruct (algorithm s) eqn:Halg.
    - destruct (queue_of_pending id s Hok) as [Hnone|Hq]; [by rewrite Halg|..].
      { unfold pending in Hpending. by rewrite Hnone in Hpending. }
      rewrite Hpending in Hq.
      rewrite (get_next_operation_fifo id s first rest) by (by eauto).
      eexists _, _. split; [done|]. unfold pending. simpl.
      by rewrite lookup_insert_eq.
    - destruct (get_next_operation_priority id s Halg Hok) as (x & s' & -> & _ & _ & Hperm & _);
        [by rewrite Hpending|].
      exists x, s'. split; [done|]. by rewrite <- Hpending.
    - destruct (queue_of_pending id s Hok) as [Hnone|Hq]; [by rewrite Halg|..].
      { unfold pending in Hpending. by rewrite Hnone in Hpending. }
      rewrite Hpending in Hq.
      rewrite (get_next_operation_shortest id s first rest) by (by rewrite ?Halg).
      eexists _, _. split; [done|]. unfold pending at 1. simpl.
      rewrite lookup_insert_eq. simpl.
      apply filter_removes_one; [by apply Hdistinct|].
      by destruct (min_by_size_spec rest first).
    - destruct (queue_of_pending id s Hok) as [Hnone|Hq]; [by rewrite Halg|..].
      { unfold pending in Hpending. by rewrite Hnone in Hpending. }
      rewrite Hpending in Hq.
      rewrite (get_next_operation_fifo id s first rest) by (by eauto).
      eexists _, _. split; [done|]. unfold pending. simpl.
      by rewrite lookup_insert_eq. }
  pose proof (get_next_operation_algorithm id s) as Halg'.
  assert (∀ id', id' ≠ id → pending id' (get_next_operation id s).2 = pending id' s)
    as Hother.
  { intros id' Hne. unfold pending. by rewrite get_next_operation_other. }
  rewrite Hnext in Halg', Hother |- *. simpl in Halg', Hother.
  split; [done|]. split; [|done].
  rewrite !get_queue_length_pending, Hpending.
  apply Permutation_length in Hperm. by rewrite Hperm.
Qed.

(** Requests of sizes 50 and 5 under the shortest-first policy: one dequeue. *)
Lemma dequeue_conserves_requests_witness :
  let a := IOOperation_init 0 "aaaaaaaa" LECTURA 50 "P1" 0 None 0 in
  let b := IOOperation_init 1 "bbbbbbbb" LECTURA 5 "P2" 0 None 0 in
  let s := enqueue_all 1 [a; b] (IOScheduler_init TRABAJO_MAS_CORTO_PRIMERO) in
  get_queue_length 1 (get_next_operation 1 s).2 = 1
  ∧ (get_next_operation 1 s).1 = Some b.
Proof.
  intros a b s.
  assert (built s) as Hbuilt.
  { unfold s, enqueue_all. simpl. repeat apply built_add_operation. apply built_init. }
  pose proof (dequeue_conserves_requests 1 s Hbuilt) as Hnext.
  destruct (get_next_operation 1 s) as [[op|] s'] eqn:Hrun.
  - destruct Hnext as (_ & Hlen & _).
    { intros _. apply (bool_decide_unpack _). reflexivity. }
    change (get_queue_length 1 s) with 2 in Hlen. split; [simpl; lia|].
    vm_compute in Hrun. by injection Hrun as <- _.
  - vm_compute in Hrun. discriminate Hrun.
Defined.

End SchedulerOrders.

(** ** The driver registry *)

Section Registry.
Implicit Types (t : DeviceDriverTable) (l : list (Z * nat)) (id : Z).

Lemma dict_get_None id l : dict_get id l = None ↔ id ∉ l.*1.
Proof.
  induction l as [|[k v] l IH]; cbn [dict_get]; rewrite ?fmap_cons; cbn [fst].
  - split; [intros _; apply not_elem_of_nil | done].
  - rewrite not_elem_of_cons. case_decide as Hk.
    + split; [done | by intros [? _]].
    + rewrite IH. split; [done | by intros [_ ?]].
Qed.

Lemma dict_set_get id v l : dict_get id (dict_set id v l) = Some v.
Proof.
  induction l as [|[k v'] l IH]; cbn [dict_set dict_get].
  - by rewrite decide_True.
  - case_decide as Hk; cbn [dict_get]; [by rewrite decide_True|].
    by rewrite decide_False.
Qed.

Lemma dict_set_get_ne id id' v l :
  id' ≠ id → dict_get id' (dict_set id v l) = dict_get id' l.
Proof.
  intros Hne. induction l as [|[k v'] l IH]; cbn [dict_set dict_get].
  - by rewrite decide_False.
  - case_decide as Hk; cbn [dict_get].
    + subst k. by rewrite !decide_False.
    + case_decide; [done|]. apply IH.
Qed.

Lemma dict_set_keys id v l :
  (dict_set id v l).*1
  = match dict_get id l with Some _ => l.*1 | None => l.*1 ++ [id] end.
Proof.
  induction l as [|[k v'] l IH]; cbn [dict_set dict_get]; [done|].
  case_decide as Hk; rewrite !fmap_cons; cbn [fst]; [by subst k|].
  rewrite IH. by destruct (dict_get id l).
Qed.

Lemma filter_other_keys id (keys : list Z) :
  id ∉ keys → filter (λ k, k ≠ id) keys = keys.
Proof.
  induction keys as [|k keys IH]; intros Hnotin; [done|].
  apply not_elem_of_cons in Hnotin as [Hne Hnotin].
  rewrite filter_cons_True by done. by rewrite IH.
Qed.

Lemma dict_del_keys id l :
  NoDup l.*1 → (dict_del id l).*1 = filter (λ k, k ≠ id) l.*1.
Proof.
  induction l as [|[k v'] l IH]; cbn [dict_del]; intros Hnodup; [done|].
  rewrite fmap_cons in Hnodup |- *. cbn [fst] in *.
  apply NoDup_cons in Hnodup as [Hk Hnodup].
  case_decide as Hid.
  - subst k. rewrite filter_cons_False by (intros ?; done).
    by rewrite filter_other_keys.
  - rewrite filter_cons_True by done. rewrite fmap_cons. cbn [fst]. by rewrite IH.
Qed.

Lemma dict_del_get_ne id id' l :
  id' ≠ id → dict_get id' (dict_del id l) = dict_get id' l.
Proof.
  intros Hne. induction l as [|[k v'] l IH]; cbn [dict_del dict_get]; [done|].
  case_decide as Hk; cbn [dict_get].
  - subst k. by rewrite decide_False.
  - case_decide; [done|]. apply IH.
Qed.

(** X20.  [register_driver] maps the id to the driver and leaves the other ids as
    they were.  A new id comes last in the order in which the loop visits
    the devices; an id that was registered keeps its place and has its
    driver replaced.  The ids stay distinct. *)
Theorem register_driver_keeps_order id driver t :
  NoDup (get_all_drivers t).*1 →
  let t' := register_driver id driver t in
  get_driver id t' = Some driver
  ∧ (∀ id', id' ≠ id → get_driver id' t' = get_driver id' t)
  ∧ (get_all_drivers t').*1
    = match get_driver id t with
      | Some _ => (get_all_drivers t).*1
      | None => (get_all_drivers t).*1 ++ [id]
      end
  ∧ NoDup (get_all_drivers t').*1.
Proof.
  unfold get_all_drivers, get_driver, register_driver. intros Hnodup. simpl.
  split; [apply dict_set_get|]. split; [intros id' Hne; by apply dict_set_get_ne|].
  split; [apply dict_set_keys|].
  rewrite dict_set_keys. destruct (dict_get id (drivers t)) eqn:Hget; [done|].
  apply NoDup_app. split; [done|]. split.
  - intros k Hk ->%list_elem_of_singleton. by apply dict_get_None in Hget.
  - apply NoDup_singleton.
Qed.

(** Three devices registered; device 2 registered again, then a device 7. *)
Lemma register_driver_keeps_order_witness :
  let t := register_driver 3 30 (register_driver 2 20 (register_driver 1 10 (mkDriverTable []))) in
  (get_all_drivers (register_driver 2 21 t)).*1 = [1; 2; 3]%Z
  ∧ get_driver 2 (register_driver 2 21 t) = Some 21
  ∧ (get_all_drivers (register_driver 7 70 t)).*1 = [1; 2; 3; 7]%Z.
Proof.
  intros t.
  assert (NoDup (get_all_drivers t).*1) as Hnodup
    by (apply (bool_decide_unpack _); reflexivity).
  destruct (register_driver_keeps_order 2 21 t Hnodup) as (Hget & _ & Hkeys & _).
  destruct (register_driver_keeps_order 7 70 t Hnodup) as (_ & _ & Hkeys' & _).
  split; [by rewrite Hkeys|]. split; [exact Hget | by rewrite Hkeys'].
Defined.

(** X21.  [unregister_driver] returns true exactly when the id was registered.
    Afterwards the id is not registered, the other ids map to the same
    drivers in the same order and stay distinct; a false result leaves the
    registry unchanged. *)
Theorem unregister_driver_removes id t :
  NoDup (get_all_drivers t).*1 →
  let r := unregister_driver id t in
  (fst r = true ↔ is_Some (get_driver id t))
  ∧ get_driver id (snd r) = None
  ∧ (∀ id', id' ≠ id → get_driver id' (snd r) = get_driver id' t)
  ∧ (get_all_drivers (snd r)).*1 = filter (λ k, k ≠ id) (get_all_drivers t).*1
  ∧ NoDup (get_all_drivers (snd r)).*1
  ∧ (fst r = false → snd r = t).
Proof.
  unfold get_all_drivers, get_driver, unregister_driver. intros Hnodup.
  destruct (dict_get id (drivers t)) as [v|] eqn:Hget; simpl.
  - split; [by eauto|].
    assert ((dict_del id (drivers t)).*1 = filter (λ k, k ≠ id) (drivers t).*1) as Hkeys
      by (by apply dict_del_keys).
    split; [|split; [|split; [|split]]]; try done.
    + apply dict_get_None. rewrite Hkeys. intros Hin%list_elem_of_filter. by destruct Hin.
    + intros id' Hne. by apply dict_del_get_ne.
    + rewrite Hkeys. by apply NoDup_filter.
  - split; [split; [done | by intros [? ?]]|].
    split; [done|]. split; [done|]. split; [|done].
    symmetry. apply filter_other_keys. by apply dict_get_None.
Qed.

(** Three devices registered; device 2 unregistered twice. *)
Lemma unregister_driver_removes_witness :
  let t := register_driver 3 30 (register_driver 2 20 (register_driver 1 10 (mkDriverTable []))) in
  let r := unregister_driver 2 t in
  fst r = true
  ∧ get_driver 2 (snd r) = None
  ∧ (get_all_drivers (snd r)).*1 = [1; 3]%Z
  ∧ fst (unregister_driver 2 (snd r)) = false.
Proof.
  intros t r.
  assert (NoDup (get_all_drivers t).*1) as Hnodup
    by (apply (bool_decide_unpack _); reflexivity).
  destruct (unregister_driver_removes 2 t Hnodup) as (Hfst & Hget & _ & Hkeys & _).
  subst r. split; [reflexivity|]. split; [exact Hget|].
  split; [by rewrite Hkeys | reflexivity].
Defined.

End Registry.

(** ** The manager and its loop *)

Section Manager.
Implicit Types (w : World) (sys : System) (m : IOManager) (op : IOOperation).

Lemma same_drivers_refl w : same_drivers w w.
Proof. by intros self. Qed.

Lemma same_drivers_trans w1 w2 w3 :
  same_drivers w1 w2 → same_drivers w2 w3 → same_drivers w1 w3.
Proof. intros H12 H23 self. etrans; [apply H23 | apply H12]. Qed.

Lemma same_drivers_store w w' : store w' = store w → same_drivers w w'.
Proof. intros Heq self. by rewrite Heq. Qed.

Lemma same_drivers_update_dcb self f w : same_drivers w (update_dcb self f w).
Proof.
  intros k. unfold update_dcb. simpl. rewrite lookup_alter.
  case_decide; [subst k|done]. by rewrite fmap_is_Some.
Qed.

Lemma same_drivers_append_history self op w : same_drivers w (append_history self op w).
Proof.
  intros k. unfold append_history. simpl. rewrite lookup_alter.
  case_decide; [subst k|done]. by rewrite fmap_is_Some.
Qed.

Lemma same_drivers_trigger depth name args kwargs w :
  same_drivers w (trigger_interrupt depth name args kwargs w).
Proof.
  intros self.
  destruct (trigger_interrupt_with_frame (call_handler depth) name args kwargs w
              (call_handler_frame depth)) as (_ & _ & Hstore).
  specialize (Hstore self). unfold trigger_interrupt.
  destruct Hstore; split; intros [? ?]; by eauto.
Qed.

Lemma world_advances_refl w : world_advances w w.
Proof.
  split; [apply same_drivers_refl|]. split; [apply Qle_refl | apply table_extends_refl].
Qed.

Lemma world_advances_trans w1 w2 w3 :
  world_advances w1 w2 → world_advances w2 w3 → world_advances w1 w3.
Proof.
  intros (Hs1 & Hc1 & Ht1) (Hs2 & Hc2 & Ht2). split; [|split].
  - by eapply same_drivers_trans.
  - by eapply Qle_trans.
  - by eapply table_extends_trans.
Qed.

Lemma world_advances_update_dcb self f w : world_advances w (update_dcb self f w).
Proof.
  split; [apply same_drivers_update_dcb|].
  split; [apply Qle_refl | apply table_extends_refl].
Qed.

Lemma world_advances_append_history self op w :
  world_advances w (append_history self op w).
Proof.
  split; [apply same_drivers_append_history|].
  split; [apply Qle_refl | apply table_extends_refl].
Qed.

Lemma world_advances_set_buffer_manager bm w :
  world_advances w (set_buffer_manager bm w).
Proof.
  split; [by apply same_drivers_store|].
  split; [apply Qle_refl | apply table_extends_refl].
Qed.

Lemma world_advances_trigger depth name args kwargs w :
  world_advances w (trigger_interrupt depth name args kwargs w).
Proof.
  split; [apply same_drivers_trigger|]. split; [|apply trigger_interrupt_extends].
  destruct (trigger_interrupt_with_frame (call_handler depth) name args kwargs w
              (call_handler_frame depth)) as (_ & Hclock & _).
  unfold trigger_interrupt. rewrite Hclock. apply Qle_refl.
Qed.

Lemma world_advances_py_sleep q w : world_advances w (outcome_world (py_sleep q w)).
Proof.
  destruct (py_sleep_frame q w) as (Hstore & Htable & _).
  split; [by apply same_drivers_store|]. split; [|rewrite Htable; apply table_extends_refl].
  unfold py_sleep. destruct (Qle_bool 0 q) eqn:Hq; simpl; [|apply Qle_refl].
  apply Qle_bool_iff in Hq. rewrite <- (Qplus_0_r (clock w)) at 1.
  by apply Qplus_le_r.
Qed.

Lemma world_advances_and_then_raise r e w :
  world_advances w (outcome_world r) →
  world_advances w (outcome_world (and_then r (λ w', Raised e w'))).
Proof. by rewrite and_then_raise_world. Qed.

Lemma world_advances_block_transfer rnd self op w :
  world_advances w (outcome_world (Block_transfer rnd self op w)).
Proof.
  unfold Block_transfer. repeat case_match; simpl; try apply world_advances_refl.
  - apply world_advances_and_then_raise, world_advances_py_sleep.
  - apply world_advances_py_sleep.
Qed.

Lemma world_advances_char_transfer rnd self op w :
  world_advances w (outcome_world (Char_transfer rnd self op w)).
Proof.
  unfold Char_transfer. repeat case_match; simpl; try apply world_advances_refl.
  - apply world_advances_and_then_raise, world_advances_py_sleep.
  - apply world_advances_py_sleep.
Qed.

Lemma block_try_advances rnd self op w :
  let r := and_then (Block_seek self op w) (Block_transfer rnd self op) in
  world_advances w (outcome_world r) ∧ buffer_manager (outcome_world r) = buffer_manager w.
Proof.
  unfold Block_seek. destruct (block_address op) as [addr|]; cbn zeta.
  - destruct (store w !! self) as [d|] eqn:Hself;
      [|split; [apply world_advances_refl | done]].
    set (w1 := update_dcb self (set_current_position addr) w).
    assert (world_advances w w1) as H1 by apply world_advances_update_dcb.
    set (q := (inject_Z (Z.abs (current_position (dcb d) - addr)) * 0.001)%Q).
    pose proof (world_advances_py_sleep q w1) as H2.
    destruct (py_sleep_frame q w1) as (_ & _ & Hpool).
    destruct (py_sleep q w1) as [w2|e w2]; cbn [outcome_world and_then] in *.
    + destruct (Block_transfer_frame rnd self op w2) as (_ & _ & Hpool').
      split; [|by rewrite Hpool', Hpool].
      eapply world_advances_trans; [exact H1|].
      eapply world_advances_trans; [exact H2|]. apply world_advances_block_transfer.
    + split; [by eapply world_advances_trans | done].
  - cbn [and_then]. destruct (Block_transfer_frame rnd self op w) as (_ & _ & Hpool').
    split; [apply world_advances_block_transfer | done].
Qed.

Lemma trigger_interrupt_pool depth name args kwargs w :
  buffer_manager (trigger_interrupt depth name args kwargs w) = buffer_manager w.
Proof.
  by destruct (trigger_interrupt_with_frame (call_handler depth) name args kwargs w
                 (call_handler_frame depth)) as (Hpool & _).
Qed.

Lemma complete_operation_total depth self op success w :
  is_Some (store w !! self) →
  ∃ op' w', complete_operation depth self op success w = Some (op', w')
    ∧ world_advances w w'
    ∧ buffer_manager w' = snd (release_buffer (operation_id op) (buffer_manager w)).
Proof.
  intros [d Hself]. unfold complete_operation. rewrite Hself. simpl.
  eexists _, _. split; [done|]. split.
  - eapply world_advances_trans; [|apply world_advances_trigger].
    destruct success.
    + eapply world_advances_trans; [apply world_advances_update_dcb|].
      apply world_advances_set_buffer_manager.
    + eapply world_advances_trans; [apply world_advances_update_dcb|].
      apply world_advances_set_buffer_manager.
  - rewrite trigger_interrupt_pool. by destruct success.
Qed.

Lemma release_after_allocate size_mb id bm :
  buffers bm !! id = None →
  snd (release_buffer id (snd (allocate_buffer size_mb id bm))) = bm.
Proof.
  intros Hfresh. unfold allocate_buffer.
  destruct (_ <? _)%Z; simpl.
  - unfold release_buffer. by rewrite Hfresh.
  - unfold Buffer_allocate, Buffer_init. simpl. rewrite Z.leb_refl. simpl.
    by apply (release_after_grant id (mkBuffer _ _ _)).
Qed.

Lemma release_nothing id bm :
  buffers bm !! id = None → snd (release_buffer id bm) = bm.
Proof. intros Hfresh. unfold release_buffer. by rewrite Hfresh. Qed.

Lemma perform_operation_total depth rnd self op w :
  is_Some (store w !! self) →
  ∃ success op' w',
    perform_operation depth rnd self op w = Some (success, op', w')
    ∧ world_advances w w'
    ∧ (buffers (buffer_manager w) !! operation_id op = None →
       buffer_manager w' = buffer_manager w).
Proof.
  intros [d Hself]. unfold perform_operation. rewrite Hself. simpl.
  assert (∃ ok op1 w1, DeviceDriver_perform_operation self op w = Some (ok, op1, w1)
            ∧ world_advances w w1 ∧ buffer_manager w1 = buffer_manager w
            ∧ operation_id op1 = operation_id op
            ∧ data_size_mb op1 = data_size_mb op)
    as (ok & op1 & w1 & Hbase & Hw1 & Hpool1 & Hid1 & Hsize1).
  { unfold DeviceDriver_perform_operation. rewrite Hself. simpl.
    case_decide; eexists _, _, _; (split; [done|]); (split; [|done]);
      [apply world_advances_refl | apply world_advances_append_history]. }
  assert (is_Some (store w1 !! self)) as Hself1.
  { destruct Hw1 as (Hsame & _). apply Hsame. by eauto. }
  destruct (driver_class d).
  - exists ok, op1, w1. split; [done|]. split; [done|]. by intros _.
  - unfold Block_perform_operation. rewrite Hbase. simpl.
    destruct ok; simpl;
      [|exists false, op1, w1; split; [done|]; split; [done|]; by intros _].
    set (w2 := update_dcb self (set_status OCUPADO) w1).
    rewrite Hid1, Hsize1.
    set (alloc := allocate_buffer (data_size_mb op) (operation_id op) (buffer_manager w1)).
    set (w3 := set_buffer_manager alloc.2 w2).
    assert (world_advances w w3) as Hw3.
    { eapply world_advances_trans; [exact Hw1|].
      eapply world_advances_trans; [apply world_advances_update_dcb|].
      apply world_advances_set_buffer_manager. }
    assert (is_Some (store w3 !! self)) as Hself3.
    { destruct Hw3 as (Hsame & _). apply Hsame. by eauto. }
    assert (buffers (buffer_manager w) !! operation_id op = None →
            snd (release_buffer (operation_id op) (buffer_manager w3)) = buffer_manager w)
      as Hrelease.
    { intros Hfresh. subst w3 alloc w2. simpl. rewrite Hpool1.
      by apply release_after_allocate. }
    destruct alloc.1; simpl.
    + destruct (block_try_advances rnd self op1 w3) as (Hr & Hpool4).
      set (r := and_then _ _) in *.
      assert (is_Some (store (outcome_world r) !! self)) as Hself4.
      { destruct Hr as (Hsame & _). by apply Hsame. }
      destruct r as [w4|e w4]; simpl in Hr, Hpool4, Hself4.
      * destruct (complete_operation_total depth self op1 true w4 Hself4)
          as (op2 & w5 & -> & Hw5 & Hpool5). simpl.
        eexists _, _, _. split; [done|]. split.
        -- eapply world_advances_trans; [exact Hw3|].
           eapply world_advances_trans; [exact Hr|].
           eapply world_advances_trans; [exact Hw5|]. apply world_advances_update_dcb.
        -- intros Hfresh. simpl. rewrite Hpool5, Hpool4, Hid1. by apply Hrelease.
      * destruct (complete_operation_total depth self op1 false w4 Hself4)
          as (op2 & w5 & -> & Hw5 & Hpool5). simpl.
        eexists _, _, _. split; [done|]. split.
        -- eapply world_advances_trans; [exact Hw3|].
           eapply world_advances_trans; [exact Hr|].
           eapply world_advances_trans; [exact Hw5|]. apply world_advances_update_dcb.
        -- intros Hfresh. simpl. rewrite Hpool5, Hpool4, Hid1. by apply Hrelease.
    + destruct (complete_operation_total depth self op1 false w3 Hself3)
        as (op2 & w4 & -> & Hw4 & Hpool4). simpl.
      eexists _, _, _. split; [done|]. split; [by eapply world_advances_trans|].
      intros Hfresh. rewrite Hpool4, Hid1. by apply Hrelease.
  - unfold Char_perform_operation. rewrite Hbase. simpl.
    destruct ok; simpl;
      [|exists false, op1, w1; split; [done|]; split; [done|]; by intros _].
    destruct Hself1 as [d1 Hself1]. rewrite Hself1. simpl.
    set (w2 := update_dcb self (set_status OCUPADO) w1).
    assert (world_advances w w2) as Hw2.
    { eapply world_advances_trans; [exact Hw1|]. apply world_advances_update_dcb. }
    assert (buffers (buffer_manager w) !! operation_id op = None →
            snd (release_buffer (operation_id op1) (buffer_manager w2)) = buffer_manager w)
      as Hrelease.
    { intros Hfresh. subst w2. simpl. rewrite Hpool1, Hid1. by apply release_nothing. }
    pose proof (world_advances_char_transfer rnd self op1 w2) as Hr.
    destruct (Char_transfer_frame rnd self op1 w2) as (Hstore & _ & Hpool3).
    assert (is_Some (store w2 !! self)) as Hself2.
    { subst w2. rewrite update_dcb_lookup, Hself1. by eauto. }
    destruct (Char_transfer rnd self op1 w2) as [w3|e w3]; simpl in Hstore, Hpool3, Hr.
    + destruct (complete_operation_total depth self op1 true w3)
        as (op2 & w4 & -> & Hw4 & Hpool4); [by rewrite Hstore|].
      simpl. eexists _, _, _. split; [done|]. split.
      * eapply world_advances_trans; [exact Hw2|].
        eapply world_advances_trans; [exact Hr|].
        eapply world_advances_trans; [exact Hw4|]. apply world_advances_update_dcb.
      * intros Hfresh. simpl. rewrite Hpool4, Hpool3. by apply Hrelease.
    + destruct (complete_operation_total depth self op1 false w3)
        as (op2 & w4 & -> & Hw4 & Hpool4); [by rewrite Hstore|].
      simpl. eexists _, _, _. split; [done|]. split.
      * eapply world_advances_trans; [exact Hw2|].
        eapply world_advances_trans; [exact Hr|].
        eapply world_advances_trans; [exact Hw4|].
        eapply world_advances_trans; [apply world_advances_update_dcb|].
        apply world_advances_trigger.
      * intros Hfresh. rewrite trigger_interrupt_pool. simpl.
        rewrite Hpool4, Hpool3. by apply Hrelease.
Qed.

(** X22.  For a driver of any class, in any status, with any handlers registered
    and whatever the outcome, [perform_operation] returns, and when the id
    of the request held no buffer before the call the buffer pool is
    afterwards exactly as it was: a buffer granted to the request has been
    released.  Moreover the clock has not gone back, the driver objects are
    the same, no handler has been registered or removed and the interrupt
    history has only been extended. *)
Theorem perform_operation_returns_buffer depth rnd self d op w :
  store w !! self = Some d →
  buffers (buffer_manager w) !! operation_id op = None →
  ∃ success op' w',
    perform_operation depth rnd self op w = Some (success, op', w')
    ∧ buffer_manager w' = buffer_manager w
    ∧ (clock w <= clock w')%Q
    ∧ (∀ other, is_Some (store w' !! other) ↔ is_Some (store w !! other))
    ∧ interrupt_handlers (interrupt_table w') = interrupt_handlers (interrupt_table w)
    ∧ interrupt_history (interrupt_table w) `prefix_of` interrupt_history (interrupt_table w').
Proof.
  intros Hself Hfresh.
  destruct (perform_operation_total depth rnd self op w) as
    (success & op' & w' & Hperform & (Hsame & Hclock & Hhandlers & Hhistory & _) & Hpool);
    [by eauto|].
  exists success, op', w'. split; [done|]. split; [by apply Hpool|]. done.
Qed.

(** A request of 10 MB that hits the simulated fault: the pool is empty again. *)
Lemma perform_operation_returns_buffer_witness :
  let d := DeviceControlBlock_init 1 "Unidad USB" BLOQUE 128 30 0 in
  let w0 :=
    BlockDeviceDriver_init 1 d
      (mkWorld ∅ InterruptTable_init (BufferManager_init 20480) 0) in
  let w := trigger_interrupt 10 "UNIDAD_USB_CONNECT" [] ∅ w0 in
  let op := IOOperation_init 0 "a1b2c3d4" LECTURA 10 "ProcesoPrueba" 5 None 0 in
  ∃ success op' w',
    perform_operation 10 (mkRand 0.01 1) 1 op w = Some (success, op', w')
    ∧ buffer_manager w' = BufferManager_init 20480.
Proof.
  intros d w0 w op.
  destruct (perform_operation_returns_buffer 10 (mkRand 0.01 1) 1
              (mkDriver BlockDeviceDriver (set_status CONECTADO d) []) op w)
    as (success & op' & w' & Hperform & Hpool & _).
  - reflexivity.
  - reflexivity.
  - exists success, op', w'. split; [exact Hperform|]. rewrite Hpool. reflexivity.
Defined.



Lemma history_counts (h : list OperationRecord) :
  length h
  = length (filter (λ r, rec_success r = true) h)
    + length (filter (λ r, rec_success r = false) h).
Proof.
  induction h as [|r h IH]; [done|].
  rewrite !filter_cons. destruct (rec_success r); simpl; lia.
Qed.







(** X24.  When the counters of the manager agree with its history, the success
    rate lies between 0 and 100; it is 0 when no request has been processed
    and 100 when requests have been processed and none has failed.  The
    throughput is 0 when no time has elapsed since the start. *)
Theorem success_rate_bounds m :
  stats_track_history m →
  (0 <= get_success_rate m)%Q
  ∧ (get_success_rate m <= 100)%Q
  ∧ (manager_history m = [] → get_success_rate m = 0%Q)
  ∧ (operations_failed (stats m) = 0%Z → manager_history m ≠ [] →
       (get_success_rate m == 100)%Q)
  ∧ (∀ now, (now <= stats_start_time (stats m))%Q → get_throughput now m = 0%Q).
Proof.
  intros (Hprocessed & Hok & Hko & _).
  pose proof (history_counts (manager_history m)) as Hcount.
  unfold get_success_rate.
  set (a := operations_succeeded (stats m)) in *.
  set (b := operations_failed (stats m)) in *.
  assert (0 ≤ a)%Z as Ha by (rewrite Hok; apply Nat2Z.is_nonneg).
  assert (0 ≤ b)%Z as Hb by (rewrite Hko; apply Nat2Z.is_nonneg).
  split; [|split; [|split; [|split]]].
  - destruct (Z.ltb_spec 0 (a + b)) as [Hpos|Hnpos]; [|done].
    destruct (a + b)%Z as [|total|total] eqn:Htotal; try lia.
    unfold Qle, Qdiv, Qmult, Qinv, inject_Z; simpl. nia.
  - destruct (Z.ltb_spec 0 (a + b)) as [Hpos|Hnpos]; [|done].
    destruct (a + b)%Z as [|total|total] eqn:Htotal; try lia.
    unfold Qle, Qdiv, Qmult, Qinv, inject_Z; simpl. nia.
  - intros Hnil. rewrite Hnil in Hok, Hko. simpl in Hok, Hko.
    destruct (Z.ltb_spec 0 (a + b)); [lia | done].
  - intros Hzero Hsome.
    assert (0 < length (manager_history m)) as Hlen
      by (destruct (manager_history m); [done | simpl; lia]).
    assert (0 < a)%Z as Hpos by lia.
    destruct (Z.ltb_spec 0 (a + b)) as [_|?]; [|lia].
    rewrite Hzero, Z.add_0_r.
    destruct a as [|total|total]; try lia.
    unfold Qeq, Qdiv, Qmult, Qinv, inject_Z; simpl. nia.
  - intros now Hnow. unfold get_throughput, Qltb.
    replace (Qle_bool (now - stats_start_time (stats m)) 0) with true; [done|].
    symmetry. apply Qle_bool_iff.
    rewrite <- (Qplus_opp_r (stats_start_time (stats m))).
    by apply Qplus_le_l.
Qed.

(** A manager that has served a failure and a success: a rate of 50. *)
Lemma success_rate_bounds_witness :
  let m := manager_served 1 "Unidad USB"
             (IOOperation_init 0 "a1b2c3d4" LECTURA 10 "ProcesoPrueba" 5 None 0) true
             (manager_served 1 "Unidad USB"
                (IOOperation_init 1 "e5f6a7b8" LECTURA 10 "ProcesoPrueba" 5 None 0) false
                (IOManager_init 0)) in
  (0 <= get_success_rate m)%Q ∧ (get_success_rate m <= 100)%Q
  ∧ (get_success_rate m == 50)%Q.
Proof.
  intros m.
  destruct (success_rate_bounds m) as (Hlo & Hhi & _).
  - by repeat split.
  - split; [exact Hlo|]. split; [exact Hhi | reflexivity].
Defined.

(** The request is refused its buffer: the explicit outcome. *)
Lemma block_perform_refused depth rnd self d op w :
  store w !! self = Some d →
  driver_class d = BlockDeviceDriver →
  status (dcb d) = CONECTADO →
  interrupt_handlers (interrupt_table w)
    !! interrupt_name (device_name (dcb d)) "OPERATION_COMPLETED" = None →
  (total_buffer_size_kb (buffer_manager w)
   < used_buffer_kb (buffer_manager w) + py_int (data_size_mb op * 1024))%Z →
  ∃ w',
    perform_operation depth rnd self op w
    = Some (false, mark_completed (clock w) false (mark_started (clock w) op), w')
    ∧ store w' !! self
      = Some (mkDriver BlockDeviceDriver (incr_error_count (set_status OCUPADO (dcb d)))
                (operation_history d ++ [op_obj op])).
Proof.
  intros Hself Hclass Hstatus Hnone Hfull.
  unfold perform_operation. rewrite Hself. simpl. rewrite Hclass.
  unfold Block_perform_operation.
  rewrite (base_perform_connected self d op w Hself Hstatus). simpl.
  set (op1 := mark_started (clock w) op).
  set (w2 := update_dcb self (set_status OCUPADO) (append_history self op1 w)).
  rewrite (allocate_buffer_refused (data_size_mb op) (operation_id op)
             (buffer_manager w) Hfull). simpl.
  set (d3 := mkDriver (driver_class d) (set_status OCUPADO (dcb d))
               (operation_history d ++ [op_obj op1])).
  destruct (complete_operation_failure depth self d3 op1
              (set_buffer_manager (buffer_manager w) w2))
    as (w' & Hcomplete & Hself' & _).
  { subst w2. simpl. rewrite lookup_alter_eq, lookup_alter_eq. by rewrite Hself. }
  { done. }
  rewrite Hcomplete. exists w'. split; [reflexivity|].
  rewrite Hself'. subst d3. simpl. by rewrite Hclass.
Qed.

(** X25.  When the loop serves a connected block device and the pool refuses the
    buffer of the request, the request leaves the queue and is counted as
    failed, and the device is left busy.  From then on the body of the loop
    for that device does nothing, whatever is queued for it, with any stack
    and any random draws: its requests are not served as long as nothing
    else changes its status. *)
Theorem refused_buffer_blocks_device depth rnd id sys driver d op sched :
  get_driver id (driver_table sys) = Some driver →
  store (world sys) !! driver = Some d →
  driver_class d = BlockDeviceDriver →
  status (dcb d) = CONECTADO →
  interrupt_handlers (interrupt_table (world sys))
    !! interrupt_name (device_name (dcb d)) "OPERATION_COMPLETED" = None →
  (total_buffer_size_kb (buffer_manager (world sys))
   < used_buffer_kb (buffer_manager (world sys)) + py_int (data_size_mb op * 1024))%Z →
  get_next_operation id (scheduler sys) = (Some op, sched) →
  ∃ sys1,
    dispatch_device depth rnd id sys = Some sys1
    ∧ scheduler sys1 = sched
    ∧ status_of driver (world sys1) = Some OCUPADO
    ∧ operations_failed (stats (manager sys1))
      = (operations_failed (stats (manager sys)) + 1)%Z
    ∧ ∀ depth' rnd' sched' m',
        let sys2 := mkSystem (world sys1) sched' (driver_table sys1) m' in
        dispatch_device depth' rnd' id sys2 = Some sys2.
Proof.
  intros Hdriver Hself Hclass Hstatus Hnone Hfull Hnext.
  destruct (block_perform_refused depth rnd driver d op (world sys))
    as (w' & Hperform & Hself'); [done..|].
  unfold dispatch_device at 1. rewrite Hdriver, Hself. simpl.
  rewrite decide_False by (rewrite Hstatus; discriminate).
  rewrite Hnext, Hperform. simpl. rewrite Hself'. simpl.
  eexists. split; [done|]. simpl. split; [done|].
  split; [by (unfold status_of; rewrite Hself')|]. split; [done|].
  intros depth' rnd' sched' m'. unfold dispatch_device. simpl.
  by rewrite Hdriver, Hself'.
Qed.

(** The run of [test_core_functionality], and a request queued afterwards. *)
Lemma refused_buffer_blocks_device_witness :
  let d := DeviceControlBlock_init 1 "Unidad USB" BLOQUE 128 30 0 in
  let w0 :=
    BlockDeviceDriver_init 7 d
      (mkWorld ∅ InterruptTable_init (BufferManager_init 2048) 0) in
  let w := trigger_interrupt 10 "UNIDAD_USB_CONNECT" [] ∅ w0 in
  let op := IOOperation_init 0 "a1b2c3d4" LECTURA 10 "ProcesoPrueba" 5 None 0 in
  let later := IOOperation_init 1 "e5f6a7b8" LECTURA 1 "ProcesoPrueba" 5 None 0 in
  let sys :=
    mkSystem w
      (add_operation 1 op (IOScheduler_init FIFO))
      (register_driver 1 7 (mkDriverTable []))
      (IOManager_init 0) in
  ∃ sys1,
    dispatch_device 10 (mkRand 0.5 1) 1 sys = Some sys1
    ∧ status_of 7 (world sys1) = Some OCUPADO
    ∧ dispatch_device 10 (mkRand 0.5 1) 1 (add_io_operation 1 later sys1)
      = Some (add_io_operation 1 later sys1).
Proof.
  intros d w0 w op later sys.
  destruct (refused_buffer_blocks_device 10 (mkRand 0.5 1) 1 sys 7
              (mkDriver BlockDeviceDriver (set_status CONECTADO d) []) op
              (mkScheduler FIFO (<[1%Z := Queue []]> ∅)))
    as (sys1 & Hrun & _ & Hbusy & _ & Hlater).
  - reflexivity.
  - reflexivity.
  - reflexivity.
  - reflexivity.
  - reflexivity.
  - vm_compute. reflexivity.
  - reflexivity.
  - exists sys1. split; [exact Hrun|]. split; [exact Hbusy|].
    apply (Hlater 10 (mkRand 0.5 1)).
Defined.

End Manager.

(** ** The interface *)

Section Interface.
Implicit Types (sys : System).

Lemma new_device_connected depth self c w h :
  (h = Block_on_connect self ∨ h = Char_on_connect self) →
  store w !! self = Some (mkDriver (match h with Block_on_connect _ => BlockDeviceDriver | _ => CharacterDeviceDriver end) c []) →
  interrupt_handlers (interrupt_table w) !! interrupt_name (device_name c) "CONNECT"
  = Some h →
  status_of self (trigger_interrupt (S depth) (interrupt_name (device_name c) "CONNECT") [] ∅ w)
  = Some CONECTADO.
Proof.
  intros Hh Hself Hhandler. rewrite (trigger_interrupt_handler _ _ _ _ _ _ Hhandler).
  set (w1 := set_interrupt_table _ w).
  assert (call_handler (S depth) h [] ∅ w1
          = Returned (update_dcb self (set_status CONECTADO) w1)) as ->.
  { destruct Hh as [-> | ->]; cbn [call_handler]; rewrite binds_no_arguments;
      change (store w1 !! self) with (store w !! self); by rewrite Hself. }
  cbn [outcome_world]. unfold status_of. rewrite update_dcb_lookup.
  change (store w1 !! self) with (store w !! self). by rewrite Hself.
Qed.

(** X26.  The interface gives a new device the id [len(drivers) + 1].  Adding a
    block or a character device registers the new driver under that id and
    connects it, the other ids keeping their drivers.  When the id was not
    registered it comes last in the registry; when it was (a device of a
    lower id has been removed) the registry keeps its ids and the driver
    that was registered under the id is replaced by the new one.  The
    scheduler is untouched. *)
Theorem add_device_reuses_taken_id depth self sys :
  let id := GUI_next_device_id sys in
  let keys := (get_all_drivers (driver_table sys)).*1 in
  ∀ sys',
    sys' = GUI_add_block_device (S depth) self sys
    ∨ sys' = GUI_add_character_device (S depth) self sys →
    get_driver id (driver_table sys') = Some self
    ∧ status_of self (world sys') = Some CONECTADO
    ∧ (∀ id', id' ≠ id → get_driver id' (driver_table sys') = get_driver id' (driver_table sys))
    ∧ (get_all_drivers (driver_table sys')).*1
      = match get_driver id (driver_table sys) with
        | Some _ => keys
        | None => keys ++ [id]
        end
    ∧ scheduler sys' = scheduler sys.
Proof.
  intros id keys sys' Hsys'.
  assert (driver_table sys' = register_driver id self (driver_table sys)) as Htable
    by (by destruct Hsys' as [-> | ->]).
  rewrite Htable. unfold get_driver, get_all_drivers, register_driver. cbn [drivers].
  split; [apply dict_set_get|].
  split; [|split; [intros id' Hne; by apply dict_set_get_ne|split; [apply dict_set_keys|]]].
  - destruct Hsys' as [-> | ->]; cbn [world GUI_add_block_device GUI_add_character_device].
    + apply (new_device_connected depth self _ _ (Block_on_connect self)); [by left|..].
      * simpl. apply lookup_insert_eq.
      * simpl. rewrite lookup_insert_ne by (intros ?%interrupt_name_inj; done).
        rewrite lookup_insert_ne by (intros ?%interrupt_name_inj; done).
        apply lookup_insert_eq.
    + apply (new_device_connected depth self _ _ (Char_on_connect self)); [by right|..].
      * simpl. apply lookup_insert_eq.
      * simpl. rewrite lookup_insert_ne by (intros ?%interrupt_name_inj; done).
        rewrite lookup_insert_ne by (intros ?%interrupt_name_inj; done).
        apply lookup_insert_eq.
  - by destruct Hsys' as [-> | ->].
Qed.

(** The three default devices; device 1 is removed and a block device added: it takes the id 3 of the keyboard. *)
Lemma add_device_reuses_taken_id_witness :
  let w0 := mkWorld ∅ InterruptTable_init (BufferManager_init 2048) 0 in
  let w :=
    CharacterDeviceDriver_init 3
      (DeviceControlBlock_init 3 "Teclado" CARACTER 0 0.1 0)
      (BlockDeviceDriver_init 2
         (DeviceControlBlock_init 2 "Disco Duro" BLOQUE 1000 120 0)
         (BlockDeviceDriver_init 1
            (DeviceControlBlock_init 1 "Unidad USB" BLOQUE 128 30 0) w0)) in
  let t := register_driver 3 3 (register_driver 2 2 (register_driver 1 1 (mkDriverTable []))) in
  let sys := mkSystem w (IOScheduler_init FIFO) t (IOManager_init 0) in
  ∃ sys1,
    GUI_remove_selected_device 10 1 sys = Some sys1
    ∧ (get_all_drivers (driver_table (GUI_add_block_device 10 4 sys1))).*1 = [2; 3]%Z
    ∧ get_driver 3 (driver_table (GUI_add_block_device 10 4 sys1)) = Some 4
    ∧ get_driver 3 (driver_table sys1) = Some 3.
Proof.
  intros w0 w t sys. eexists. split; [reflexivity|].
  match goal with |- context [GUI_add_block_device 10 4 ?s] => set (sys1 := s) end.
  destruct (add_device_reuses_taken_id 9 4 sys1 (GUI_add_block_device 10 4 sys1))
    as (Hget & _ & _ & Hkeys & _).
  - by left.
  - split; [exact Hkeys|]. split; [exact Hget | reflexivity].
Defined.

End Interface.
